(** * Gomoku: the move-search engine (ai.js) and the game engine (game.js)

    A shallow embedding of the two pure-logic modules of the repository and
    the properties of its specification that are about them.

    Conventions of the embedding.
    - Coordinates, cell values, depths, node counts and millisecond
      timestamps are JavaScript integers and are modelled by [Z].
    - Scores are JavaScript numbers that leave the integers
      ([oppScore * 1.1], [x * 0.9], [timeLimitMs * 0.7]); they are modelled
      by IEEE-754 binary64 floats ([PrimFloat]), so every comparison the
      search makes is the comparison the program makes.
    - A board is an array of rows: [list (list Z)].  Every read the program
      makes is guarded by [inBounds] or by a loop over [0 .. BOARD_SIZE-1].
    - [Date.now()] and [Math.random()] are oracles: the n-th call returns the
      n-th value of a stream; the number of calls made so far is state.
    - A loop with an early [return] over a finite range is an [existsb] or a
      recursion over the list of its indices, in the order of the source. *)

From Stdlib Require Import ZArith List Bool Lia QArith Qround Floats.PrimFloat.
From Stdlib Require String Finite Permutation.
Import ListNotations String.StringSyntax.
Delimit Scope string_scope with string.

#[local] Set Warnings "-inexact-float".
#[local] Open Scope Z_scope.

(** ** JavaScript helpers *)

Module JS.

(** An integer below 2^53 as a double (exact: every step doubles or adds one). *)
Fixpoint float_of_pos (p : positive) : float :=
  match p with
  | xH => 1%float
  | xO q => (2 * float_of_pos q)%float
  | xI q => (2 * float_of_pos q + 1)%float
  end.

Definition float_of_Z (z : Z) : float :=
  match z with
  | Z0 => 0%float
  | Zpos p => float_of_pos p
  | Zneg p => (- float_of_pos p)%float
  end.

(** [Math.max] and [Math.min] on two numbers (NaN is contagious, +0 > -0). *)
Definition Math_max (a b : float) : float :=
  if is_nan a || is_nan b then nan
  else if (a <? b)%float then b
  else if (b <? a)%float then a
  else if get_sign a then b else a.

Definition Math_min (a b : float) : float :=
  if is_nan a || is_nan b then nan
  else if (a <? b)%float then a
  else if (b <? a)%float then b
  else if get_sign a then a else b.

(** [Math.abs] and [Math.max(0, n)] on integers. *)
Definition Math_abs (z : Z) : Z := Z.abs z.

(** The integers [lo, lo+1, ..., lo+n-1]: the values a counting [for] takes. *)
Definition range (lo : Z) (n : nat) : list Z :=
  map (fun k => lo + Z.of_nat k) (seq 0 n).

(** [arr[n] = f(arr[n])] for an index of the array. *)
Fixpoint update {A} (n : nat) (f : A -> A) (l : list A) : list A :=
  match l, n with
  | [], _ => []
  | a :: l', O => f a :: l'
  | a :: l', S n' => a :: update n' f l'
  end.

(** [arr.slice(0, n)]. *)
Definition slice0 {A} (n : nat) (arr : list A) : list A := firstn n arr.

(** [arr.sort(cmp)]: the sort is stable, and for a comparator that is a
    consistent ordering the result is the unique stable arrangement; it is
    computed here by insertion from the right.  [cmp a b] is negative when
    [a] goes first. *)
Section Sort.
Context {A : Type} (cmp : A -> A -> float).

Fixpoint insert (a : A) (l : list A) : list A :=
  match l with
  | [] => [a]
  | b :: l' => if (0 <? cmp a b)%float then b :: insert a l' else a :: l
  end.

Definition sort (l : list A) : list A := fold_right insert [] l.
End Sort.

End JS.

(** ** ai.js *)

Module AI.
Import JS.

(** *** Constants *)

Definition EMPTY : Z := 0.
Definition BLACK : Z := 1.
Definition WHITE : Z := 2.
Definition BOARD_SIZE : Z := 15.

Definition INF : float := 1e9%float.
Definition WIN_SCORE : float := 1e8%float.

Module SCORES.
Definition FIVE : Z := 10000000.
Definition OPEN_FOUR : Z := 1000000.
Definition HALF_OPEN_FOUR : Z := 100000.
Definition OPEN_THREE : Z := 10000.
Definition HALF_OPEN_THREE : Z := 1000.
Definition OPEN_TWO : Z := 100.
Definition HALF_OPEN_TWO : Z := 10.
Definition OPEN_ONE : Z := 1.
End SCORES.

Definition DIRECTIONS : list (Z * Z) := [(0, 1); (1, 0); (1, 1); (1, -1)].

Definition CENTER : Z := BOARD_SIZE / 2.

(** *** Boards and moves *)

Definition Board : Type := list (list Z).

(** What a read past the end of a row yields ([undefined]): a value that is
    no cell state.  No guarded read ever sees it on a 15x15 board. *)
Definition undefined : Z := -1.

(** [board[i][j]] *)
Definition cell (board : Board) (i j : Z) : Z :=
  nth (Z.to_nat j) (nth (Z.to_nat i) board []) undefined.

(** [board[i][j] = v], for a cell of the board (the program writes no other). *)
Definition setCell (board : Board) (i j v : Z) : Board :=
  update (Z.to_nat i) (update (Z.to_nat j) (fun _ => v)) board.

Record Move : Type := mkMove { x : Z; y : Z }.

Definition Move_eqb (a b : Move) : bool := (x a =? x b) && (y a =? y b).

(** The values of [i] (and of [j]) in [for (let i = 0; i < BOARD_SIZE; i++)]. *)
Definition indices : list Z := range 0 (Z.to_nat BOARD_SIZE).

(** The pairs [(i, j)] of the doubly nested loop over the board, in the
    order the loop visits them. *)
Definition cells : list (Z * Z) := list_prod indices indices.

(** A board of the shape the program expects: 15 rows of 15 cells. *)
Definition shapedb (board : Board) : bool :=
  (length board =? Z.to_nat BOARD_SIZE)%nat
  && forallb (fun row => (length row =? Z.to_nat BOARD_SIZE)%nat) board.

(** A well-formed board: of that shape, every cell empty, black or white. *)
Definition wellFormedb (board : Board) : bool :=
  shapedb board
  && forallb (forallb (fun c => (c =? EMPTY) || (c =? BLACK) || (c =? WHITE))) board.

Definition emptyBoard : Board :=
  repeat (repeat EMPTY (Z.to_nat BOARD_SIZE)) (Z.to_nat BOARD_SIZE).

(** *** Utility functions *)

Definition countStones (board : Board) : Z :=
  fold_left (fun count '(i, j) =>
               if negb (cell board i j =? EMPTY) then count + 1 else count)
            cells 0.

Definition inBounds (x y : Z) : bool :=
  (x >=? 0) && (x <? BOARD_SIZE) && (y >=? 0) && (y <? BOARD_SIZE).

Definition opponent (player : Z) : Z :=
  if player =? BLACK then WHITE else BLACK.

(** *** Candidate move generation *)

(** The state of the loops of [generateCandidates]: the array, the set of
    keys seen, and the flag. *)
Record Candidates : Type :=
  mkCandidates { candidates : list Move; visited : list Z; hasStone : bool }.

Definition has (s : list Z) (key : Z) : bool := existsb (Z.eqb key) s.

(** The body of the two inner loops, at offset [(di, dj)] from stone [(i, j)]. *)
Definition visit (board : Board) (i j : Z) (acc : Candidates) (d : Z * Z)
  : Candidates :=
  let '(di, dj) := d in
  let ni := i + di in
  let nj := j + dj in
  if inBounds ni nj && (cell board ni nj =? EMPTY) then
    let key := ni * BOARD_SIZE + nj in
    if negb (has (visited acc) key) then
      mkCandidates (candidates acc ++ [mkMove ni nj]) (key :: visited acc)
                   (hasStone acc)
    else acc
  else acc.

(** The offsets [di] (and [dj]) in [for (let di = -radius; di <= radius; di++)]. *)
Definition offsets (radius : Z) : list Z :=
  range (- radius) (Z.to_nat (2 * radius + 1)).

Definition scanCell (board : Board) (radius : Z) (acc : Candidates) (ij : Z * Z)
  : Candidates :=
  let '(i, j) := ij in
  if negb (cell board i j =? EMPTY) then
    fold_left (visit board i j)
              (list_prod (offsets radius) (offsets radius))
              (mkCandidates (candidates acc) (visited acc) true)
  else acc.

Definition generateCandidates (board : Board) (radius : Z) : list Move :=
  let acc := fold_left (scanCell board radius) cells (mkCandidates [] [] false) in
  if negb (hasStone acc) then [mkMove CENTER CENTER] else candidates acc.

(** *** Counting along a line *)

(** [for (let k = k0; ...; k++) { if (inBounds(p k) && board[p k] === player)
    count++; else break; }] run for at most [n] rounds, where [p k] is the
    cell of step [k]. *)
Fixpoint countRun (board : Board) (player : Z) (p : Z -> Z * Z)
         (n : nat) (k : Z) (count : Z) : Z :=
  match n with
  | O => count
  | S n' =>
      let '(ni, nj) := p k in
      if inBounds ni nj && (cell board ni nj =? player)
      then countRun board player p n' (k + 1) (count + 1)
      else count
  end.

(** *** Terminal states *)

Definition checkWin (board : Board) (player : Z) : bool :=
  existsb (fun '(i, j) =>
    if negb (cell board i j =? player) then false
    else existsb (fun '(dx, dy) =>
           let count :=
             countRun board player (fun k => (i + dx * k, j + dy * k)) 4 1 1 in
           count >=? 5) DIRECTIONS) cells.

Definition isBoardFull (board : Board) : bool :=
  negb (existsb (fun '(i, j) => cell board i j =? EMPTY) cells).

(** [isWinningMove]: would a stone of [player] at [(x, y)] make five? *)
Definition isWinningMove (board : Board) (x y player : Z) : bool :=
  existsb (fun '(dx, dy) =>
    let count := countRun board player (fun k => (x + dx * k, y + dy * k)) 4 1 1 in
    let count := countRun board player (fun k => (x - dx * k, y - dy * k)) 4 1 count in
    count >=? 5) DIRECTIONS.

(** *** Pattern evaluation *)

(** [while (inBounds(ci, cj) && board[ci][cj] === stone) { count++; ci += dx;
    cj += dy; }] from [(i, j)]: the run leaves the board within BOARD_SIZE
    steps, so BOARD_SIZE rounds of the loop are all it can make
    ([runLength_rounds] below: more rounds give the same count). *)
Definition runLength (board : Board) (stone i j dx dy : Z) : Z :=
  countRun board stone (fun k => (i + dx * k, j + dy * k))
           (Z.to_nat BOARD_SIZE) 0 0.

(** The classification of a run shorter than five with an open end. *)
Definition patternScore (count openEnds : Z) : Z :=
  if count =? 4 then
    if openEnds =? 2 then SCORES.OPEN_FOUR else SCORES.HALF_OPEN_FOUR
  else if count =? 3 then
    if openEnds =? 2 then SCORES.OPEN_THREE else SCORES.HALF_OPEN_THREE
  else if count =? 2 then
    if openEnds =? 2 then SCORES.OPEN_TWO else SCORES.HALF_OPEN_TWO
  else if count =? 1 then
    if openEnds =? 2 then SCORES.OPEN_ONE else 0
  else 0.

(** The body of the scan of [evaluateBoard] at direction [(dx, dy)] and cell
    [(i, j)], on the pair [(myScore, oppScore)]. *)
Definition evalCell (board : Board) (player : Z) (acc : Z * Z)
           (dij : (Z * Z) * (Z * Z)) : Z * Z :=
  let '((dx, dy), (i, j)) := dij in
  let '(myScore, oppScore) := acc in
  let pi := i - dx in
  let pj := j - dy in
  if inBounds pi pj && (cell board pi pj =? cell board i j)
     && negb (cell board i j =? EMPTY)
  then acc
  else if cell board i j =? EMPTY then acc
  else
    let stone := cell board i j in
    let count := runLength board stone i j dx dy in
    let ci := i + dx * count in
    let cj := j + dy * count in
    if count >=? 5 then
      if stone =? player then (myScore + SCORES.FIVE, oppScore)
      else (myScore, oppScore + SCORES.FIVE)
    else
      let beforeI := i - dx in
      let beforeJ := j - dy in
      let afterI := ci in
      let afterJ := cj in
      let openBefore :=
        inBounds beforeI beforeJ && (cell board beforeI beforeJ =? EMPTY) in
      let openAfter :=
        inBounds afterI afterJ && (cell board afterI afterJ =? EMPTY) in
      let openEnds :=
        (if openBefore then 1 else 0) + (if openAfter then 1 else 0) in
      if openEnds =? 0 then acc
      else
        let score := patternScore count openEnds in
        if stone =? player then (myScore + score, oppScore)
        else (myScore, oppScore + score).

(** The body of the center-preference loop. *)
Definition centerCell (board : Board) (player : Z) (myScore : Z) (ij : Z * Z) : Z :=
  let '(i, j) := ij in
  if cell board i j =? player then
    let distFromCenter := Math_abs (i - CENTER) + Math_abs (j - CENTER) in
    myScore + Z.max 0 (7 - distFromCenter)
  else myScore.

(** The two accumulators of [evaluateBoard] when its loops are over. *)
Definition evaluateScores (board : Board) (player : Z) : Z * Z :=
  let '(myScore, oppScore) :=
    fold_left (evalCell board player) (list_prod DIRECTIONS cells) (0, 0) in
  let myScore := fold_left (centerCell board player) cells myScore in
  (myScore, oppScore).

(** [myScore - oppScore * 1.1] on doubles; the accumulators are integers
    below 2^53, which doubles hold exactly. *)
Definition weigh (myScore oppScore : Z) : float :=
  (float_of_Z myScore - float_of_Z oppScore * 1.1)%float.

Definition evaluateBoard (board : Board) (player : Z) : float :=
  let '(myScore, oppScore) := evaluateScores board player in
  weigh myScore oppScore.

(** The body of the window scan of [evaluateBoardAdvanced]. *)
Definition evalWindow (board : Board) (player opp : Z) (acc : Z * Z)
           (dij : (Z * Z) * (Z * Z)) : Z * Z :=
  let '((dx, dy), (i, j)) := dij in
  let '(myScore, oppScore) := acc in
  if negb (inBounds (i + dx * 4) (j + dy * 4)) then acc
  else
    let window := map (fun k => cell board (i + dx * k) (j + dy * k)) (range 0 5) in
    let '(myCount, oppCount, emptyCount) :=
      fold_left (fun '(myCount, oppCount, emptyCount) c =>
                   if c =? player then (myCount + 1, oppCount, emptyCount)
                   else if c =? opp then (myCount, oppCount + 1, emptyCount)
                   else (myCount, oppCount, emptyCount + 1))
                window (0, 0, 0) in
    let myScore :=
      if (myCount >? 0) && (oppCount =? 0) then
        if myCount =? 5 then myScore + SCORES.FIVE
        else if myCount =? 4 then myScore + SCORES.HALF_OPEN_FOUR
        else if myCount =? 3 then myScore + SCORES.HALF_OPEN_THREE * 2
        else if myCount =? 2 then myScore + SCORES.HALF_OPEN_TWO
        else myScore
      else myScore in
    let oppScore :=
      if (oppCount >? 0) && (myCount =? 0) then
        if oppCount =? 5 then oppScore + SCORES.FIVE
        else if oppCount =? 4 then oppScore + SCORES.HALF_OPEN_FOUR
        else if oppCount =? 3 then oppScore + SCORES.HALF_OPEN_THREE * 2
        else if oppCount =? 2 then oppScore + SCORES.HALF_OPEN_TWO
        else oppScore
      else oppScore in
    (myScore, oppScore).

Definition evaluateBoardAdvanced (board : Board) (player : Z) : float :=
  let opp := opponent player in
  let '(myScore, oppScore) :=
    fold_left (evalWindow board player opp) (list_prod DIRECTIONS cells) (0, 0) in
  let basicScore := evaluateBoard board player in
  (basicScore + weigh myScore oppScore * 0.5)%float.

(** *** The quick move scorer *)

(** [for (let k = 1; k <= 4; k++) { if (!inBounds(p k)) break;
    if (board[p k] === who) count++; else { open = board[p k] === EMPTY;
    break; } }]: the count and the openness flag the loop leaves. *)
Fixpoint probe (board : Board) (who : Z) (p : Z -> Z * Z)
         (n : nat) (k : Z) (count : Z) : Z * bool :=
  match n with
  | O => (count, false)
  | S n' =>
      let '(ni, nj) := p k in
      if negb (inBounds ni nj) then (count, false)
      else if cell board ni nj =? who then probe board who p n' (k + 1) (count + 1)
      else (count, cell board ni nj =? EMPTY)
  end.

(** The run of [who] through the empty cell [(x, y)] on one axis: its total
    length counting the cell itself, and its number of open ends. *)
Definition lineThrough (board : Board) (who x y : Z) (d : Z * Z) : Z * Z :=
  let '(dx, dy) := d in
  let '(forward, openForward) :=
    probe board who (fun k => (x + dx * k, y + dy * k)) 4 1 0 in
  let '(backward, openBackward) :=
    probe board who (fun k => (x - dx * k, y - dy * k)) 4 1 0 in
  (forward + backward + 1,
   (if openForward then 1 else 0) + (if openBackward then 1 else 0)).

(** The offensive update of [score] for an own line [(myTotal, myOpen)]. *)
Definition addOwn (score : float) (myTotal myOpen : Z) : float :=
  let plus (w : Z) : float := (score + float_of_Z w)%float in
  if myTotal >=? 5 then plus SCORES.FIVE
  else if myTotal =? 4 then
    plus (if myOpen =? 2 then SCORES.OPEN_FOUR
          else if myOpen =? 1 then SCORES.HALF_OPEN_FOUR else 0)
  else if myTotal =? 3 then
    plus (if myOpen =? 2 then SCORES.OPEN_THREE
          else if myOpen =? 1 then SCORES.HALF_OPEN_THREE else 0)
  else if myTotal =? 2 then
    plus (if myOpen =? 2 then SCORES.OPEN_TWO
          else if myOpen =? 1 then SCORES.HALF_OPEN_TWO else 0)
  else score.

(** The defensive update of [score] for an opponent line [(oppTotal, oppOpen)]. *)
Definition addBlock (score : float) (oppTotal oppOpen : Z) : float :=
  let plus09 (w : Z) : float := (score + float_of_Z w * 0.9)%float in
  if oppTotal >=? 5 then plus09 SCORES.FIVE
  else if oppTotal =? 4 then
    plus09 (if oppOpen >=? 1 then SCORES.HALF_OPEN_FOUR else 0)
  else if oppTotal =? 3 then
    plus09 (if oppOpen =? 2 then SCORES.OPEN_THREE
            else if oppOpen =? 1 then SCORES.HALF_OPEN_THREE else 0)
  else score.

(** The body of the loop of [scoreMoveQuick] over the directions. *)
Definition scoreAxis (board : Board) (x y player opp : Z) (score : float)
           (d : Z * Z) : float :=
  let '(myTotal, myOpen) := lineThrough board player x y d in
  let score := addOwn score myTotal myOpen in
  let '(oppTotal, oppOpen) := lineThrough board opp x y d in
  addBlock score oppTotal oppOpen.

Definition centerBonus (x y : Z) : Z :=
  let distFromCenter := Math_abs (x - CENTER) + Math_abs (y - CENTER) in
  Z.max 0 (7 - distFromCenter).

Definition scoreMoveQuick (board : Board) (x y player : Z) : float :=
  let opp := opponent player in
  let score := fold_left (scoreAxis board x y player opp) DIRECTIONS 0%float in
  (score + float_of_Z (centerBonus x y))%float.

(** *** The search engine *)

(** The fields of a [MinimaxEngine] that the program reads (the
    transposition table is only ever cleared). *)
Record MinimaxEngine : Type := mkEngine {
  nodesSearched : Z;
  startTime : Z;
  timeLimit : Z;
  timedOut : bool;
  useAdvancedEval : bool
}.

(** [new MinimaxEngine()] *)
Definition newEngine : MinimaxEngine := mkEngine 0 0 0 false false.

(** The mutable store of a call: the board array the caller passed, the
    engine object, and how many values of the two oracle streams have been
    consumed. *)
Record St : Type := mkSt {
  board : Board;
  this : MinimaxEngine;
  clock : nat;
  dice : nat
}.

Definition setBoard (s : St) (b : Board) : St := mkSt b (this s) (clock s) (dice s).
Definition setThis (s : St) (e : MinimaxEngine) : St :=
  mkSt (board s) e (clock s) (dice s).

(** [board[move.x][move.y] = v] *)
Definition place (s : St) (m : Move) (v : Z) : St :=
  setBoard s (setCell (board s) (x m) (y m) v).

(** A candidate with its ordering score: [{ ...m, score }]. *)
Record Scored : Type := mkScored { move : Move; score : float }.

Definition getOrderedMoves (board : Board) (player : Z) (radius : Z) : list Scored :=
  let candidates := generateCandidates board radius in
  let scored :=
    map (fun m => mkScored m (scoreMoveQuick board (x m) (y m) player)) candidates in
  sort (fun a b => (score b - score a)%float) scored.

Definition staticEval (s : St) (maximizingPlayer : Z) : float :=
  if useAdvancedEval (this s)
  then evaluateBoardAdvanced (board s) maximizingPlayer
  else evaluateBoard (board s) maximizingPlayer.

Section Oracles.

(** [now n] is what the n-th call of [Date.now()] returns, [random n] what
    the n-th call of [Math.random()] returns (a double in [0, 1), held as
    the rational it is; the products and differences the program forms
    with it are taken exactly). *)
Variable now : nat -> Z.
Variable random : nat -> Q.

Definition DateNow (s : St) : Z * St :=
  (now (clock s), mkSt (board s) (this s) (S (clock s)) (dice s)).

Definition MathRandom (s : St) : Q * St :=
  (random (dice s), mkSt (board s) (this s) (clock s) (S (dice s))).

(** The recursive call of [alphabeta], as the loops below see it. *)
Definition Recursion : Type :=
  Z -> float -> float -> Z -> Z -> bool -> St -> option (float * St).

Section Loops.
Variable recurse : Recursion.
Variables (depth maximizingPlayer currentPlayer : Z).

(** The loop of the maximizing branch: the value it returns. *)
Fixpoint maxLoop (movesToSearch : list Scored) (value alpha beta : float)
         (s : St) : option (float * St) :=
  match movesToSearch with
  | [] => Some (value, s)
  | m :: rest =>
      let s := place s (move m) currentPlayer in
      match recurse (depth - 1) alpha beta maximizingPlayer
                    (opponent currentPlayer) false s with
      | None => None
      | Some (score, s) =>
          let s := place s (move m) EMPTY in
          if timedOut (this s) then Some (value, s)
          else
            let value := Math_max value score in
            let alpha := Math_max alpha value in
            if (beta <=? alpha)%float then Some (value, s)
            else maxLoop rest value alpha beta s
      end
  end.

(** The loop of the minimizing branch. *)
Fixpoint minLoop (movesToSearch : list Scored) (value alpha beta : float)
         (s : St) : option (float * St) :=
  match movesToSearch with
  | [] => Some (value, s)
  | m :: rest =>
      let s := place s (move m) currentPlayer in
      match recurse (depth - 1) alpha beta maximizingPlayer
                    (opponent currentPlayer) true s with
      | None => None
      | Some (score, s) =>
          let s := place s (move m) EMPTY in
          if timedOut (this s) then Some (value, s)
          else
            let value := Math_min value score in
            let beta := Math_min beta value in
            if (beta <=? alpha)%float then Some (value, s)
            else minLoop rest value alpha beta s
      end
  end.
End Loops.

(** The time check at the head of [alphabeta]: whether it returned, and
    the store it leaves. *)
Definition timeCheck (s : St) : bool * St :=
  if (timeLimit (this s) >? 0) && (Z.rem (nodesSearched (this s)) 1000 =? 0) then
    let '(t, s) := DateNow s in
    if t - startTime (this s) >? timeLimit (this s) then
      (true, setThis s (mkEngine (nodesSearched (this s)) (startTime (this s))
                                 (timeLimit (this s)) true
                                 (useAdvancedEval (this s))))
    else (false, s)
  else (false, s).

(** [alphabeta].  The recursion of the program is bounded by the number
    of empty cells (every level places a stone and a full board returns);
    [fuel] bounds the nesting here, and [None] is its exhaustion. *)
Fixpoint alphabeta (fuel : nat) (depth : Z) (alpha beta : float)
         (maximizingPlayer currentPlayer : Z) (isMaximizing : bool)
         (s : St) {struct fuel} : option (float * St) :=
  match fuel with
  | O => None
  | S fuel' =>
      let s := setThis s (mkEngine (nodesSearched (this s) + 1)
                                   (startTime (this s)) (timeLimit (this s))
                                   (timedOut (this s))
                                   (useAdvancedEval (this s))) in
      let '(expired, s) := timeCheck s in
      if expired then Some (0%float, s)
      else if timedOut (this s) then Some (0%float, s)
      else if checkWin (board s) maximizingPlayer
      then Some ((WIN_SCORE + float_of_Z depth)%float, s)
      else if checkWin (board s) (opponent maximizingPlayer)
      then Some ((- (WIN_SCORE + float_of_Z depth))%float, s)
      else if (depth =? 0) || isBoardFull (board s)
      then Some (staticEval s maximizingPlayer, s)
      else
        let moves := getOrderedMoves (board s) currentPlayer 2 in
        let maxMoves := if depth <=? 1 then 10%nat
                        else if depth <=? 2 then 15%nat else 20%nat in
        let movesToSearch := slice0 maxMoves moves in
        if (length movesToSearch =? 0)%nat
        then Some (staticEval s maximizingPlayer, s)
        else if isMaximizing then
          maxLoop (alphabeta fuel') depth maximizingPlayer currentPlayer
                  movesToSearch (- INF)%float alpha beta s
        else
          minLoop (alphabeta fuel') depth maximizingPlayer currentPlayer
                  movesToSearch INF alpha beta s
  end.

(** The shortcut scans of the drivers: the first move after which [who]
    has five, every probe stone taken back. *)
Fixpoint probeMoves (who : Z) (moves : list Move) (s : St) : option Move * St :=
  match moves with
  | [] => (None, s)
  | m :: rest =>
      let s := place s m who in
      if checkWin (board s) who then (Some m, place s m EMPTY)
      else probeMoves who rest (place s m EMPTY)
  end.

(** The loop over the root candidates, in both drivers: the best move,
    its score, and the store. *)
Fixpoint rootLoop (fuel : nat) (player depth : Z) (topMoves : list Scored)
         (bestMove : Scored) (bestScore : float) (s : St)
  : option (Scored * float * St) :=
  match topMoves with
  | [] => Some (bestMove, bestScore, s)
  | m :: rest =>
      let s := place s (move m) player in
      match alphabeta fuel (depth - 1) (- INF)%float INF player
                      (opponent player) false s with
      | None => None
      | Some (score, s) =>
          let s := place s (move m) EMPTY in
          if timedOut (this s) then Some (bestMove, bestScore, s)
          else if (bestScore <? score)%float
          then rootLoop fuel player depth rest m score s
          else rootLoop fuel player depth rest bestMove bestScore s
      end
  end.

Definition findBestMove (fuel : nat) (player depth timeLimitMs : Z)
           (advancedEval : bool) (s : St) : option (Move * St) :=
  let '(t, s) := DateNow s in
  let s := setThis s (mkEngine 0 t timeLimitMs false advancedEval) in
  let moves := getOrderedMoves (board s) player 2 in
  match moves with
  | [] => Some (mkMove CENTER CENTER, s)
  | [m] => Some (move m, s)
  | first :: _ =>
      match probeMoves player (map move moves) s with
      | (Some m, s) => Some (m, s)
      | (None, s) =>
          let opp := opponent player in
          match probeMoves opp (map move moves) s with
          | (Some m, s) => Some (m, s)
          | (None, s) =>
              let topMoves :=
                slice0 (Nat.min (length moves) 20) moves in
              match rootLoop fuel player depth topMoves first (- INF)%float s with
              | None => None
              | Some (bestMove, _, s) => Some (move bestMove, s)
              end
          end
      end
  end.

(** One round of the deepening loop from the search of its root
    candidates on: the new best move, whether the loop goes on, the store. *)
Definition afterDepth (timeLimitMs : Z) (bestMove : option Move)
           (depthBestMove : Scored) (depthBestScore : float) (s : St)
  : option Move * bool * St :=
  let bestMove :=
    if negb (timedOut (this s)) then Some (move depthBestMove) else bestMove in
  if (WIN_SCORE <=? depthBestScore)%float then (bestMove, false, s)
  else
    let '(t, s) := DateNow s in
    if (float_of_Z timeLimitMs * 0.7 <? float_of_Z (t - startTime (this s)))%float
    then (bestMove, false, s)
    else (bestMove, true, s).

(** [for (let depth = ...; depth <= maxDepth; depth++)], with [rounds]
    values of [depth] left. *)
Fixpoint deepen (fuel : nat) (player timeLimitMs : Z) (moves : list Scored)
         (first : Scored) (rounds : nat) (depth : Z) (bestMove : option Move)
         (s : St) : option (option Move * St) :=
  match rounds with
  | O => Some (bestMove, s)
  | S rounds' =>
      let s := setThis s (mkEngine 0 (startTime (this s)) (timeLimit (this s))
                                   false (useAdvancedEval (this s))) in
      let topMoves := slice0 20 moves in
      match rootLoop fuel player depth topMoves first (- INF)%float s with
      | None => None
      | Some (depthBestMove, depthBestScore, s) =>
          match afterDepth timeLimitMs bestMove depthBestMove depthBestScore s with
          | (bestMove, false, s) => Some (bestMove, s)
          | (bestMove, true, s) =>
              deepen fuel player timeLimitMs moves first rounds' (depth + 1)
                     bestMove s
          end
      end
  end.

Definition findBestMoveIterative (fuel : nat) (player maxDepth timeLimitMs : Z)
           (advancedEval : bool) (s : St) : option (Move * St) :=
  let '(t, s) := DateNow s in
  let s := setThis s (mkEngine (nodesSearched (this s)) t timeLimitMs false
                               advancedEval) in
  let moves := getOrderedMoves (board s) player 2 in
  match moves with
  | [] => Some (mkMove CENTER CENTER, s)
  | first :: _ =>
      match probeMoves player (map move moves) s with
      | (Some m, s) => Some (m, s)
      | (None, s) =>
          let opp := opponent player in
          match probeMoves opp (map move moves) s with
          | (Some m, s) => Some (m, s)
          | (None, s) =>
              match deepen fuel player timeLimitMs moves first
                           (Z.to_nat maxDepth) 1 None s with
              | None => None
              | Some (Some bestMove, s) => Some (bestMove, s)
              | Some (None, s) => Some (move first, s)
              end
          end
      end
  end.

(** *** Difficulty strategies *)

(** The blocking scan of [easyMove]: a found block is returned only when
    [Math.random() < 0.7]. *)
Definition point7 : Q := 3152519739159347 # 4503599627370496.

Fixpoint easyBlock (opp : Z) (candidates : list Move) (s : St)
  : option Move * St :=
  match candidates with
  | [] => (None, s)
  | c :: rest =>
      let s := place s c opp in
      if checkWin (board s) opp then
        let s := place s c EMPTY in
        let '(r, s) := MathRandom s in
        if negb (Qle_bool point7 r) then (Some c, s)
        else easyBlock opp rest (place s c EMPTY)
      else easyBlock opp rest (place s c EMPTY)
  end.

(** [for (const c of weighted) { rand -= c.weight; if (rand <= 0) return
    { x: c.x, y: c.y }; }] *)
Fixpoint weightedPick (weighted : list (Move * Z)) (rand : Q) : option Move :=
  match weighted with
  | [] => None
  | (c, weight) :: rest =>
      let rand := (rand - inject_Z weight)%Q in
      if Qle_bool rand 0 then Some c else weightedPick rest rand
  end.

Definition easyMove (player : Z) (s : St) : Move * St :=
  let candidates := generateCandidates (board s) 1 in
  match candidates with
  | [] => (mkMove CENTER CENTER, s)
  | first :: _ =>
      match probeMoves player candidates s with
      | (Some c, s) => (c, s)
      | (None, s) =>
          let opp := opponent player in
          match easyBlock opp candidates s with
          | (Some c, s) => (c, s)
          | (None, s) =>
              let weighted :=
                map (fun c =>
                       let dist := Math_abs (x c - CENTER) + Math_abs (y c - CENTER) in
                       (c, Z.max 1 (15 - dist))) candidates in
              let totalWeight :=
                fold_left (fun sum cw => sum + snd cw) weighted 0 in
              let '(r, s) := MathRandom s in
              let rand := (r * inject_Z totalWeight)%Q in
              match weightedPick weighted rand with
              | Some c => (c, s)
              | None => (first, s)
              end
          end
      end
  end.

Definition mediumMove (fuel : nat) (player : Z) (s : St) : option (Move * St) :=
  findBestMove fuel player 2 1000 false (setThis s newEngine).

Definition hardMove (fuel : nat) (player : Z) (s : St) : option (Move * St) :=
  findBestMove fuel player 4 3000 true (setThis s newEngine).

(** [arr[Math.floor(Math.random() * arr.length)]]; [None] is [undefined]. *)
Definition randomElement (arr : list Move) (s : St) : option Move * St :=
  let '(r, s) := MathRandom s in
  let idx := Qfloor (r * inject_Z (Z.of_nat (length arr))) in
  ((if idx <? 0 then None else nth_error arr (Z.to_nat idx)), s).

(** An entry of the opening book yields a fixed [move], one of [moves],
    or what its [generator] makes. *)
Inductive BookOutcome : Type :=
| FixedMove (m : Move)
| AnyOf (ms : list Move)
| Generator (g : Z -> St -> option Move * St).

Record BookEntry : Type := mkEntry {
  condition : Board -> bool;
  outcome : BookOutcome
}.

Definition knightMoves : list Move :=
  [ mkMove (CENTER - 2) (CENTER - 1); mkMove (CENTER - 2) (CENTER + 1);
    mkMove (CENTER - 1) (CENTER - 2); mkMove (CENTER - 1) (CENTER + 2);
    mkMove (CENTER + 1) (CENTER - 2); mkMove (CENTER + 1) (CENTER + 2);
    mkMove (CENTER + 2) (CENTER - 1); mkMove (CENTER + 2) (CENTER + 1) ].

Definition OPENING_BOOK : list BookEntry :=
  [ mkEntry (fun board => countStones board =? 0)
            (FixedMove (mkMove CENTER CENTER));
    mkEntry (fun board => (countStones board =? 1)
                          && negb (cell board CENTER CENTER =? EMPTY))
            (AnyOf [ mkMove (CENTER - 1) (CENTER - 1);
                     mkMove (CENTER - 1) (CENTER + 1);
                     mkMove (CENTER + 1) (CENTER - 1);
                     mkMove (CENTER + 1) (CENTER + 1) ]);
    mkEntry (fun board => (countStones board =? 1)
                          && (cell board CENTER CENTER =? EMPTY))
            (FixedMove (mkMove CENTER CENTER));
    mkEntry (fun board => (countStones board =? 2)
                          && negb (cell board CENTER CENTER =? EMPTY))
            (Generator (fun player s =>
               let valid :=
                 filter (fun m => (x m >=? 0) && (x m <? BOARD_SIZE)
                                  && (y m >=? 0) && (y m <? BOARD_SIZE)
                                  && (cell (board s) (x m) (y m) =? EMPTY))
                        knightMoves in
               if (0 <? length valid)%nat then randomElement valid s
               else (None, s))) ].

(** The loop of [masterMove] over the book: [Some v] when it returned [v]
    ([v] itself may be [undefined]), [None] when it fell through. *)
Fixpoint consultBook (book : list BookEntry) (player : Z) (s : St)
  : option (option Move) * St :=
  match book with
  | [] => (None, s)
  | entry :: rest =>
      if condition entry (board s) then
        match outcome entry with
        | FixedMove m => (Some (Some m), s)
        | AnyOf ms =>
            let valid := filter (fun m => cell (board s) (x m) (y m) =? EMPTY) ms in
            if (0 <? length valid)%nat then
              let '(v, s) := randomElement valid s in (Some v, s)
            else consultBook rest player s
        | Generator g =>
            match g player s with
            | (Some m, s) => (Some (Some m), s)
            | (None, s) => consultBook rest player s
            end
        end
      else consultBook rest player s
  end.

Definition masterMove (fuel : nat) (player : Z) (s : St)
  : option (option Move * St) :=
  match consultBook OPENING_BOOK player s with
  | (Some v, s) => Some (v, s)
  | (None, s) =>
      match findBestMoveIterative fuel player 6 2000 true (setThis s newEngine) with
      | None => None
      | Some (m, s) => Some (Some m, s)
      end
  end.

(** *** The AI class *)

Record GomokuAI : Type := mkAI { difficulty : String.string }.

Definition levels : list String.string :=
  [ "easy"%string; "medium"%string; "hard"%string; "master"%string ].

Definition returned (r : option (Move * St)) : option (option Move * St) :=
  match r with
  | None => None
  | Some (m, s) => Some (Some m, s)
  end.

(** [getMove(board, player)], the board being [board s].  The value is
    the object returned ([None]: [undefined]). *)
Definition getMove (fuel : nat) (ai : GomokuAI) (player : Z) (s : St)
  : option (option Move * St) :=
  if (length (board s) =? 0)%nat then Some (Some (mkMove CENTER CENTER), s)
  else if String.eqb (difficulty ai) "easy" then
    let '(m, s) := easyMove player s in Some (Some m, s)
  else if String.eqb (difficulty ai) "medium" then returned (mediumMove fuel player s)
  else if String.eqb (difficulty ai) "hard" then returned (hardMove fuel player s)
  else if String.eqb (difficulty ai) "master" then masterMove fuel player s
  else returned (mediumMove fuel player s).

Definition setDifficulty (ai : GomokuAI) (level : String.string) : GomokuAI :=
  if existsb (String.eqb level) levels then mkAI level else ai.

End Oracles.

End AI.

(** ** game.js *)

Module GameEngine.
Import JS.

Definition DIRECTIONS : list (Z * Z) := [(1, 0); (0, 1); (1, 1); (1, -1)].

(** An entry of [moveHistory]. *)
Record HistoryEntry : Type := mkEntry {
  x : Z;
  y : Z;
  player : Z;
  moveNumber : Z
}.

(** The fields of a [GameEngine]. *)
Record State : Type := mkState {
  size : Z;
  board : list (list Z);
  currentPlayer : Z;
  moveHistory : list HistoryEntry;
  gameOver : bool;
  winner : Z;
  _winLine : option (list (Z * Z))
}.

(** [this.board[y][x]] *)
Definition cell (board : list (list Z)) (x y : Z) : Z :=
  nth (Z.to_nat x) (nth (Z.to_nat y) board []) (-1).

(** [this.board[y][x] = v] *)
Definition setCell (board : list (list Z)) (x y v : Z) : list (list Z) :=
  update (Z.to_nat y) (update (Z.to_nat x) (fun _ => v)) board.

Definition _createEmptyBoard (size : Z) : list (list Z) :=
  repeat (repeat 0 (Z.to_nat size)) (Z.to_nat size).

(** [reset()], which the constructor calls once [size] is set. *)
Definition reset (g : State) : State :=
  mkState (size g) (_createEmptyBoard (size g)) 1 [] false 0 None.

(** [new GameEngine(size)]; [None] is the [RangeError]. *)
Definition constructor (size : Z) : option State :=
  if size <? 5 then None
  else Some (reset (mkState size [] 0 [] false 0 None)).

(** [Number.isInteger] holds of every coordinate here. *)
Definition _inBounds (g : State) (x y : Z) : bool :=
  (x >=? 0) && (x <? size g) && (y >=? 0) && (y <? size g).

Definition isValidMove (g : State) (x y : Z) : bool :=
  _inBounds g x y && (cell (board g) x y =? 0).

(** One of the two scans of [_collectLine]:
    [for (let i = 1; ; i++) { if (!inBounds(p i) || board[p i] !== player)
    break; ... }], the cells it passes in the order it passes them.  The
    loop has no bound of its own; [fuel] counts its rounds. *)
Fixpoint scan (g : State) (player : Z) (p : Z -> Z * Z) (fuel : nat) (i : Z)
  : option (list (Z * Z)) :=
  match fuel with
  | O => None
  | S fuel' =>
      let '(nx, ny) := p i in
      if negb (_inBounds g nx ny) || negb (cell (board g) nx ny =? player)
      then Some []
      else match scan g player p fuel' (i + 1) with
           | None => None
           | Some cells => Some ((nx, ny) :: cells)
           end
  end.

Definition _collectLine (fuel : nat) (g : State) (x y dx dy player : Z)
  : option (list (Z * Z)) :=
  match scan g player (fun i => (x + dx * i, y + dy * i)) fuel 1 with
  | None => None
  | Some pushed =>
      match scan g player (fun i => (x - dx * i, y - dy * i)) fuel 1 with
      | None => None
      | Some unshifted => Some (rev unshifted ++ (x, y) :: pushed)
      end
  end.

Record WinResult : Type := mkWin { won : bool; line : option (list (Z * Z)) }.

Section Policy.

(** The static flag [GameEngine.ALLOW_OVERLINE]. *)
Variable ALLOW_OVERLINE : bool.

Fixpoint checkLines (fuel : nat) (g : State) (x y player : Z)
         (directions : list (Z * Z)) : option WinResult :=
  match directions with
  | [] => Some (mkWin false None)
  | (dx, dy) :: rest =>
      match _collectLine fuel g x y dx dy player with
      | None => None
      | Some line =>
          if ALLOW_OVERLINE then
            if (5 <=? length line)%nat
            then Some (mkWin true (Some (slice0 5 line)))
            else checkLines fuel g x y player rest
          else
            if (length line =? 5)%nat
            then Some (mkWin true (Some line))
            else checkLines fuel g x y player rest
      end
  end.

Definition checkWin (fuel : nat) (g : State) (x y player : Z) : option WinResult :=
  checkLines fuel g x y player DIRECTIONS.

Definition isBoardFull (g : State) : bool :=
  negb (existsb (fun '(y, x) => cell (board g) x y =? 0)
                (list_prod (range 0 (Z.to_nat (size g)))
                           (range 0 (Z.to_nat (size g))))).

(** What [placeStone] returns. *)
Record Placed : Type := mkPlaced {
  valid : bool;
  result_winner : option Z;
  result_winLine : option (list (Z * Z));
  reason : option String.string
}.

Definition placeStone (fuel : nat) (g : State) (x y : Z)
  : option (Placed * State) :=
  if gameOver g then
    Some (mkPlaced false None None (Some "Game is already over"%string), g)
  else if negb (isValidMove g x y) then
    if negb (_inBounds g x y) then
      Some (mkPlaced false None None (Some "Position out of bounds"%string), g)
    else
      Some (mkPlaced false None None (Some "Cell is already occupied"%string), g)
  else
    let player := currentPlayer g in
    let g := mkState (size g) (setCell (board g) x y player) (currentPlayer g)
                     (moveHistory g
                      ++ [mkEntry x y player (Z.of_nat (length (moveHistory g)) + 1)])
                     (gameOver g) (winner g) (_winLine g) in
    match checkWin fuel g x y player with
    | None => None
    | Some winResult =>
        if won winResult then
          Some (mkPlaced true (Some player) (line winResult) None,
                mkState (size g) (board g) (currentPlayer g) (moveHistory g)
                        true player (line winResult))
        else if isBoardFull g then
          Some (mkPlaced true (Some 3) None None,
                mkState (size g) (board g) (currentPlayer g) (moveHistory g)
                        true 3 (_winLine g))
        else
          Some (mkPlaced true (Some 0) None None,
                mkState (size g) (board g) (if player =? 1 then 2 else 1)
                        (moveHistory g) (gameOver g) (winner g) (_winLine g))
    end.

End Policy.

(** [undoMove()]: the entry popped ([None]: [null]) and the engine after. *)
Definition undoMove (g : State) : option HistoryEntry * State :=
  match rev (moveHistory g) with
  | [] => (None, g)
  | move :: earlier =>
      (Some move,
       mkState (size g) (setCell (board g) (x move) (y move) 0) (player move)
               (rev earlier) false 0 None)
  end.

(** The rounds a scan of [_collectLine] can need on a board of side [size]. *)
Definition rounds (g : State) : nat := S (Z.to_nat (size g)).

(** *** Serialization *)

(** [cloneBoard()]: a new array of new rows with the cells of the board. *)
Definition cloneBoard (g : State) : list (list Z) :=
  map (fun row => map (fun c => c) row) (board g).

(** The object [getState()] returns. *)
Module Snapshot.
Record t : Type := mk {
  size : Z;
  board : list (list Z);
  currentPlayer : Z;
  moveHistory : list HistoryEntry;
  gameOver : bool;
  winner : Z;
  winLine : option (list (Z * Z))
}.
End Snapshot.

(** [{ ...m }] and [{ ...c }] *)
Definition copyEntry (m : HistoryEntry) : HistoryEntry :=
  mkEntry (x m) (y m) (player m) (moveNumber m).

Definition copyCell (c : Z * Z) : Z * Z := (fst c, snd c).

Definition getState (g : State) : Snapshot.t :=
  Snapshot.mk (size g) (cloneBoard g) (currentPlayer g)
              (map copyEntry (moveHistory g)) (gameOver g) (winner g)
              (match _winLine g with
               | Some l => Some (map copyCell l)
               | None => None
               end).

(** [loadState(state)] on the engine [g], for a [state] that is a snapshot
    (the [TypeError] is for a value without a board array). *)
Definition loadState (g : State) (state : Snapshot.t) : State :=
  mkState (Snapshot.size state)
          (map (fun row => map (fun c => c) row) (Snapshot.board state))
          (Snapshot.currentPlayer state)
          (map copyEntry (Snapshot.moveHistory state))
          (Snapshot.gameOver state) (Snapshot.winner state)
          (match Snapshot.winLine state with
           | Some l => Some (map copyCell l)
           | None => None
           end).

(** *** AI helpers *)

(** The pairs [(y, x)] of the doubly nested loop over the board, in the
    order the loop visits them. *)
Definition gridCells (g : State) : list (Z * Z) :=
  list_prod (range 0 (Z.to_nat (size g))) (range 0 (Z.to_nat (size g))).

(** [getValidMoves()]: the moves pushed, as pairs [(x, y)]. *)
Definition getValidMoves (g : State) : list (Z * Z) :=
  fold_left (fun moves '(y, x) =>
               if cell (board g) x y =? 0 then moves ++ [(x, y)] else moves)
            (gridCells g) [].

(** The state of the loops of [getSmartMoves]. *)
Record Smart : Type := mkSmart {
  seen : list Z;
  moves : list (Z * Z);
  hasStones : bool
}.

(** The body of the two inner loops, at offset [(dy, dx)] from the stone
    [(x, y)]. *)
Definition consider (g : State) (x y : Z) (acc : Smart) (d : Z * Z) : Smart :=
  let '(dy, dx) := d in
  let nx := x + dx in
  let ny := y + dy in
  if negb (_inBounds g nx ny) then acc
  else if negb (cell (board g) nx ny =? 0) then acc
  else
    let key := ny * size g + nx in
    if existsb (Z.eqb key) (seen acc) then acc
    else mkSmart (key :: seen acc) (moves acc ++ [(nx, ny)]) (hasStones acc).

(** The pairs [(dy, dx)] of [for (let dy = -radius; dy <= radius; dy++)
    for (let dx = -radius; dx <= radius; dx++)]. *)
Definition neighbourhood (radius : Z) : list (Z * Z) :=
  list_prod (range (- radius) (Z.to_nat (2 * radius + 1)))
            (range (- radius) (Z.to_nat (2 * radius + 1))).

Definition smartCell (g : State) (radius : Z) (acc : Smart) (yx : Z * Z) : Smart :=
  let '(y, x) := yx in
  if negb (cell (board g) x y =? 0) then
    fold_left (consider g x y) (neighbourhood radius)
              (mkSmart (seen acc) (moves acc) true)
  else acc.

Definition getSmartMoves (g : State) (radius : Z) : list (Z * Z) :=
  let acc := fold_left (smartCell g radius) (gridCells g) (mkSmart [] [] false) in
  if negb (hasStones acc) then
    let c := size g / 2 in
    moves acc ++ [(c, c)]
  else moves acc.

End GameEngine.

(** *** The wrapper class [Game] *)

Module Game.
Import GameEngine.

Record t : Type := mk {
  _engine : State;
  _lastResult : option Placed
}.

Definition constructor (size : Z) : option t :=
  match GameEngine.constructor size with
  | None => None
  | Some engine => Some (mk engine None)
  end.

(** [player === 1 ? 'black' : 'white'] *)
Definition colour (player : Z) : String.string :=
  if player =? 1 then "black"%string else "white"%string.

Definition isOver (game : t) : bool := gameOver (_engine game).

Definition winner (game : t) : option String.string :=
  let w := GameEngine.winner (_engine game) in
  if w =? 1 then Some "black"%string
  else if w =? 2 then Some "white"%string
  else if w =? 3 then Some "draw"%string
  else None.

Definition currentPlayer (game : t) : String.string :=
  colour (GameEngine.currentPlayer (_engine game)).

(** An entry of the [moveHistory] getter. *)
Record Stone : Type := mkStone {
  x : Z;
  y : Z;
  color : String.string;
  moveNumber : Z
}.

Definition moveHistory (game : t) : list Stone :=
  map (fun m => mkStone (GameEngine.x m) (GameEngine.y m)
                        (colour (GameEngine.player m)) (GameEngine.moveNumber m))
      (GameEngine.moveHistory (_engine game)).

(** [makeMove(x, y)]: the colour placed ([None]: [null]) and the game after. *)
Definition makeMove (ALLOW_OVERLINE : bool) (fuel : nat) (game : t) (x y : Z)
  : option (option String.string * t) :=
  let player := GameEngine.currentPlayer (_engine game) in
  let color := colour player in
  match placeStone ALLOW_OVERLINE fuel (_engine game) x y with
  | None => None
  | Some (result, engine) =>
      if negb (valid result) then Some (None, mk engine (_lastResult game))
      else Some (Some color, mk engine (Some result))
  end.

Definition reset (game : t) : t := mk (GameEngine.reset (_engine game)) None.

(** [undo()]: the stone taken off as [(x, y, color)] ([None]: [null]). *)
Definition undo (game : t) : option (Z * Z * String.string) * t :=
  match undoMove (_engine game) with
  | (None, engine) => (None, mk engine (_lastResult game))
  | (Some move, engine) =>
      (Some (GameEngine.x move, GameEngine.y move, colour (GameEngine.player move)),
       mk engine None)
  end.

Definition isValidMove (game : t) (x y : Z) : bool :=
  GameEngine.isValidMove (_engine game) x y.

End Game.

(** ** What the specification says, in the terms of the program *)

Module Spec.
Import JS AI.

(** The cell [(i, j)] is on the board and holds a stone of [player]. *)
Definition owns (board : Board) (player i j : Z) : Prop :=
  inBounds i j = true /\ cell board i j = player.

Definition ownsb (board : Board) (player i j : Z) : bool :=
  inBounds i j && (cell board i j =? player).

(** Five stones of [player] in a row from [(i, j)] along [(dx, dy)]. *)
Definition fiveFrom (board : Board) (player i j dx dy : Z) : Prop :=
  forall k, 0 <= k < 5 -> owns board player (i + dx * k) (j + dy * k).


(** [player] has five or more contiguous stones on some axis. *)
Definition hasFive (board : Board) (player : Z) : Prop :=
  exists i j dx dy, In (dx, dy) DIRECTIONS /\ fiveFrom board player i j dx dy.



(** The number of empty cells of a board. *)
Definition emptyCount (board : Board) : nat :=
  length (filter (fun '(i, j) => cell board i j =? EMPTY) cells).

(** A move is legal on a board: a cell of the board that is empty. *)
Definition legal (board : Board) (m : Move) : Prop :=
  inBounds (x m) (y m) = true /\ cell board (x m) (y m) = EMPTY.

(** The pattern table of the move scorer, as its offensive term reads it:
    the weight of a line of [total] stones with [openEnds] open ends. *)
Definition patternWeight (total openEnds : Z) : Z :=
  if total >=? 5 then SCORES.FIVE
  else if total =? 4 then
    if openEnds =? 2 then SCORES.OPEN_FOUR
    else if openEnds =? 1 then SCORES.HALF_OPEN_FOUR else 0
  else if total =? 3 then
    if openEnds =? 2 then SCORES.OPEN_THREE
    else if openEnds =? 1 then SCORES.HALF_OPEN_THREE else 0
  else if total =? 2 then
    if openEnds =? 2 then SCORES.OPEN_TWO
    else if openEnds =? 1 then SCORES.HALF_OPEN_TWO else 0
  else 0.

(** The move scorer as the specification words it: on every axis the own
    line adds its pattern weight and the opponent's line adds 0.9 times the
    same lookup. *)
Definition scoreAxisAsClaimed (board : Board) (x y player opp : Z) (score : float)
           (d : Z * Z) : float :=
  let '(myTotal, myOpen) := lineThrough board player x y d in
  let score := (score + float_of_Z (patternWeight myTotal myOpen))%float in
  let '(oppTotal, oppOpen) := lineThrough board opp x y d in
  (score + float_of_Z (patternWeight oppTotal oppOpen) * 0.9)%float.

Definition scoreMoveQuickAsClaimed (board : Board) (x y player : Z) : float :=
  let opp := opponent player in
  let score := fold_left (scoreAxisAsClaimed board x y player opp) DIRECTIONS 0%float in
  (score + float_of_Z (centerBonus x y))%float.

(** The basic evaluator, as the specification words it.  A run starts at
    [(i, j)] along [(dx, dy)] when the cell holds a stone and the cell before
    it is off the board or holds another value. *)
Definition startsRun (board : Board) (dij : (Z * Z) * (Z * Z)) : bool :=
  let '((dx, dy), (i, j)) := dij in
  negb (cell board i j =? EMPTY)
  && negb (inBounds (i - dx) (j - dy)
           && (cell board (i - dx) (j - dy) =? cell board i j)).

(** The maximal runs of a board, each by its axis and its first cell. *)
Definition runs (board : Board) : list ((Z * Z) * (Z * Z)) :=
  filter (startsRun board) (list_prod DIRECTIONS cells).

Definition owner (board : Board) (dij : (Z * Z) * (Z * Z)) : Z :=
  cell board (fst (snd dij)) (snd (snd dij)).

(** An end of a run is open when the cell beyond it is on the board and empty. *)
Definition openEnd (board : Board) (i j : Z) : Z :=
  if inBounds i j && (cell board i j =? EMPTY) then 1 else 0.

(** The pattern table: the weight of a run by its length and open ends. *)
Definition tableWeight (len openEnds : Z) : Z :=
  if len >=? 5 then SCORES.FIVE
  else if openEnds =? 2 then
    if len =? 4 then SCORES.OPEN_FOUR
    else if len =? 3 then SCORES.OPEN_THREE
    else if len =? 2 then SCORES.OPEN_TWO
    else if len =? 1 then SCORES.OPEN_ONE
    else 0
  else if openEnds =? 1 then
    if len =? 4 then SCORES.HALF_OPEN_FOUR
    else if len =? 3 then SCORES.HALF_OPEN_THREE
    else if len =? 2 then SCORES.HALF_OPEN_TWO
    else 0
  else 0.

Definition runWeight (board : Board) (dij : (Z * Z) * (Z * Z)) : Z :=
  let '((dx, dy), (i, j)) := dij in
  let len := runLength board (cell board i j) i j dx dy in
  tableWeight len (openEnd board (i - dx) (j - dy)
                   + openEnd board (i + dx * len) (j + dy * len)).

Definition sumZ (l : list Z) : Z := fold_right Z.add 0 l.

(** The pattern weights of the runs of [who], summed. *)
Definition patternTotal (board : Board) (who : Z) : Z :=
  sumZ (map (runWeight board)
            (filter (fun dij => owner board dij =? who) (runs board))).

(** The center-proximity bonus of the stones of [who], summed. *)
Definition centerTotal (board : Board) (who : Z) : Z :=
  sumZ (map (fun '(i, j) => Z.max 0 (7 - (Z.abs (i - 7) + Z.abs (j - 7))))
            (filter (fun '(i, j) => cell board i j =? who) cells)).

(** What the loops of [generateCandidates] keep true of their state: every
    candidate is a legal move, and every key seen is the key of a candidate. *)
Definition candidatesKept (board : Board) (acc : Candidates) : Prop :=
  (forall m, In m (candidates acc) -> legal board m)
  /\ (forall key, In key (visited acc) ->
        exists ni nj, inBounds ni nj = true /\ key = ni * BOARD_SIZE + nj
                      /\ In (mkMove ni nj) (candidates acc)).

(** The cell [(i, j)] holds a stone, and [m] is within [radius] of it. *)
Definition near (board : Board) (radius : Z) (m : Move) (i j : Z) : Prop :=
  inBounds i j = true /\ cell board i j <> EMPTY
  /\ Z.abs (x m - i) <= radius /\ Z.abs (y m - j) <= radius.

(** What the loops of [generateCandidates] keep true besides: no candidate
    is there twice, the key of every candidate has been seen, and every
    candidate is within [radius] of a stone. *)
Definition candidatesNear (board : Board) (radius : Z) (acc : Candidates) : Prop :=
  NoDup (candidates acc)
  /\ (forall m, In m (candidates acc) ->
                In (x m * BOARD_SIZE + y m) (visited acc)
                /\ exists i j, near board radius m i j).

(** A call returns, and the board it leaves is the board it found. *)
Definition restores {A : Type} (r : option (A * St)) (s : St) : Prop :=
  exists a s', r = Some (a, s') /\ board s' = board s.

(** The board after a stone of [who] on the cell of [m]. *)
Definition after (board : Board) (m : Move) (who : Z) : Board :=
  setCell board (x m) (y m) who.

(** What a driver of the search answers on a board: a candidate of radius 2
    (the center when there is none), and one that makes five for [player]
    whenever a candidate does. *)
Definition answers (board : Board) (player : Z) (m : Move) : Prop :=
  (In m (generateCandidates board 2)
   \/ (generateCandidates board 2 = [] /\ m = mkMove CENTER CENTER))
  /\ ((exists c, In c (generateCandidates board 2)
                 /\ checkWin (after board c player) player = true) ->
      checkWin (after board m player) player = true).


(** A stone of [player] on the cell of [w] completes five in a row: some
    five cells in a row on the board contain the cell of [w] and otherwise
    only stones of [player]. *)
Definition completesFive (board : Board) (player : Z) (w : Move) : Prop :=
  exists i j dx dy,
    In (dx, dy) DIRECTIONS
    /\ (exists k, 0 <= k < 5 /\ x w = i + dx * k /\ y w = j + dy * k)
    /\ forall k, 0 <= k < 5 ->
                 inBounds (i + dx * k) (j + dy * k) = true
                 /\ ((i + dx * k = x w /\ j + dy * k = y w)
                     \/ cell board (i + dx * k) (j + dy * k) = player).



(** The iterative-deepening driver as the specification words it.  One
    search of the root candidates at one depth leaves an outcome: the depth,
    the best root move, its score, and whether the search ran to its end
    without timing out. *)
Record DepthOutcome : Type := mkOutcome {
  searched : Z;
  found : Move;
  foundScore : float;
  completed : bool
}.

(** The outcomes of the depths the driver searches from the store [s] on, in
    the order it searches them: it stops after a depth whose score reaches
    the winning threshold, or once 70% of the time budget is spent. *)
Fixpoint depthsSearched (now : nat -> Z) (fuel : nat) (player timeLimitMs : Z)
         (moves : list Scored) (first : Scored) (rounds : nat) (depth : Z) (s : St)
  : option (list DepthOutcome) :=
  match rounds with
  | O => Some []
  | S rounds' =>
      let s := setThis s (mkEngine 0 (startTime (this s)) (timeLimit (this s))
                                   false (useAdvancedEval (this s))) in
      match rootLoop now fuel player depth (slice0 20 moves) first (- INF)%float s with
      | None => None
      | Some (best, score, s) =>
          let o := mkOutcome depth (move best) score (negb (timedOut (this s))) in
          if (WIN_SCORE <=? score)%float then Some [o]
          else
            let '(t, s) := DateNow now s in
            if (float_of_Z timeLimitMs * 0.7 <? float_of_Z (t - startTime (this s)))%float
            then Some [o]
            else match depthsSearched now fuel player timeLimitMs moves first
                                      rounds' (depth + 1) s with
                 | None => None
                 | Some later => Some (o :: later)
                 end
      end
  end.

(** Of two outcomes the deeper completed one. *)
Definition deeper (acc : option DepthOutcome) (o : DepthOutcome) : option DepthOutcome :=
  if completed o then
    match acc with
    | Some a => if searched a <? searched o then Some o else acc
    | None => Some o
    end
  else acc.

(** The outcome of the deepest depth that completed, if any did. *)
Definition deepestCompleted (outcomes : list DepthOutcome) : option DepthOutcome :=
  fold_left deeper outcomes None.

(** What the claim says [findBestMoveIterative] returns: the best root move
    of the deepest completed depth, else the first ordered root candidate
    (the center when there is no candidate at all). *)
Definition iterativeAsClaimed (now : nat -> Z) (fuel : nat)
           (player maxDepth timeLimitMs : Z) (advancedEval : bool) (s : St)
  : option Move :=
  let '(t, s) := DateNow now s in
  let s := setThis s (mkEngine (nodesSearched (this s)) t timeLimitMs false
                               advancedEval) in
  let moves := getOrderedMoves (board s) player 2 in
  match moves with
  | [] => Some (mkMove CENTER CENTER)
  | first :: _ =>
      match depthsSearched now fuel player timeLimitMs moves first
                           (Z.to_nat maxDepth) 1 s with
      | None => None
      | Some outcomes =>
          match deepestCompleted outcomes with
          | Some o => Some (found o)
          | None => Some (move first)
          end
      end
  end.

(** The game engine's side.  The cell [(x, y)] is on the board of [g] and
    holds a stone of [player]. *)
Definition holds (g : GameEngine.State) (player x y : Z) : Prop :=
  GameEngine._inBounds g x y = true
  /\ GameEngine.cell (GameEngine.board g) x y = player.

Definition holdsb (g : GameEngine.State) (player x y : Z) : bool :=
  GameEngine._inBounds g x y
  && (GameEngine.cell (GameEngine.board g) x y =? player).

(** From [(x, y)] along [(dx, dy)], exactly the next [a] cells hold stones
    of [player]: the cell after them does not. *)
Definition extends (g : GameEngine.State) (player x y dx dy a : Z) : Prop :=
  0 <= a
  /\ (forall k, 1 <= k <= a -> holds g player (x + dx * k) (y + dy * k))
  /\ ~ holds g player (x + dx * (a + 1)) (y + dy * (a + 1)).

(** The contiguous run of [player] through [(x, y)] on the axis [(dx, dy)],
    the cell [(x, y)] counted, has [n] stones. *)
Definition runThrough (g : GameEngine.State) (player x y dx dy : Z) (n : Z) : Prop :=
  exists a b,
    extends g player x y dx dy a /\ extends g player x y (- dx) (- dy) b
    /\ n = a + b + 1.

(** A state of the game engine as its constructor and methods keep it. *)
Definition sound (g : GameEngine.State) : Prop :=
  0 <= GameEngine.size g
  /\ length (GameEngine.board g) = Z.to_nat (GameEngine.size g)
  /\ Forall (fun row => length row = Z.to_nat (GameEngine.size g))
            (GameEngine.board g)
  /\ (GameEngine.gameOver g = false ->
      GameEngine.winner g = 0 /\ GameEngine._winLine g = None).

(** A direction of a line scan: a unit step that moves. *)
Definition unitStep (dx dy : Z) : Prop :=
  -1 <= dx <= 1 /\ -1 <= dy <= 1 /\ (dx <> 0 \/ dy <> 0).

(** The length a line must have to win under the policy. *)
Definition winningLength (ALLOW_OVERLINE : bool) (n : Z) : Prop :=
  if ALLOW_OVERLINE then 5 <= n else n = 5.

(** The states of a game engine that a program reaches through the
    constructor and the methods, whatever the overline flag is at each call. *)
Inductive reachable : GameEngine.State -> Prop :=
| reach_new size g :
    GameEngine.constructor size = Some g -> reachable g
| reach_reset g :
    reachable g -> reachable (GameEngine.reset g)
| reach_place allow g x y r g' :
    reachable g ->
    GameEngine.placeStone allow (GameEngine.rounds g) g x y = Some (r, g') ->
    reachable g'
| reach_undo g m g' :
    reachable g -> GameEngine.undoMove g = (m, g') -> reachable g'.

(** The history and the board of a game engine agree: the side is at least
    5, the moves are numbered from 1, black and white alternate from black
    on, every entry's cell holds its player's stone, no cell is played
    twice, and every stone on the board is a move of the history. *)
Definition recorded (g : GameEngine.State) : Prop :=
  5 <= GameEngine.size g
  /\ (forall k e, nth_error (GameEngine.moveHistory g) k = Some e ->
        GameEngine.moveNumber e = Z.of_nat k + 1
        /\ GameEngine.player e = (if Nat.even k then 1 else 2)
        /\ holds g (GameEngine.player e) (GameEngine.x e) (GameEngine.y e))
  /\ NoDup (map (fun e => (GameEngine.x e, GameEngine.y e)) (GameEngine.moveHistory g))
  /\ (forall x y, GameEngine._inBounds g x y = true ->
        GameEngine.cell (GameEngine.board g) x y <> 0 ->
        exists e, In e (GameEngine.moveHistory g)
                  /\ GameEngine.x e = x /\ GameEngine.y e = y).

(** A game as the engine keeps it: history and board agree; while the game
    goes on the player to move is the one whose turn it is and some cell is
    free; once it is over the winner is the player of the last move, or 3
    for a draw. *)
Definition played (g : GameEngine.State) : Prop :=
  recorded g
  /\ (if GameEngine.gameOver g
      then exists earlier e,
             GameEngine.moveHistory g = earlier ++ [e]
             /\ (GameEngine.winner g = GameEngine.player e \/ GameEngine.winner g = 3)
      else GameEngine.currentPlayer g
           = (if Nat.even (length (GameEngine.moveHistory g)) then 1 else 2)
           /\ exists x y, GameEngine.isValidMove g x y = true).

(** The square neighbourhood: the cell [(sx, sy)] of the board holds a
    stone, and [(x, y)] is within [radius] of it on both axes. *)
Definition beside (g : GameEngine.State) (radius x y sx sy : Z) : Prop :=
  GameEngine._inBounds g sx sy = true
  /\ GameEngine.cell (GameEngine.board g) sx sy <> 0
  /\ Z.abs (x - sx) <= radius /\ Z.abs (y - sy) <= radius.

(** What the loops of [getSmartMoves] keep true of their state: every move
    is a free cell of the board beside a stone, no move is there twice, and
    the keys seen are the keys of the moves. *)
Definition smartKept (g : GameEngine.State) (radius : Z) (acc : GameEngine.Smart)
  : Prop :=
  (forall x y, In (x, y) (GameEngine.moves acc) ->
               GameEngine.isValidMove g x y = true
               /\ exists sx sy, beside g radius x y sx sy)
  /\ NoDup (GameEngine.moves acc)
  /\ (forall key, In key (GameEngine.seen acc) <->
                  exists x y, In (x, y) (GameEngine.moves acc)
                              /\ key = y * GameEngine.size g + x).

(** [undoMove()] called [n] times. *)
Fixpoint undoTimes (n : nat) (g : GameEngine.State) : GameEngine.State :=
  match n with
  | O => g
  | S n' => undoTimes n' (snd (GameEngine.undoMove g))
  end.


End Spec.

(** ** Sample positions *)

Module Positions.
Import JS AI.

(** The board [base] with the stones [(i, j, v)] put on it. *)
Definition stones (base : Board) (l : list (Z * Z * Z)) : Board :=
  fold_left (fun b '(i, j, v) => setCell b i j v) l base.


(** Three white stones in a row with both ends open. *)
Definition openThree : Board :=
  stones emptyBoard [(5, 5, WHITE); (5, 6, WHITE); (5, 7, WHITE)].

(** Two white stones in a row with both ends open. *)
Definition openTwo : Board :=
  stones emptyBoard [(5, 5, WHITE); (5, 6, WHITE)].

(** Four black stones in a row, both ends open, as in the scenario of the
    specification. *)
Definition blackFour : Board :=
  stones emptyBoard [(7, 5, BLACK); (7, 6, BLACK); (7, 7, BLACK); (7, 8, BLACK)].

(** White is one stone from five on a line black has closed at one end,
    and black has three in a row with both ends open. *)
Definition mustBlock : Board :=
  stones emptyBoard
         [(5, 4, BLACK); (5, 5, WHITE); (5, 6, WHITE); (5, 7, WHITE); (5, 8, WHITE);
          (9, 5, BLACK); (9, 6, BLACK); (9, 7, BLACK)].

(** Oracles of a run in which no time passes and every draw is one half. *)
Definition frozen : nat -> Z := fun _ => 0.
Definition half : nat -> Q := fun _ => (1 # 2)%Q.

Definition start (b : Board) : St := mkSt b newEngine 0 0.

(** A fresh game on the standard board. *)
Definition freshGame : GameEngine.State :=
  GameEngine.reset (GameEngine.mkState 15 [] 0 [] false 0 None).

(** The engine after the moves [l] are placed, one after the other, on a
    fresh game (a move the engine rejects changes nothing). *)
Definition afterMoves (l : list (Z * Z)) : GameEngine.State :=
  fold_left (fun g '(x, y) =>
               match GameEngine.placeStone false (GameEngine.rounds g) g x y with
               | Some (_, g') => g'
               | None => g
               end)
            l freshGame.

(** Black has played (7, 7) and white (8, 8). *)
Definition twoMoves : GameEngine.State := afterMoves [(7, 7); (8, 8)].

(** Black, to move, has four in a row on the line y = 7 and makes five at
    (7, 7). *)
Definition blackToWin : GameEngine.State :=
  afterMoves [(3, 7); (3, 8); (4, 7); (4, 8); (5, 7); (5, 8); (6, 7); (6, 8)].

End Positions.

(** * Proofs *)

Import JS.

(** ** Ranges, cells and boards *)

Lemma In_range (lo : Z) (n : nat) (z : Z) :
  In z (range lo n) <-> lo <= z < lo + Z.of_nat n.
Proof.
  unfold range. rewrite in_map_iff. split.
  - intros (k & <- & Hk). apply in_seq in Hk. lia.
  - intros H. exists (Z.to_nat (z - lo)). split; [lia|].
    apply in_seq. lia.
Qed.

Lemma In_indices (i : Z) : In i AI.indices <-> 0 <= i < 15.
Proof. unfold AI.indices. rewrite In_range. reflexivity. Qed.

Lemma inBounds_iff (i j : Z) :
  AI.inBounds i j = true <-> 0 <= i < 15 /\ 0 <= j < 15.
Proof. unfold AI.inBounds, AI.BOARD_SIZE. lia. Qed.

Lemma In_cells (i j : Z) : In (i, j) AI.cells <-> AI.inBounds i j = true.
Proof.
  unfold AI.cells. rewrite in_prod_iff, !In_indices, inBounds_iff. reflexivity.
Qed.

Lemma countRun_le board player p n k c :
  c <= AI.countRun board player p n k c <= c + Z.of_nat n.
Proof.
  revert k c. induction n as [|n IH]; intros k c; cbn [AI.countRun]; [lia|].
  destruct (p k) as [ni nj].
  destruct (AI.inBounds ni nj && (AI.cell board ni nj =? player)); [|lia].
  specialize (IH (k + 1) (c + 1)). lia.
Qed.

Lemma countRun_full board player p n k c :
  AI.countRun board player p n k c = c + Z.of_nat n <->
  forall t, k <= t < k + Z.of_nat n ->
            Spec.ownsb board player (fst (p t)) (snd (p t)) = true.
Proof.
  revert k c. induction n as [|n IH]; intros k c; cbn [AI.countRun].
  - split; [intros _ t Ht; lia | intros _; lia].
  - destruct (p k) as [ni nj] eqn:Hp.
    destruct (AI.inBounds ni nj && (AI.cell board ni nj =? player)) eqn:Hown.
    + replace (c + Z.of_nat (S n)) with (c + 1 + Z.of_nat n) by lia.
      rewrite (IH (k + 1) (c + 1)). split.
      * intros H t Ht. destruct (Z.eq_dec t k) as [->|Hne].
        -- rewrite Hp. exact Hown.
        -- apply H. lia.
      * intros H t Ht. apply H. lia.
    + split; [lia|].
      intros H. specialize (H k ltac:(lia)). rewrite Hp in H.
      unfold Spec.ownsb in H. cbn [fst snd] in H. congruence.
Qed.

Lemma ownsb_iff board player i j :
  Spec.ownsb board player i j = true <-> Spec.owns board player i j.
Proof. unfold Spec.ownsb, Spec.owns. rewrite andb_true_iff, Z.eqb_eq. reflexivity. Qed.


(** The inner loop of [checkWin] counts to five exactly on five in a row. *)
Lemma checkWin_count board player i j dx dy :
  Spec.owns board player i j ->
  ((AI.countRun board player (fun k => (i + dx * k, j + dy * k)) 4 1 1 >=? 5) = true
   <-> Spec.fiveFrom board player i j dx dy).
Proof.
  intros Hown.
  pose proof (countRun_le board player (fun k => (i + dx * k, j + dy * k)) 4 1 1) as Hle.
  pose proof (countRun_full board player (fun k => (i + dx * k, j + dy * k)) 4 1 1) as Hfull.
  cbn [fst snd] in Hfull. split.
  - intros H. assert (Hc : AI.countRun board player
                  (fun k => (i + dx * k, j + dy * k)) 4 1 1 = 1 + Z.of_nat 4) by lia.
    intros k Hk. destruct (Z.eq_dec k 0) as [->|Hk0].
    + replace (i + dx * 0) with i by lia. replace (j + dy * 0) with j by lia. exact Hown.
    + apply ownsb_iff. apply (proj1 Hfull Hc). lia.
  - intros H. assert (Hc : AI.countRun board player
                  (fun k => (i + dx * k, j + dy * k)) 4 1 1 = 1 + Z.of_nat 4).
    { apply Hfull. intros t Ht. apply ownsb_iff, H. lia. }
    lia.
Qed.

Lemma checkWin_iff board player :
  AI.checkWin board player = true <-> Spec.hasFive board player.
Proof.
  unfold AI.checkWin, Spec.hasFive. rewrite existsb_exists. split.
  - intros ([i j] & Hin & H). apply In_cells in Hin.
    destruct (AI.cell board i j =? player) eqn:Hc; cbn [negb] in H; [|discriminate].
    apply Z.eqb_eq in Hc. apply existsb_exists in H. destruct H as ([dx dy] & Hd & H).
    exists i, j, dx, dy. split; [exact Hd|].
    apply checkWin_count; [split; assumption | exact H].
  - intros (i & j & dx & dy & Hd & H).
    assert (Hown : Spec.owns board player i j).
    { specialize (H 0 ltac:(lia)). replace (i + dx * 0) with i in H by lia.
      replace (j + dy * 0) with j in H by lia. exact H. }
    exists (i, j). split; [apply In_cells, Hown|].
    destruct Hown as [Hb Hc]. rewrite Hc, Z.eqb_refl. cbn [negb].
    apply existsb_exists. exists (dx, dy). split; [exact Hd|].
    apply checkWin_count; [split; assumption | exact H].
Qed.


(** ** The win check of the game engine *)

Lemma holdsb_iff g player x y :
  Spec.holdsb g player x y = true <-> Spec.holds g player x y.
Proof. unfold Spec.holdsb, Spec.holds. rewrite andb_true_iff, Z.eqb_eq. reflexivity. Qed.

Lemma DIRECTIONS_unit dx dy : In (dx, dy) GameEngine.DIRECTIONS -> Spec.unitStep dx dy.
Proof.
  unfold Spec.unitStep. cbn. intros [H|[H|[H|[H|[]]]]]; inversion H; subst; lia.
Qed.

Lemma scan_length g player p fuel i cells :
  GameEngine.scan g player p fuel i = Some cells ->
  (forall k, i <= k < i + Z.of_nat (length cells) ->
             Spec.holds g player (fst (p k)) (snd (p k)))
  /\ ~ Spec.holds g player (fst (p (i + Z.of_nat (length cells))))
                           (snd (p (i + Z.of_nat (length cells)))).
Proof.
  revert i cells. induction fuel as [|fuel IH]; intros i cells; cbn [GameEngine.scan].
  - discriminate.
  - destruct (p i) as [nx ny] eqn:Hp.
    destruct (negb (GameEngine._inBounds g nx ny)
              || negb (GameEngine.cell (GameEngine.board g) nx ny =? player)) eqn:Hstop.
    + intros [= <-]. cbn [length]. split; [intros k Hk; lia|].
      replace (i + Z.of_nat 0) with i by lia. rewrite Hp. cbn [fst snd].
      intros Hh. apply holdsb_iff in Hh. unfold Spec.holdsb in Hh.
      apply andb_true_iff in Hh. destruct Hh as [Hb Hc]. rewrite Hb, Hc in Hstop.
      discriminate.
    + destruct (GameEngine.scan g player p fuel (i + 1)) as [rest|] eqn:Hrest;
        [|discriminate].
      intros [= <-]. destruct (IH _ _ Hrest) as [Hall Hend]. cbn [length]. split.
      * intros k Hk. destruct (Z.eq_dec k i) as [->|Hne].
        -- rewrite Hp. cbn [fst snd]. apply holdsb_iff. unfold Spec.holdsb.
           apply orb_false_iff in Hstop. destruct Hstop as [Hb Hc].
           apply negb_false_iff in Hb, Hc. rewrite Hb, Hc. reflexivity.
        -- apply Hall. lia.
      * replace (i + Z.of_nat (S (length rest)))
          with (i + 1 + Z.of_nat (length rest)) by lia. exact Hend.
Qed.

(** A scan from a cell of the board ends within [size] rounds. *)
Lemma scan_total g player x y dx dy fuel i :
  GameEngine._inBounds g x y = true -> Spec.unitStep dx dy ->
  1 <= i -> GameEngine.size g <= Z.of_nat fuel + i - 1 -> (1 <= fuel)%nat ->
  exists cells,
    GameEngine.scan g player (fun i => (x + dx * i, y + dy * i)) fuel i = Some cells.
Proof.
  intros Hxy Hd. revert i. induction fuel as [|fuel IH]; intros i Hi Hsize Hfuel; [lia|].
  cbn [GameEngine.scan].
  destruct (negb (GameEngine._inBounds g (x + dx * i) (y + dy * i))
            || negb (GameEngine.cell (GameEngine.board g) (x + dx * i) (y + dy * i)
                     =? player)) eqn:Hstop.
  - eexists. reflexivity.
  - apply orb_false_iff in Hstop. destruct Hstop as [Hb _].
    apply negb_false_iff in Hb. unfold GameEngine._inBounds in Hxy, Hb.
    assert (i < GameEngine.size g) by (unfold Spec.unitStep in Hd; nia).
    destruct (IH (i + 1)) as [cells Hcells]; try lia.
    rewrite Hcells. eexists. reflexivity.
Qed.

Lemma extends_unique g player x y dx dy a a' :
  Spec.extends g player x y dx dy a -> Spec.extends g player x y dx dy a' -> a = a'.
Proof.
  intros (Ha & Hall & Hend) (Ha' & Hall' & Hend').
  destruct (Z.lt_trichotomy a a') as [Hlt|[Heq|Hgt]]; [|exact Heq|].
  - exfalso. apply Hend, Hall'. lia.
  - exfalso. apply Hend', Hall. lia.
Qed.

Lemma scan_extends g player x y dx dy fuel cells :
  GameEngine.scan g player (fun i => (x + dx * i, y + dy * i)) fuel 1 = Some cells ->
  Spec.extends g player x y dx dy (Z.of_nat (length cells)).
Proof.
  intros H. apply scan_length in H. cbn [fst snd] in H. destruct H as [Hall Hend].
  split; [lia|]. split.
  - intros k Hk. apply Hall. lia.
  - replace (Z.of_nat (length cells) + 1) with (1 + Z.of_nat (length cells)) by lia.
    exact Hend.
Qed.

Lemma scan_back g player x y dx dy fuel :
  GameEngine.scan g player (fun i => (x - dx * i, y - dy * i)) fuel 1
  = GameEngine.scan g player (fun i => (x + - dx * i, y + - dy * i)) fuel 1.
Proof.
  generalize 1. induction fuel as [|fuel IH]; intros i; cbn [GameEngine.scan]; [reflexivity|].
  replace (x + - dx * i) with (x - dx * i) by lia.
  replace (y + - dy * i) with (y - dy * i) by lia.
  rewrite IH. reflexivity.
Qed.

(** [_collectLine] returns, and what it returns is as long as the run. *)
Lemma collectLine_spec g x y dx dy player fuel :
  GameEngine._inBounds g x y = true -> Spec.unitStep dx dy ->
  (GameEngine.rounds g <= fuel)%nat ->
  exists line,
    GameEngine._collectLine fuel g x y dx dy player = Some line
    /\ Spec.runThrough g player x y dx dy (Z.of_nat (length line)).
Proof.
  intros Hxy Hd Hfuel. unfold GameEngine.rounds in Hfuel.
  assert (Hsize : 0 <= GameEngine.size g)
    by (unfold GameEngine._inBounds in Hxy; lia).
  unfold GameEngine._collectLine.
  destruct (scan_total g player x y dx dy fuel 1 Hxy Hd) as [pushed Hp]; try lia.
  assert (Hd' : Spec.unitStep (- dx) (- dy)) by (unfold Spec.unitStep in *; lia).
  destruct (scan_total g player x y (- dx) (- dy) fuel 1 Hxy Hd') as [unshifted Hu];
    try lia.
  rewrite Hp, scan_back, Hu. eexists. split; [reflexivity|].
  exists (Z.of_nat (length pushed)), (Z.of_nat (length unshifted)).
  split; [eapply scan_extends; eassumption|].
  split; [eapply scan_extends; eassumption|].
  rewrite length_app, length_rev. cbn [length]. lia.
Qed.

Lemma runThrough_unique g player x y dx dy n n' :
  Spec.runThrough g player x y dx dy n -> Spec.runThrough g player x y dx dy n' -> n = n'.
Proof.
  intros (a & b & Ha & Hb & ->) (a' & b' & Ha' & Hb' & ->).
  rewrite (extends_unique _ _ _ _ _ _ _ _ Ha Ha'), (extends_unique _ _ _ _ _ _ _ _ Hb Hb').
  reflexivity.
Qed.

Lemma checkLines_spec allow g x y player fuel directions :
  GameEngine._inBounds g x y = true ->
  (forall dx dy, In (dx, dy) directions -> Spec.unitStep dx dy) ->
  (GameEngine.rounds g <= fuel)%nat ->
  exists r,
    GameEngine.checkLines allow fuel g x y player directions = Some r
    /\ (GameEngine.won r = true <->
        exists dx dy n, In (dx, dy) directions
                        /\ Spec.runThrough g player x y dx dy n
                        /\ Spec.winningLength allow n).
Proof.
  intros Hxy Hdirs Hfuel. induction directions as [|[dx dy] rest IH];
    cbn [GameEngine.checkLines].
  - eexists. split; [reflexivity|]. cbn. split; [discriminate|].
    intros (? & ? & ? & [] & _).
  - destruct (collectLine_spec g x y dx dy player fuel Hxy
                (Hdirs dx dy (or_introl eq_refl)) Hfuel) as (line & Hline & Hrun).
    rewrite Hline.
    destruct IH as (r & Hr & Hiff); [intros; apply Hdirs; right; assumption|].
    assert (Hhere : forall n, Spec.runThrough g player x y dx dy n ->
                              n = Z.of_nat (length line)).
    { intros n Hn. eapply runThrough_unique; eassumption. }
    destruct allow.
    + destruct (5 <=? length line)%nat eqn:Hlen.
      * eexists. split; [reflexivity|]. cbn [GameEngine.won]. split; [|reflexivity].
        intros _. exists dx, dy, (Z.of_nat (length line)).
        split; [left; reflexivity|]. split; [exact Hrun|].
        apply Nat.leb_le in Hlen. cbn. lia.
      * exists r. split; [exact Hr|]. rewrite Hiff. apply Nat.leb_gt in Hlen. split.
        -- intros (dx' & dy' & n & Hin & Hn & Hw). exists dx', dy', n.
           split; [right; exact Hin|]. split; assumption.
        -- intros (dx' & dy' & n & [Heq|Hin] & Hn & Hw).
           ++ inversion Heq; subst. apply Hhere in Hn. cbn in Hw. lia.
           ++ exists dx', dy', n. split; [exact Hin|]. split; assumption.
    + destruct (length line =? 5)%nat eqn:Hlen.
      * eexists. split; [reflexivity|]. cbn [GameEngine.won]. split; [|reflexivity].
        intros _. exists dx, dy, (Z.of_nat (length line)).
        split; [left; reflexivity|]. split; [exact Hrun|].
        apply Nat.eqb_eq in Hlen. cbn. lia.
      * exists r. split; [exact Hr|]. rewrite Hiff. apply Nat.eqb_neq in Hlen. split.
        -- intros (dx' & dy' & n & Hin & Hn & Hw). exists dx', dy', n.
           split; [right; exact Hin|]. split; assumption.
        -- intros (dx' & dy' & n & [Heq|Hin] & Hn & Hw).
           ++ inversion Heq; subst. apply Hhere in Hn. cbn in Hw. lia.
           ++ exists dx', dy', n. split; [exact Hin|]. split; assumption.
Qed.

Lemma game_checkWin_spec allow g x y player fuel :
  GameEngine._inBounds g x y = true -> (GameEngine.rounds g <= fuel)%nat ->
  exists r,
    GameEngine.checkWin allow fuel g x y player = Some r
    /\ (GameEngine.won r = true <->
        exists dx dy n, In (dx, dy) GameEngine.DIRECTIONS
                        /\ Spec.runThrough g player x y dx dy n
                        /\ Spec.winningLength allow n).
Proof.
  intros Hxy Hfuel. apply checkLines_spec; try assumption.
  intros dx dy. apply DIRECTIONS_unit.
Qed.

(** ** Writing a cell and writing it back *)

Lemma update_length {A} n (f : A -> A) l : length (update n f l) = length l.
Proof.
  revert n. induction l as [|a l IH]; intros [|n]; cbn; try reflexivity.
  rewrite IH. reflexivity.
Qed.

Lemma update_update {A} n (f g : A -> A) l :
  update n f (update n g l) = update n (fun a => f (g a)) l.
Proof.
  revert n. induction l as [|a l IH]; intros [|n]; cbn; try reflexivity.
  rewrite IH. reflexivity.
Qed.

Lemma update_ext {A} n (f g : A -> A) l :
  (forall a, f a = g a) -> update n f l = update n g l.
Proof.
  intros H. revert n. induction l as [|a l IH]; intros [|n]; cbn; try reflexivity.
  - rewrite H. reflexivity.
  - rewrite IH. reflexivity.
Qed.

Lemma update_same {A} n (f : A -> A) l d :
  f (nth n l d) = nth n l d -> update n f l = l.
Proof.
  revert n. induction l as [|a l IH]; intros [|n] H; cbn in *; try reflexivity.
  - rewrite H. reflexivity.
  - rewrite IH by exact H. reflexivity.
Qed.

Lemma nth_update_eq {A} n (f : A -> A) l d :
  (n < length l)%nat -> nth n (update n f l) d = f (nth n l d).
Proof.
  revert n. induction l as [|a l IH]; intros [|n] H; cbn in *; try lia.
  - reflexivity.
  - apply IH. lia.
Qed.

Lemma nth_update_ne {A} n m (f : A -> A) l d :
  n <> m -> nth m (update n f l) d = nth m l d.
Proof.
  revert n m. induction l as [|a l IH]; intros [|n] [|m] H; cbn; try reflexivity.
  - contradiction.
  - apply IH. congruence.
Qed.

Lemma Forall_update {A} (P : A -> Prop) n (f : A -> A) l :
  Forall P l -> (forall a, P a -> P (f a)) -> Forall P (update n f l).
Proof.
  intros Hl Hf. revert n. induction Hl as [|a l Ha Hl IH]; intros [|n]; cbn;
    constructor; auto.
Qed.

(** A stone put on a cell and taken off again leaves an empty cell's board
    as it was. *)
Lemma game_setCell_restore board x y v :
  GameEngine.cell board x y = 0 ->
  GameEngine.setCell (GameEngine.setCell board x y v) x y 0 = board.
Proof.
  unfold GameEngine.cell, GameEngine.setCell. intros H.
  rewrite update_update. apply update_same with (d := []).
  rewrite update_update. apply update_same with (d := -1). symmetry. exact H.
Qed.

Lemma setCell_restore board i j v :
  AI.cell board i j = AI.EMPTY ->
  AI.setCell (AI.setCell board i j v) i j AI.EMPTY = board.
Proof.
  unfold AI.cell, AI.setCell. intros H.
  rewrite update_update. apply update_same with (d := []).
  rewrite update_update. apply update_same with (d := AI.undefined). symmetry. exact H.
Qed.

(** ** The game engine keeps its state sound *)

Lemma createEmptyBoard_shape size :
  length (GameEngine._createEmptyBoard size) = Z.to_nat size
  /\ Forall (fun row => length row = Z.to_nat size) (GameEngine._createEmptyBoard size).
Proof.
  unfold GameEngine._createEmptyBoard. split; [apply repeat_length|].
  apply Forall_forall. intros row Hrow. apply repeat_spec in Hrow. subst.
  apply repeat_length.
Qed.

Lemma game_setCell_shape (n : nat) board x y v :
  length board = n /\ Forall (fun row => length row = n) board ->
  length (GameEngine.setCell board x y v) = n
  /\ Forall (fun row => length row = n) (GameEngine.setCell board x y v).
Proof.
  intros [Hlen Hrows]. unfold GameEngine.setCell. split.
  - rewrite update_length. exact Hlen.
  - apply Forall_update; [exact Hrows|]. intros row Hrow.
    rewrite update_length. exact Hrow.
Qed.

Lemma reset_sound g : 0 <= GameEngine.size g -> Spec.sound (GameEngine.reset g).
Proof.
  intros Hsize. unfold Spec.sound, GameEngine.reset. cbn.
  destruct (createEmptyBoard_shape (GameEngine.size g)) as [Hl Hr].
  split; [|split; [|split]]; try assumption. intros _. split; reflexivity.
Qed.

Lemma placeStone_sound allow fuel g x y r g' :
  Spec.sound g -> GameEngine.placeStone allow fuel g x y = Some (r, g') -> Spec.sound g'.
Proof.
  intros Hg H. pose proof Hg as (Hsize & Hlen & Hrows & Hover).
  unfold GameEngine.placeStone in H.
  destruct (GameEngine.gameOver g) eqn:Hgo.
  { inversion H; subst. exact Hg. }
  destruct (negb (GameEngine.isValidMove g x y)).
  { destruct (negb (GameEngine._inBounds g x y)); inversion H; subst; exact Hg. }
  cbv zeta in H.
  match type of H with
  | match ?c with _ => _ end = _ => destruct c as [w|]; [|discriminate]
  end.
  pose proof (game_setCell_shape _ _ x y (GameEngine.currentPlayer g) (conj Hlen Hrows))
    as [Hl' Hr'].
  cbn [GameEngine.size GameEngine.board GameEngine.currentPlayer GameEngine.moveHistory
       GameEngine.gameOver GameEngine.winner GameEngine._winLine] in H.
  destruct (GameEngine.won w).
  { inversion H; subst. split; [|split; [|split]]; try assumption. cbn. discriminate. }
  destruct (GameEngine.isBoardFull _).
  { inversion H; subst. split; [|split; [|split]]; try assumption. cbn. discriminate. }
  inversion H; subst. split; [|split; [|split]]; assumption.
Qed.

Lemma undoMove_sound g m g' :
  Spec.sound g -> GameEngine.undoMove g = (m, g') -> Spec.sound g'.
Proof.
  intros Hg H. pose proof Hg as (Hsize & Hlen & Hrows & Hover).
  unfold GameEngine.undoMove in H.
  destruct (rev (GameEngine.moveHistory g)) as [|e earlier].
  - inversion H; subst. exact Hg.
  - inversion H; subst.
    pose proof (game_setCell_shape _ _ (GameEngine.x e) (GameEngine.y e) 0
                  (conj Hlen Hrows)) as [Hl' Hr'].
    split; [|split; [|split]]; try assumption. cbn. intros _. split; reflexivity.
Qed.

Lemma reachable_sound g : Spec.reachable g -> Spec.sound g.
Proof.
  induction 1 as [size g Hnew | g _ IH | allow g x y r g' _ IH Hp | g m g' _ IH Hu].
  - unfold GameEngine.constructor in Hnew.
    destruct (size <? 5) eqn:Hs; [discriminate|]. inversion Hnew; subst.
    apply reset_sound. cbn. lia.
  - apply reset_sound. apply IH.
  - eapply placeStone_sound; eassumption.
  - eapply undoMove_sound; eassumption.
Qed.

(** ** The claims about win detection and about the game engine *)




(** C9.  [placeStone] returns an invalid result exactly when the game is
    over or the move is not valid (out of bounds, or on an occupied cell),
    and then the engine it leaves is the engine it found: board,
    currentPlayer, moveHistory, gameOver and winner are untouched. *)
Theorem placeStone_invalid_keeps_state allow fuel g x y :
  ((GameEngine.gameOver g = true \/ GameEngine.isValidMove g x y = false) ->
   exists r, GameEngine.placeStone allow fuel g x y = Some (r, g)
             /\ GameEngine.valid r = false)
  /\ (forall r g',
         GameEngine.placeStone allow fuel g x y = Some (r, g') ->
         GameEngine.valid r = false ->
         g' = g
         /\ (GameEngine.gameOver g = true
             \/ GameEngine._inBounds g x y = false
             \/ GameEngine.cell (GameEngine.board g) x y <> 0)).
Proof.
  unfold GameEngine.placeStone. split.
  - intros H. destruct (GameEngine.gameOver g) eqn:Hgo.
    + eexists. split; reflexivity.
    + destruct H as [H|H]; [discriminate|]. rewrite H. cbn [negb].
      destruct (negb (GameEngine._inBounds g x y)); eexists; split; reflexivity.
  - intros r g' H Hr. destruct (GameEngine.gameOver g) eqn:Hgo.
    + inversion H; subst. split; [reflexivity | left; reflexivity].
    + destruct (GameEngine.isValidMove g x y) eqn:Hv; cbn [negb] in H.
      * cbv zeta in H.
        match type of H with
        | match ?c with _ => _ end = _ => destruct c as [w|]; [|discriminate]
        end.
        destruct (GameEngine.won w); [inversion H; subst; discriminate|].
        destruct (GameEngine.isBoardFull _); inversion H; subst; discriminate.
      * unfold GameEngine.isValidMove in Hv.
        destruct (GameEngine._inBounds g x y) eqn:Hb; cbn [negb andb] in H, Hv;
          inversion H; subst; (split; [reflexivity|]); right.
        -- right. apply Z.eqb_neq. exact Hv.
        -- left. reflexivity.
Qed.

Lemma placeStone_invalid_witness :
  exists r, GameEngine.placeStone false 16 Positions.freshGame (-1) 0
            = Some (r, Positions.freshGame)
            /\ GameEngine.valid r = false.
Proof.
  apply (proj1 (placeStone_invalid_keeps_state false 16 Positions.freshGame (-1) 0)).
  right. reflexivity.
Defined.

(** C10.  From a reachable engine whose game is not over, placing a valid
    stone returns a valid result, and undoing then returns the entry just
    pushed and leaves the engine as it was before the stone: board,
    currentPlayer, moveHistory, gameOver and winner (and the cached line) --
    also when the stone won or drew the game. *)
Theorem placeStone_undoMove allow g x y :
  Spec.reachable g -> GameEngine.gameOver g = false ->
  GameEngine.isValidMove g x y = true ->
  exists r g1,
    GameEngine.placeStone allow (GameEngine.rounds g) g x y = Some (r, g1)
    /\ GameEngine.valid r = true
    /\ GameEngine.undoMove g1
       = (Some (GameEngine.mkEntry x y (GameEngine.currentPlayer g)
                  (Z.of_nat (length (GameEngine.moveHistory g)) + 1)), g).
Proof.
  intros Hreach Hgo Hv. apply reachable_sound in Hreach.
  destruct Hreach as (Hsize & Hlen & Hrows & Hover).
  destruct (Hover Hgo) as [Hwin Hline].
  unfold GameEngine.placeStone. rewrite Hgo, Hv. cbn [negb]. cbv zeta.
  unfold GameEngine.isValidMove in Hv. apply andb_true_iff in Hv.
  destruct Hv as [Hb Hc]. apply Z.eqb_eq in Hc.
  set (g1 := GameEngine.mkState _ _ _ _ _ _ _).
  destruct (game_checkWin_spec allow g1 x y (GameEngine.currentPlayer g)
              (GameEngine.rounds g)) as (w & Hw & _);
    [exact Hb | apply Nat.le_refl |].
  rewrite Hw.
  assert (Hundo : forall go win l,
             GameEngine.undoMove
               (GameEngine.mkState (GameEngine.size g1) (GameEngine.board g1) (GameEngine.currentPlayer g)
                  (GameEngine.moveHistory g1) go win l)
             = (Some (GameEngine.mkEntry x y (GameEngine.currentPlayer g)
                        (Z.of_nat (length (GameEngine.moveHistory g)) + 1)), g)).
  { intros go win l. unfold GameEngine.undoMove. subst g1.
    cbn [GameEngine.size GameEngine.board GameEngine.moveHistory].
    rewrite rev_app_distr. cbn [rev app].
    cbn [GameEngine.x GameEngine.y GameEngine.player].
    rewrite rev_involutive, game_setCell_restore by exact Hc.
    destruct g; cbn in *; subst; reflexivity. }
  destruct (GameEngine.won w).
  { eexists _, _. split; [reflexivity|]. split; [reflexivity|]. apply Hundo. }
  destruct (GameEngine.isBoardFull g1).
  { eexists _, _. split; [reflexivity|]. split; [reflexivity|]. apply Hundo. }
  eexists _, _. split; [reflexivity|]. split; [reflexivity|].
  unfold GameEngine.undoMove. subst g1.
  cbn [GameEngine.size GameEngine.board GameEngine.moveHistory].
  rewrite rev_app_distr. cbn [rev app].
  cbn [GameEngine.x GameEngine.y GameEngine.player].
  rewrite rev_involutive, game_setCell_restore by exact Hc.
  destruct g; cbn in *; subst; reflexivity.
Qed.

Lemma placeStone_undoMove_witness :
  exists r g1,
    GameEngine.placeStone false (GameEngine.rounds Positions.freshGame)
                          Positions.freshGame 7 7 = Some (r, g1)
    /\ GameEngine.valid r = true
    /\ GameEngine.undoMove g1
       = (Some (GameEngine.mkEntry 7 7 (GameEngine.currentPlayer Positions.freshGame)
                  (Z.of_nat (length (GameEngine.moveHistory Positions.freshGame)) + 1)),
          Positions.freshGame).
Proof.
  apply (placeStone_undoMove false Positions.freshGame 7 7).
  - apply (Spec.reach_new 15). reflexivity.
  - reflexivity.
  - reflexivity.
Defined.

(** ** The difficulty setting *)

Lemma not_level (d : String.string) :
  ~ In d AI.levels ->
  String.eqb d "easy"%string = false /\ String.eqb d "medium"%string = false
  /\ String.eqb d "hard"%string = false /\ String.eqb d "master"%string = false.
Proof.
  intros H. repeat split; apply String.eqb_neq; intros ->; apply H; cbn; tauto.
Qed.

(** C8.  For a string [level] that is none of "easy", "medium", "hard",
    "master", [setDifficulty(level)] leaves the stored difficulty as it was
    (and is a plain value, no error); and an engine whose stored difficulty
    is none of the four Spec.answers [getMove] as the Medium policy does: by
    [findBestMove] at depth 2 with the basic evaluation. *)
Theorem unknown_difficulty now random fuel ai stored level player s :
  ~ In level AI.levels -> ~ In (AI.difficulty stored) AI.levels ->
  AI.setDifficulty ai level = ai
  /\ AI.getMove now random fuel stored player s
     = AI.getMove now random fuel (AI.mkAI "medium"%string) player s
  /\ (AI.board s <> [] ->
      AI.getMove now random fuel stored player s
      = AI.returned (AI.findBestMove now fuel player 2 1000 false
                                     (AI.setThis s AI.newEngine))).
Proof.
  intros Hlevel Hstored.
  destruct (not_level _ Hlevel) as (L1 & L2 & L3 & L4).
  destruct (not_level _ Hstored) as (S1 & S2 & S3 & S4).
  split; [|split].
  - unfold AI.setDifficulty, AI.levels. cbn [existsb].
    rewrite L1, L2, L3, L4. reflexivity.
  - unfold AI.getMove. rewrite S1, S2, S3, S4. cbn [AI.difficulty].
    change (String.eqb "medium" "easy") with false.
    change (String.eqb "medium" "medium") with true.
    cbv iota. reflexivity.
  - intros Hb. unfold AI.getMove, AI.mediumMove. rewrite S1, S2, S3, S4.
    destruct (AI.board s) as [|row rows]; [contradiction|].
    cbn [length Nat.eqb]. reflexivity.
Qed.

Lemma unknown_difficulty_witness :
  AI.setDifficulty (AI.mkAI "hard"%string) "expert"%string = AI.mkAI "hard"%string
  /\ AI.getMove Positions.frozen Positions.half 226 (AI.mkAI "expert"%string) AI.BLACK
                (Positions.start AI.emptyBoard)
     = AI.getMove Positions.frozen Positions.half 226 (AI.mkAI "medium"%string) AI.BLACK
                  (Positions.start AI.emptyBoard)
  /\ (AI.board (Positions.start AI.emptyBoard) <> [] ->
      AI.getMove Positions.frozen Positions.half 226 (AI.mkAI "expert"%string) AI.BLACK
                 (Positions.start AI.emptyBoard)
      = AI.returned (AI.findBestMove Positions.frozen 226 AI.BLACK 2 1000 false
                       (AI.setThis (Positions.start AI.emptyBoard) AI.newEngine))).
Proof.
  apply (unknown_difficulty Positions.frozen Positions.half 226 (AI.mkAI "hard"%string)
                            (AI.mkAI "expert"%string) "expert"%string AI.BLACK
                            (Positions.start AI.emptyBoard)).
  - cbn. intros [H|[H|[H|[H|[]]]]]; discriminate.
  - cbn. intros [H|[H|[H|[H|[]]]]]; discriminate.
Defined.

(** ** The quick move scorer *)

Lemma probe_open board who p n k c :
  fst (AI.probe board who p n k c) >= c.
Proof.
  revert k c. induction n as [|n IH]; intros k c; cbn [AI.probe]; [cbn; lia|].
  destruct (p k) as [ni nj]. destruct (negb (AI.inBounds ni nj)); [cbn; lia|].
  destruct (AI.cell board ni nj =? who); [|cbn; lia].
  specialize (IH (k + 1) (c + 1)). lia.
Qed.

(** A line through a cell counts the cell, and has zero, one or two open ends. *)
Lemma lineThrough_range board who x y d :
  1 <= fst (AI.lineThrough board who x y d)
  /\ 0 <= snd (AI.lineThrough board who x y d) <= 2.
Proof.
  unfold AI.lineThrough. destruct d as [dx dy].
  pose proof (probe_open board who (fun k => (x + dx * k, y + dy * k)) 4 1 0) as Hf.
  pose proof (probe_open board who (fun k => (x - dx * k, y - dy * k)) 4 1 0) as Hb.
  destruct (AI.probe board who (fun k => (x + dx * k, y + dy * k)) 4 1 0) as [f openF].
  destruct (AI.probe board who (fun k => (x - dx * k, y - dy * k)) 4 1 0) as [b openB].
  cbn [fst snd] in *. destruct openF, openB; lia.
Qed.

(** The offensive term adds the table's weight of the own line. *)
Lemma addOwn_patternWeight score total openEnds :
  2 <= total ->
  AI.addOwn score total openEnds
  = (score + float_of_Z (Spec.patternWeight total openEnds))%float.
Proof.
  intros H. unfold AI.addOwn, Spec.patternWeight.
  destruct (total >=? 5) eqn:E5; [reflexivity|].
  destruct (total =? 4) eqn:E4; [reflexivity|].
  destruct (total =? 3) eqn:E3; [reflexivity|].
  destruct (total =? 2) eqn:E2; [reflexivity|]. lia.
Qed.

(** C5, as stated, fails: next to an open three of the opponent (a line of
    total length four, both ends open) the defensive term is 0.9 times the
    half-open-four weight, not 0.9 times the open-four weight; and next to
    two stones of the opponent it is nothing. *)
Lemma scoreMoveQuick_blocks_less :
  AI.lineThrough Positions.openThree AI.WHITE 5 8 (0, 1) = (4, 2)
  /\ AI.scoreMoveQuick Positions.openThree 5 8 AI.BLACK = 90004%float
  /\ Spec.scoreMoveQuickAsClaimed Positions.openThree 5 8 AI.BLACK = 900004%float
  /\ AI.lineThrough Positions.openTwo AI.WHITE 5 7 (0, 1) = (3, 2)
  /\ AI.lineThrough Positions.openTwo AI.WHITE 5 4 (1, 1) = (1, 2)
  /\ AI.lineThrough Positions.openTwo AI.WHITE 6 6 (1, 0) = (2, 2)
  /\ AI.scoreMoveQuick Positions.openTwo 6 6 AI.BLACK = 5%float
  /\ Spec.scoreMoveQuickAsClaimed Positions.openTwo 6 6 AI.BLACK = 185%float.
Proof. vm_compute. repeat split. Qed.

(** C5, amended.  On each axis the defensive term of [scoreMoveQuick] is
    0.9 times the weight the offensive term would give the opponent's line
    when that line has total length at least three and is not a four with
    both ends open; for a four with both ends open it is 0.9 times the
    half-open-four weight; and for a total length of two or less it adds
    nothing. *)
Theorem defensive_term board x y player score d :
  let opp := AI.opponent player in
  let own := AI.addOwn score (fst (AI.lineThrough board player x y d))
                       (snd (AI.lineThrough board player x y d)) in
  let total := fst (AI.lineThrough board opp x y d) in
  let openEnds := snd (AI.lineThrough board opp x y d) in
  (3 <= total -> ~ (total = 4 /\ openEnds = 2) ->
   AI.scoreAxis board x y player opp score d
   = (own + float_of_Z (Spec.patternWeight total openEnds) * 0.9)%float)
  /\ (total = 4 -> openEnds = 2 ->
      AI.scoreAxis board x y player opp score d
      = (own + float_of_Z AI.SCORES.HALF_OPEN_FOUR * 0.9)%float)
  /\ (total <= 2 -> AI.scoreAxis board x y player opp score d = own).
Proof.
  cbv zeta. unfold AI.scoreAxis.
  pose proof (lineThrough_range board (AI.opponent player) x y d) as [Ht Ho].
  destruct (AI.lineThrough board player x y d) as [myTotal myOpen].
  destruct (AI.lineThrough board (AI.opponent player) x y d) as [total openEnds].
  cbn [fst snd] in *. unfold AI.addBlock, Spec.patternWeight.
  split; [|split].
  - intros H3 Hnot. destruct (total >=? 5) eqn:E5; [reflexivity|].
    destruct (total =? 4) eqn:E4.
    + destruct (openEnds >=? 1) eqn:E1.
      * destruct (openEnds =? 2) eqn:E2; [lia|].
        destruct (openEnds =? 1) eqn:E1'; [reflexivity|lia].
      * destruct (openEnds =? 2) eqn:E2; [lia|].
        destruct (openEnds =? 1) eqn:E1'; [lia|reflexivity].
    + destruct (total =? 3) eqn:E3; [reflexivity|lia].
  - intros H4 H2. subst. reflexivity.
  - intros H2. destruct (total >=? 5) eqn:E5; [lia|].
    destruct (total =? 4) eqn:E4; [lia|].
    destruct (total =? 3) eqn:E3; [lia|reflexivity].
Qed.

Lemma defensive_term_witness :
  AI.scoreAxis Positions.openThree 5 8 AI.BLACK AI.WHITE 0%float (0, 1)
  = (AI.addOwn 0%float 1 2 + float_of_Z AI.SCORES.HALF_OPEN_FOUR * 0.9)%float.
Proof.
  apply (proj1 (proj2 (defensive_term Positions.openThree 5 8 AI.BLACK 0%float (0, 1))));
    reflexivity.
Defined.

(** ** The basic evaluator *)

Lemma sumZ_filter {A} (P : A -> bool) (w : A -> Z) l :
  Spec.sumZ (map (fun a => if P a then w a else 0) l)
  = Spec.sumZ (map w (filter P l)).
Proof.
  unfold Spec.sumZ. induction l as [|a l IH]; cbn; [reflexivity|].
  destruct (P a); cbn; rewrite IH; reflexivity.
Qed.

Lemma filter_filter {A} (P Q : A -> bool) l :
  filter P (filter Q l) = filter (fun a => Q a && P a) l.
Proof.
  induction l as [|a l IH]; cbn; [reflexivity|].
  destruct (Q a); cbn; [destruct (P a)|]; rewrite IH; reflexivity.
Qed.

Lemma filter_ext_in' {A} (P Q : A -> bool) l :
  (forall a, In a l -> P a = Q a) -> filter P l = filter Q l.
Proof.
  induction l as [|a l IH]; intros H; cbn; [reflexivity|].
  rewrite (H a (or_introl eq_refl)), IH; [reflexivity|].
  intros b Hb. apply H. right. exact Hb.
Qed.

(** A pair of accumulators that each step raises by a weight of the item. *)
Lemma fold_left_pair {A} (f : Z * Z -> A -> Z * Z) (wa wb : A -> Z) l a b :
  (forall a b x, In x l -> f (a, b) x = (a + wa x, b + wb x)) ->
  fold_left f l (a, b) = (a + Spec.sumZ (map wa l), b + Spec.sumZ (map wb l)).
Proof.
  revert a b. induction l as [|x l IH]; intros a b H; cbn [fold_left map].
  - cbn. f_equal; lia.
  - rewrite (H a b x (or_introl eq_refl)), IH.
    + unfold Spec.sumZ. cbn. f_equal; lia.
    + intros a' b' x' Hx'. apply H. right. exact Hx'.
Qed.

Lemma fold_left_acc {A} (f : Z -> A -> Z) (w : A -> Z) l a :
  (forall a x, In x l -> f a x = a + w x) ->
  fold_left f l a = a + Spec.sumZ (map w l).
Proof.
  revert a. induction l as [|x l IH]; intros a H; cbn [fold_left map].
  - cbn. lia.
  - rewrite (H a x (or_introl eq_refl)), IH.
    + unfold Spec.sumZ. cbn. lia.
    + intros a' x' Hx'. apply H. right. exact Hx'.
Qed.

Lemma openEnd_range board i j : 0 <= Spec.openEnd board i j <= 1.
Proof. unfold Spec.openEnd. destruct (_ && _); lia. Qed.

(** The classification of the program and the table agree. *)
Lemma patternScore_table count openEnds :
  count < 5 -> 1 <= openEnds <= 2 ->
  AI.patternScore count openEnds = Spec.tableWeight count openEnds.
Proof.
  intros Hc Ho. unfold AI.patternScore, Spec.tableWeight.
  destruct (count >=? 5) eqn:E5; [lia|].
  destruct (openEnds =? 2) eqn:O2.
  - destruct (count =? 4), (count =? 3), (count =? 2), (count =? 1); reflexivity.
  - destruct (openEnds =? 1) eqn:O1; [|lia].
    destruct (count =? 4), (count =? 3), (count =? 2), (count =? 1); reflexivity.
Qed.

(** What one round of the scan of [evaluateBoard] adds to the two scores. *)
Lemma evalCell_adds board player a b dij :
  AI.evalCell board player (a, b) dij
  = (a + (if Spec.startsRun board dij && (Spec.owner board dij =? player)
          then Spec.runWeight board dij else 0),
     b + (if Spec.startsRun board dij && negb (Spec.owner board dij =? player)
          then Spec.runWeight board dij else 0)).
Proof.
  destruct dij as [[dx dy] [i j]].
  unfold AI.evalCell, Spec.startsRun, Spec.owner, Spec.runWeight. cbn [fst snd].
  destruct (AI.cell board i j =? AI.EMPTY) eqn:Hempty.
  { rewrite andb_false_r. cbn [negb andb]. f_equal; lia. }
  rewrite andb_true_r. cbn [negb].
  destruct (AI.inBounds (i - dx) (j - dy)
            && (AI.cell board (i - dx) (j - dy) =? AI.cell board i j)) eqn:Hprev.
  { cbn [negb andb]. f_equal; lia. }
  cbn [negb andb]. cbv zeta.
  set (len := AI.runLength board (AI.cell board i j) i j dx dy).
  fold (Spec.openEnd board (i - dx) (j - dy)).
  fold (Spec.openEnd board (i + dx * len) (j + dy * len)).
  pose proof (openEnd_range board (i - dx) (j - dy)) as Hb.
  pose proof (openEnd_range board (i + dx * len) (j + dy * len)) as Ha.
  set (ends := Spec.openEnd board (i - dx) (j - dy)
               + Spec.openEnd board (i + dx * len) (j + dy * len)) in *.
  destruct (len >=? 5) eqn:H5.
  { unfold Spec.tableWeight. rewrite H5.
    destruct (AI.cell board i j =? player); cbn [negb]; f_equal; lia. }
  destruct (ends =? 0) eqn:H0.
  { assert (Spec.tableWeight len ends = 0) as ->.
    { unfold Spec.tableWeight. rewrite H5.
      destruct (ends =? 2) eqn:E2; [lia|]. destruct (ends =? 1) eqn:E1; [lia|].
      reflexivity. }
    destruct (AI.cell board i j =? player); cbn [negb]; f_equal; lia. }
  rewrite patternScore_table by lia.
  destruct (AI.cell board i j =? player); cbn [negb]; f_equal; lia.
Qed.

Lemma centerCell_adds board player a ij :
  AI.centerCell board player a ij
  = a + (if (let '(i, j) := ij in AI.cell board i j =? player)
         then (let '(i, j) := ij in Z.max 0 (7 - (Z.abs (i - 7) + Z.abs (j - 7))))
         else 0).
Proof.
  destruct ij as [i j]. unfold AI.centerCell, Math_abs.
  change AI.CENTER with 7. destruct (AI.cell board i j =? player); lia.
Qed.

(** The two accumulators of the basic evaluator: the runs of the perspective
    player with the center bonus of its stones, and the runs of every other
    owner. *)
Lemma evaluateScores_sums board player :
  AI.evaluateScores board player
  = (Spec.patternTotal board player + Spec.centerTotal board player,
     Spec.sumZ (map (Spec.runWeight board)
                    (filter (fun dij => negb (Spec.owner board dij =? player))
                            (Spec.runs board)))).
Proof.
  unfold AI.evaluateScores.
  rewrite (fold_left_pair _ _ _ _ 0 0 (fun a b x _ => evalCell_adds board player a b x)).
  rewrite (fold_left_acc _ _ _ _ (fun a x _ => centerCell_adds board player a x)).
  rewrite !sumZ_filter. unfold Spec.patternTotal, Spec.centerTotal, Spec.runs.
  rewrite !filter_filter. reflexivity.
Qed.

Lemma AI_DIRECTIONS_unit dx dy : In (dx, dy) AI.DIRECTIONS -> Spec.unitStep dx dy.
Proof.
  unfold Spec.unitStep. cbn. intros [H|[H|[H|[H|[]]]]]; inversion H; subst; lia.
Qed.

(** What the counting loop leaves: the cells it counted hold the stone, and
    it stopped either at a cell that does not or at the end of its rounds. *)
Lemma countRun_spec board player p n k c :
  let r := AI.countRun board player p n k c in
  (forall t, k <= t < k + (r - c) ->
             Spec.ownsb board player (fst (p t)) (snd (p t)) = true)
  /\ (r - c < Z.of_nat n ->
      Spec.ownsb board player (fst (p (k + (r - c)))) (snd (p (k + (r - c)))) = false).
Proof.
  revert k c. induction n as [|n IH]; intros k c; cbn [AI.countRun]; cbv zeta.
  - split; [intros t Ht; lia | cbn; lia].
  - destruct (p k) as [ni nj] eqn:Hp.
    destruct (AI.inBounds ni nj && (AI.cell board ni nj =? player)) eqn:Hown.
    + specialize (IH (k + 1) (c + 1)). cbv zeta in IH. destruct IH as [Hall Hend].
      pose proof (countRun_le board player p n (k + 1) (c + 1)) as Hle.
      set (r := AI.countRun board player p n (k + 1) (c + 1)) in *. split.
      * intros t Ht. destruct (Z.eq_dec t k) as [->|Hne].
        -- rewrite Hp. exact Hown.
        -- apply Hall. lia.
      * intros Hlt. replace (k + (r - c)) with (k + 1 + (r - (c + 1))) by lia.
        apply Hend. lia.
    + split; [intros t Ht; lia|]. intros _.
      replace (k + (c - c)) with k by lia. rewrite Hp. exact Hown.
Qed.

(** The run the evaluator measures from a cell of the board is maximal: its
    cells hold the stone and the cell after them does not. *)
Lemma runLength_maximal board stone i j dx dy :
  AI.inBounds i j = true -> In (dx, dy) AI.DIRECTIONS ->
  let len := AI.runLength board stone i j dx dy in
  0 <= len <= 15
  /\ (forall k, 0 <= k < len -> Spec.owns board stone (i + dx * k) (j + dy * k))
  /\ ~ Spec.owns board stone (i + dx * len) (j + dy * len).
Proof.
  intros Hb Hd. apply AI_DIRECTIONS_unit in Hd. apply inBounds_iff in Hb.
  cbv zeta. unfold AI.runLength.
  pose proof (countRun_le board stone (fun k => (i + dx * k, j + dy * k))
                (Z.to_nat AI.BOARD_SIZE) 0 0) as Hle.
  pose proof (countRun_spec board stone (fun k => (i + dx * k, j + dy * k))
                (Z.to_nat AI.BOARD_SIZE) 0 0) as Hspec.
  cbv zeta in Hspec. cbn [fst snd] in Hspec.
  set (len := AI.countRun board stone (fun k => (i + dx * k, j + dy * k))
                          (Z.to_nat AI.BOARD_SIZE) 0 0) in *.
  change (Z.of_nat (Z.to_nat AI.BOARD_SIZE)) with 15 in *.
  destruct Hspec as [Hall Hend]. split; [lia|]. split.
  - intros k Hk. apply ownsb_iff, Hall. lia.
  - intros Hown. destruct (Z.eq_dec len 15) as [H15|Hne].
    + destruct Hown as [Hin _]. apply inBounds_iff in Hin.
      unfold Spec.unitStep in Hd. lia.
    + apply ownsb_iff in Hown. rewrite Z.sub_0_r, Z.add_0_l in Hend.
      rewrite Hend in Hown by lia. discriminate.
Qed.

(** More rounds of the counting loop than the board is wide change nothing. *)
Lemma runLength_rounds board stone i j dx dy n :
  AI.inBounds i j = true -> In (dx, dy) AI.DIRECTIONS ->
  (Z.to_nat AI.BOARD_SIZE <= n)%nat ->
  AI.countRun board stone (fun k => (i + dx * k, j + dy * k)) n 0 0
  = AI.runLength board stone i j dx dy.
Proof.
  intros Hb Hd Hn.
  destruct (runLength_maximal board stone i j dx dy Hb Hd) as (Hlen & Hall & Hend).
  pose proof (countRun_le board stone (fun k => (i + dx * k, j + dy * k)) n 0 0) as Hle.
  pose proof (countRun_spec board stone (fun k => (i + dx * k, j + dy * k)) n 0 0)
    as Hspec.
  cbv zeta in Hspec. cbn [fst snd] in Hspec.
  set (len := AI.runLength board stone i j dx dy) in *.
  set (r := AI.countRun board stone (fun k => (i + dx * k, j + dy * k)) n 0 0) in *.
  destruct Hspec as [Hall' Hend'].
  rewrite Z.sub_0_r, Z.add_0_l in Hend'.
  destruct (Z.lt_trichotomy r len) as [Hlt|[Heq|Hgt]]; [|exact Heq|].
  - exfalso. assert (Hr : r < Z.of_nat n).
    { change (Z.to_nat AI.BOARD_SIZE) with 15%nat in Hn. lia. }
    specialize (Hend' Hr). specialize (Hall r ltac:(lia)).
    apply ownsb_iff in Hall. congruence.
  - exfalso. apply Hend. apply ownsb_iff. apply Hall'. lia.
Qed.

Lemma wellFormed_cell board i j :
  AI.wellFormedb board = true -> AI.inBounds i j = true ->
  AI.cell board i j = AI.EMPTY \/ AI.cell board i j = AI.BLACK
  \/ AI.cell board i j = AI.WHITE.
Proof.
  unfold AI.wellFormedb, AI.shapedb. rewrite !andb_true_iff, !forallb_forall.
  intros [[Hlen Hrows] Hcells] Hb. apply inBounds_iff in Hb.
  apply Nat.eqb_eq in Hlen. change (Z.to_nat AI.BOARD_SIZE) with 15%nat in *.
  unfold AI.cell.
  assert (Hrow : In (nth (Z.to_nat i) board []) board) by (apply nth_In; lia).
  specialize (Hrows _ Hrow). apply Nat.eqb_eq in Hrows.
  specialize (Hcells _ Hrow). rewrite forallb_forall in Hcells.
  assert (Hc : In (nth (Z.to_nat j) (nth (Z.to_nat i) board []) AI.undefined)
                  (nth (Z.to_nat i) board [])) by (apply nth_In; lia).
  specialize (Hcells _ Hc). rewrite !orb_true_iff, !Z.eqb_eq in Hcells. tauto.
Qed.

(** C7.  On a well-formed board, for either player, the basic evaluator
    returns [myScore - 1.1 * opponentScore] (on doubles), where [myScore] is
    the sum of the pattern-table weights of the perspective player's maximal
    runs plus the bonus max(0, 7 - Manhattan distance to the center) of each
    of its stones, and [opponentScore] is the sum of the weights of the
    opponent's maximal runs -- a run of five or more weighing FIVE, a run
    with no open end nothing.  The runs are maximal: each starts after a
    cell that does not continue it and ends before one. *)
Theorem evaluateBoard_formula board player :
  AI.wellFormedb board = true -> player = AI.BLACK \/ player = AI.WHITE ->
  AI.evaluateBoard board player
  = (float_of_Z (Spec.patternTotal board player + Spec.centerTotal board player)
     - float_of_Z (Spec.patternTotal board (AI.opponent player)) * 1.1)%float
  /\ (forall len openEnds, 5 <= len -> Spec.tableWeight len openEnds = AI.SCORES.FIVE)
  /\ (forall len, len < 5 -> Spec.tableWeight len 0 = 0)
  /\ (forall dx dy i j,
         In ((dx, dy), (i, j)) (Spec.runs board) ->
         let stone := AI.cell board i j in
         let len := AI.runLength board stone i j dx dy in
         stone <> AI.EMPTY /\ 1 <= len
         /\ (forall k, 0 <= k < len -> Spec.owns board stone (i + dx * k) (j + dy * k))
         /\ ~ Spec.owns board stone (i - dx) (j - dy)
         /\ ~ Spec.owns board stone (i + dx * len) (j + dy * len)).
Proof.
  intros Hwf Hplayer. split; [|split; [|split]].
  - assert (Hopp : Spec.patternTotal board (AI.opponent player)
                   = Spec.sumZ (map (Spec.runWeight board)
                       (filter (fun dij => negb (Spec.owner board dij =? player))
                               (Spec.runs board)))).
    { unfold Spec.patternTotal. f_equal. f_equal. apply filter_ext_in'.
      intros [[dx dy] [i j]] Hin. unfold Spec.runs in Hin. apply filter_In in Hin.
      destruct Hin as [Hin Hstart]. apply in_prod_iff in Hin. destruct Hin as [_ Hin].
      apply In_cells in Hin. unfold Spec.startsRun in Hstart.
      apply andb_true_iff in Hstart. destruct Hstart as [Hne _].
      apply negb_true_iff, Z.eqb_neq in Hne. unfold Spec.owner. cbn [fst snd].
      destruct (wellFormed_cell board i j Hwf Hin) as [H|[H|H]]; [contradiction| |];
        rewrite H; destruct Hplayer as [-> | ->]; reflexivity. }
    rewrite Hopp. unfold AI.evaluateBoard. rewrite evaluateScores_sums.
    reflexivity.
  - intros len openEnds H. unfold Spec.tableWeight.
    destruct (len >=? 5) eqn:E; [reflexivity|lia].
  - intros len H. unfold Spec.tableWeight.
    destruct (len >=? 5) eqn:E; [lia|reflexivity].
  - intros dx dy i j Hrun. cbv zeta. unfold Spec.runs in Hrun.
    apply filter_In in Hrun. destruct Hrun as [Hin Hstart].
    apply in_prod_iff in Hin. destruct Hin as [Hd Hin]. apply In_cells in Hin.
    unfold Spec.startsRun in Hstart. apply andb_true_iff in Hstart.
    destruct Hstart as [Hne Hprev]. apply negb_true_iff, Z.eqb_neq in Hne.
    destruct (runLength_maximal board (AI.cell board i j) i j dx dy Hin Hd)
      as (Hlen & Hall & Hend).
    split; [exact Hne|]. split; [|split; [exact Hall|split; [|exact Hend]]].
    + destruct (Z.eq_dec (AI.runLength board (AI.cell board i j) i j dx dy) 0)
        as [H0|H0]; [|lia].
      exfalso. apply Hend. rewrite H0.
      replace (i + dx * 0) with i by lia. replace (j + dy * 0) with j by lia.
      split; [exact Hin|reflexivity].
    + intros [Hb Hc]. apply negb_true_iff in Hprev.
      rewrite Hb, Hc, Z.eqb_refl in Hprev. discriminate.
Qed.

Lemma evaluateBoard_formula_witness :
  AI.evaluateBoard Positions.openThree AI.BLACK
  = (float_of_Z (Spec.patternTotal Positions.openThree AI.BLACK
                 + Spec.centerTotal Positions.openThree AI.BLACK)
     - float_of_Z (Spec.patternTotal Positions.openThree (AI.opponent AI.BLACK)) * 1.1)%float.
Proof.
  apply (proj1 (evaluateBoard_formula Positions.openThree AI.BLACK eq_refl
                                      (or_introl eq_refl))).
Defined.

(** ** Stones on the board *)

(** A cell that reads as a cell state is a cell of the array. *)
Lemma cell_in_array board i j :
  AI.cell board i j <> AI.undefined ->
  (Z.to_nat i < length board)%nat
  /\ (Z.to_nat j < length (nth (Z.to_nat i) board []))%nat.
Proof.
  unfold AI.cell. intros H.
  assert (Hj : (Z.to_nat j < length (nth (Z.to_nat i) board []))%nat).
  { destruct (Nat.lt_ge_cases (Z.to_nat j) (length (nth (Z.to_nat i) board [])))
      as [Hlt|Hge]; [exact Hlt|].
    exfalso. apply H. apply nth_overflow. exact Hge. }
  split; [|exact Hj].
  destruct (Nat.lt_ge_cases (Z.to_nat i) (length board)) as [Hlt|Hge]; [exact Hlt|].
  rewrite (nth_overflow board [] Hge) in Hj. cbn in Hj. lia.
Qed.

Lemma cell_setCell_same board i j v :
  AI.cell board i j <> AI.undefined -> AI.cell (AI.setCell board i j v) i j = v.
Proof.
  intros H. destruct (cell_in_array board i j H) as [Hi Hj].
  unfold AI.cell, AI.setCell.
  rewrite nth_update_eq by exact Hi. rewrite nth_update_eq by exact Hj. reflexivity.
Qed.

Lemma cell_setCell_other board i j v i' j' :
  0 <= i -> 0 <= j -> 0 <= i' -> 0 <= j' -> (i', j') <> (i, j) ->
  AI.cell (AI.setCell board i j v) i' j' = AI.cell board i' j'.
Proof.
  intros Hi Hj Hi' Hj' Hne. unfold AI.cell, AI.setCell.
  destruct (Z.eq_dec i' i) as [->|Hrow].
  - destruct (Nat.lt_ge_cases (Z.to_nat i) (length board)) as [Hlt|Hge].
    + rewrite nth_update_eq by exact Hlt. apply nth_update_ne.
      intros Heq. apply Hne. f_equal. lia.
    + rewrite !nth_overflow with (l := update _ _ board)
        by (rewrite update_length; exact Hge).
      rewrite (nth_overflow board [] Hge). reflexivity.
  - rewrite nth_update_ne by lia. reflexivity.
Qed.

Lemma NoDup_range lo n : NoDup (range lo n).
Proof.
  unfold range. apply Finite.Injective_map_NoDup; [|apply seq_NoDup].
  intros a b H. lia.
Qed.

Lemma NoDup_list_prod {A B} (l : list A) (l' : list B) :
  NoDup l -> NoDup l' -> NoDup (list_prod l l').
Proof.
  intros Hl Hl'. induction Hl as [|a l Ha Hl IH]; cbn; [constructor|].
  apply NoDup_app.
  - apply Finite.Injective_map_NoDup; [|exact Hl']. intros b b' H. congruence.
  - exact IH.
  - intros [a' b'] Hin Hin'. apply in_map_iff in Hin. destruct Hin as (b & Heq & _).
    inversion Heq; subst. apply in_prod_iff in Hin'. tauto.
Qed.

Lemma NoDup_cells : NoDup AI.cells.
Proof. apply NoDup_list_prod; apply NoDup_range. Qed.

(** Fewer items pass a filter that lets through no more and drops one. *)
Lemma filter_length_lt {A} (P Q : A -> bool) l a :
  In a l -> P a = true -> Q a = false ->
  (forall b, In b l -> Q b = true -> P b = true) ->
  (length (filter Q l) < length (filter P l))%nat.
Proof.
  intros Hin HP HQ Himp.
  assert (Hle : forall l', (forall b, In b l' -> Q b = true -> P b = true) ->
                           (length (filter Q l') <= length (filter P l'))%nat).
  { induction l' as [|b l' IH]; intros H; cbn; [lia|].
    assert (IH' := IH (fun c Hc => H c (or_intror Hc))).
    destruct (Q b) eqn:Eq.
    - rewrite (H b (or_introl eq_refl) Eq). cbn. lia.
    - destruct (P b); cbn; lia. }
  induction l as [|b l IH]; [contradiction|]. cbn.
  destruct Hin as [->|Hin].
  - rewrite HP, HQ. cbn.
    specialize (Hle l (fun c Hc => Himp c (or_intror Hc))). lia.
  - specialize (IH Hin (fun c Hc => Himp c (or_intror Hc))).
    destruct (Q b) eqn:Eq.
    + rewrite (Himp b (or_introl eq_refl) Eq). cbn. lia.
    + destruct (P b); cbn; lia.
Qed.

Lemma legal_in_array board m : Spec.legal board m ->
  AI.cell board (AI.x m) (AI.y m) <> AI.undefined.
Proof. intros [_ H]. rewrite H. discriminate. Qed.

(** A stone on a legal cell leaves one empty cell fewer. *)
Lemma emptyCount_place board m v :
  Spec.legal board m -> v <> AI.EMPTY ->
  (Spec.emptyCount (AI.setCell board (AI.x m) (AI.y m) v) < Spec.emptyCount board)%nat.
Proof.
  intros Hlegal Hv. pose proof Hlegal as [Hb Hc]. unfold Spec.emptyCount.
  apply filter_length_lt with (a := (AI.x m, AI.y m)).
  - apply In_cells. exact Hb.
  - rewrite Hc. reflexivity.
  - rewrite cell_setCell_same by (apply legal_in_array; exact Hlegal).
    apply Z.eqb_neq. exact Hv.
  - intros [i j] Hin H. apply In_cells in Hin. apply inBounds_iff in Hin, Hb.
    destruct (Z.eq_dec i (AI.x m)) as [->|Hi].
    + destruct (Z.eq_dec j (AI.y m)) as [->|Hj].
      * rewrite Hc. reflexivity.
      * rewrite cell_setCell_other in H by (try lia; congruence). exact H.
    + rewrite cell_setCell_other in H by (try lia; congruence). exact H.
Qed.

Lemma emptyCount_place_le board m v :
  Spec.legal board m ->
  (Spec.emptyCount (AI.setCell board (AI.x m) (AI.y m) v) <= Spec.emptyCount board)%nat.
Proof.
  intros Hlegal. destruct (Z.eq_dec v AI.EMPTY) as [->|Hv].
  - destruct Hlegal as [_ Hc]. rewrite <- Hc at 1.
    unfold AI.setCell, AI.cell.
    rewrite (update_same _ _ board []); [lia|].
    apply update_same with (d := AI.undefined). reflexivity.
  - apply Nat.lt_le_incl, emptyCount_place; assumption.
Qed.

Lemma emptyCount_bound board : (Spec.emptyCount board <= 225)%nat.
Proof.
  unfold Spec.emptyCount.
  etransitivity; [apply filter_length_le|]. vm_compute. lia.
Qed.

(** Putting a stone on a legal cell and taking it off restores the store. *)
Lemma place_restore s m v :
  Spec.legal (AI.board s) m -> AI.place (AI.place s m v) m AI.EMPTY = s.
Proof.
  intros [_ Hc]. destruct s as [b e c d]. unfold AI.place, AI.setBoard. cbn in *.
  rewrite setCell_restore by exact Hc. reflexivity.
Qed.

(** ** Candidate generation *)

Lemma fold_left_keeps {A B} (f : A -> B -> A) (I : A -> Prop) l a :
  (forall a x, I a -> I (f a x)) -> I a -> I (fold_left f l a).
Proof.
  intros Hf. revert a. induction l as [|x l IH]; intros a Ha; cbn; auto.
Qed.

(** A property that the step at [e] establishes and no step undoes holds
    when the loop is over. *)
Lemma fold_left_reaches {A B} (f : A -> B -> A) (I P : A -> Prop) l e a :
  In e l ->
  (forall a x, I a -> I (f a x)) ->
  (forall a, I a -> P (f a e)) ->
  (forall a x, I a -> P a -> P (f a x)) ->
  I a -> P (fold_left f l a).
Proof.
  intros Hin HI He HP. revert a. induction l as [|x l IH]; intros a Ha; [contradiction|].
  cbn. destruct Hin as [->|Hin].
  - apply (fold_left_keeps f (fun a => I a /\ P a)).
    + intros a' x' [Ha' Hp']. split; auto.
    + split; auto.
  - apply IH; auto.
Qed.

Lemma has_iff s key : AI.has s key = true <-> In key s.
Proof.
  unfold AI.has. rewrite existsb_exists. split.
  - intros (k & Hk & Heq). apply Z.eqb_eq in Heq. subst. exact Hk.
  - intros H. exists key. split; [exact H|apply Z.eqb_refl].
Qed.

Lemma visit_kept board i j acc d :
  Spec.candidatesKept board acc -> Spec.candidatesKept board (AI.visit board i j acc d).
Proof.
  intros [Hlegal Hkeys]. unfold AI.visit. destruct d as [di dj].
  destruct (AI.inBounds (i + di) (j + dj) && (AI.cell board (i + di) (j + dj) =? AI.EMPTY))
    eqn:Hok; [|split; assumption].
  destruct (negb (AI.has (AI.visited acc) ((i + di) * AI.BOARD_SIZE + (j + dj))));
    [|split; assumption].
  apply andb_true_iff in Hok. destruct Hok as [Hb Hc]. apply Z.eqb_eq in Hc.
  split; cbn [AI.candidates AI.visited].
  - intros m Hm. apply in_app_iff in Hm. destruct Hm as [Hm|[<-|[]]].
    + apply Hlegal, Hm.
    + split; assumption.
  - intros key [<-|Hkey].
    + exists (i + di), (j + dj). split; [exact Hb|]. split; [reflexivity|].
      apply in_app_iff. right. left. reflexivity.
    + destruct (Hkeys key Hkey) as (ni & nj & Hn & Hk & Hin).
      exists ni, nj. split; [exact Hn|]. split; [exact Hk|].
      apply in_app_iff. left. exact Hin.
Qed.

Lemma visit_grows board i j acc d m :
  In m (AI.candidates acc) -> In m (AI.candidates (AI.visit board i j acc d)).
Proof.
  intros H. unfold AI.visit. destruct d as [di dj].
  destruct (AI.inBounds _ _ && _); [|exact H].
  destruct (negb _); [|exact H]. cbn. apply in_app_iff. left. exact H.
Qed.

Lemma visit_hasStone board i j acc d :
  AI.hasStone (AI.visit board i j acc d) = AI.hasStone acc.
Proof.
  unfold AI.visit. destruct d as [di dj].
  destruct (AI.inBounds _ _ && _); [|reflexivity].
  destruct (negb _); reflexivity.
Qed.

(** The visit of a legal cell leaves it among the candidates. *)
Lemma visit_takes board i j acc di dj :
  Spec.candidatesKept board acc -> Spec.legal board (AI.mkMove (i + di) (j + dj)) ->
  In (AI.mkMove (i + di) (j + dj)) (AI.candidates (AI.visit board i j acc (di, dj))).
Proof.
  intros [_ Hkeys] [Hb Hc]. cbn [AI.x AI.y] in Hb, Hc. unfold AI.visit.
  rewrite Hb, Hc. cbn [andb Z.eqb AI.EMPTY].
  destruct (AI.has (AI.visited acc) ((i + di) * AI.BOARD_SIZE + (j + dj))) eqn:Hhas;
    cbn [negb].
  - apply has_iff in Hhas. destruct (Hkeys _ Hhas) as (ni & nj & Hn & Hk & Hin).
    apply inBounds_iff in Hn, Hb. unfold AI.BOARD_SIZE in Hk.
    assert (ni = i + di /\ nj = j + dj) as [-> ->] by lia. exact Hin.
  - cbn. apply in_app_iff. right. left. reflexivity.
Qed.

Lemma In_offsets radius d : In d (AI.offsets radius) <-> - radius <= d <= radius.
Proof. unfold AI.offsets. rewrite In_range. lia. Qed.

Lemma scanCell_kept board radius acc ij :
  Spec.candidatesKept board acc -> Spec.candidatesKept board (AI.scanCell board radius acc ij).
Proof.
  intros H. unfold AI.scanCell. destruct ij as [i j].
  destruct (negb (AI.cell board i j =? AI.EMPTY)); [|exact H].
  apply fold_left_keeps; [intros a d; apply visit_kept|]. exact H.
Qed.

Lemma scanCell_grows board radius acc ij m :
  In m (AI.candidates acc) -> In m (AI.candidates (AI.scanCell board radius acc ij)).
Proof.
  intros H. unfold AI.scanCell. destruct ij as [i j].
  destruct (negb (AI.cell board i j =? AI.EMPTY)); [|exact H].
  apply (fold_left_keeps _ (fun a => In m (AI.candidates a)));
    [intros a d; apply visit_grows|]. exact H.
Qed.

Lemma scanCell_hasStone board radius acc i j :
  AI.hasStone (AI.scanCell board radius acc (i, j))
  = AI.hasStone acc || negb (AI.cell board i j =? AI.EMPTY).
Proof.
  unfold AI.scanCell. destruct (negb (AI.cell board i j =? AI.EMPTY)).
  - rewrite orb_true_r.
    apply (fold_left_keeps _ (fun a => AI.hasStone a = true));
      [intros a d; rewrite visit_hasStone; auto|]. reflexivity.
  - rewrite orb_false_r. reflexivity.
Qed.

(** The scan of a stone leaves every legal cell near it among the candidates. *)
Lemma scanCell_takes board radius acc i j m :
  Spec.candidatesKept board acc -> Spec.legal board m ->
  AI.cell board i j <> AI.EMPTY ->
  Z.abs (AI.x m - i) <= radius -> Z.abs (AI.y m - j) <= radius ->
  In m (AI.candidates (AI.scanCell board radius acc (i, j))).
Proof.
  intros Hkept Hlegal Hstone Hx Hy. unfold AI.scanCell.
  apply Z.eqb_neq in Hstone. rewrite Hstone. cbn [negb].
  apply (fold_left_reaches _ (Spec.candidatesKept board)
                           (fun a => In m (AI.candidates a))
                           _ (AI.x m - i, AI.y m - j)).
  - apply in_prod_iff. rewrite !In_offsets. lia.
  - intros a d. apply visit_kept.
  - intros a Ha. destruct m as [mx my]. cbn [AI.x AI.y] in *.
    replace (AI.mkMove mx my) with (AI.mkMove (i + (mx - i)) (j + (my - j)))
      by (f_equal; lia).
    apply visit_takes; [exact Ha|].
    replace (i + (mx - i)) with mx by lia. replace (j + (my - j)) with my by lia.
    exact Hlegal.
  - intros a d _. apply visit_grows.
  - destruct Hkept as [H1 H2]. split; assumption.
Qed.

Lemma candidatesKept_start board :
  Spec.candidatesKept board (AI.mkCandidates [] [] false).
Proof. split; cbn; intros ? []. Qed.

(** The state of the loops of [generateCandidates] when they are over. *)
Lemma scan_all_kept board radius :
  Spec.candidatesKept board
    (fold_left (AI.scanCell board radius) AI.cells (AI.mkCandidates [] [] false)).
Proof.
  apply fold_left_keeps; [intros a ij; apply scanCell_kept|].
  apply candidatesKept_start.
Qed.

Lemma scan_all_hasStone board radius i j :
  AI.inBounds i j = true -> AI.cell board i j <> AI.EMPTY ->
  AI.hasStone (fold_left (AI.scanCell board radius) AI.cells
                         (AI.mkCandidates [] [] false)) = true.
Proof.
  intros Hb Hstone.
  apply (fold_left_reaches _ (fun _ => True) (fun a => AI.hasStone a = true) _ (i, j)).
  - apply In_cells, Hb.
  - auto.
  - intros a _. rewrite scanCell_hasStone. apply Z.eqb_neq in Hstone.
    rewrite Hstone. apply orb_true_r.
  - intros a [i' j'] _ Ha. rewrite scanCell_hasStone, Ha. reflexivity.
  - exact I.
Qed.

Lemma generateCandidates_eq board radius :
  AI.generateCandidates board radius
  = if negb (AI.hasStone (fold_left (AI.scanCell board radius) AI.cells
                                    (AI.mkCandidates [] [] false)))
    then [AI.mkMove AI.CENTER AI.CENTER]
    else AI.candidates (fold_left (AI.scanCell board radius) AI.cells
                                  (AI.mkCandidates [] [] false)).
Proof. reflexivity. Qed.

(** Every candidate is a legal move: a cell of the board that is empty. *)
Lemma generateCandidates_legal board radius m :
  In m (AI.generateCandidates board radius) -> Spec.legal board m.
Proof.
  rewrite generateCandidates_eq.
  destruct (AI.hasStone _) eqn:Hstone; cbn [negb].
  - apply (proj1 (scan_all_kept board radius)).
  - intros [<-|[]]. split; [reflexivity|]. cbn [AI.x AI.y].
    destruct (Z.eq_dec (AI.cell board AI.CENTER AI.CENTER) AI.EMPTY) as [H|H];
      [exact H|].
    rewrite (scan_all_hasStone board radius AI.CENTER AI.CENTER eq_refl H) in Hstone.
    discriminate.
Qed.

(** Every legal cell within the radius of a stone is a candidate. *)
Lemma generateCandidates_near board radius m i j :
  Spec.legal board m -> Spec.near board radius m i j ->
  In m (AI.generateCandidates board radius).
Proof.
  intros Hlegal (Hb & Hstone & Hx & Hy). rewrite generateCandidates_eq.
  rewrite (scan_all_hasStone board radius i j Hb Hstone). cbn [negb].
  apply (fold_left_reaches _ (Spec.candidatesKept board)
                           (fun a => In m (AI.candidates a)) _ (i, j)).
  - apply In_cells, Hb.
  - intros a ij. apply scanCell_kept.
  - intros a Ha. apply scanCell_takes; assumption.
  - intros a ij _. apply scanCell_grows.
  - apply candidatesKept_start.
Qed.




(** ** Ordering the candidates *)

Lemma In_insert {A} (cmp : A -> A -> float) a l x :
  In x (insert cmp a l) <-> x = a \/ In x l.
Proof.
  induction l as [|b l IH]; cbn; [intuition congruence|].
  destruct (0 <? cmp a b)%float; cbn; rewrite ?IH; intuition congruence.
Qed.

Lemma In_sort {A} (cmp : A -> A -> float) l x : In x (sort cmp l) <-> In x l.
Proof.
  unfold sort. induction l as [|a l IH]; cbn; [tauto|].
  rewrite In_insert, IH. intuition congruence.
Qed.

Lemma length_insert {A} (cmp : A -> A -> float) a l :
  length (insert cmp a l) = S (length l).
Proof.
  induction l as [|b l IH]; cbn; [reflexivity|].
  destruct (0 <? cmp a b)%float; cbn; rewrite ?IH; reflexivity.
Qed.

Lemma length_sort {A} (cmp : A -> A -> float) l : length (sort cmp l) = length l.
Proof.
  unfold sort. induction l as [|a l IH]; cbn; [reflexivity|].
  rewrite length_insert, IH. reflexivity.
Qed.

(** The ordered moves are the candidates, each once more, in another order. *)
Lemma getOrderedMoves_candidates board player radius m :
  In m (map AI.move (AI.getOrderedMoves board player radius))
  <-> In m (AI.generateCandidates board radius).
Proof.
  unfold AI.getOrderedMoves. rewrite in_map_iff. split.
  - intros (sm & <- & Hin). apply In_sort, in_map_iff in Hin.
    destruct Hin as (c & <- & Hc). exact Hc.
  - intros Hin. eexists. split; [|apply In_sort, in_map_iff; eexists; split;
                                   [reflexivity|exact Hin]]. reflexivity.
Qed.

Lemma getOrderedMoves_length board player radius :
  length (AI.getOrderedMoves board player radius)
  = length (AI.generateCandidates board radius).
Proof. unfold AI.getOrderedMoves. rewrite length_sort, length_map. reflexivity. Qed.

Lemma getOrderedMoves_legal board player radius sm :
  In sm (AI.getOrderedMoves board player radius) -> Spec.legal board (AI.move sm).
Proof.
  intros H. apply (generateCandidates_legal board radius).
  apply (proj1 (getOrderedMoves_candidates board player radius (AI.move sm))).
  apply in_map. exact H.
Qed.

Lemma In_slice0 {A} n (l : list A) a : In a (slice0 n l) -> In a l.
Proof.
  unfold slice0. revert n. induction l as [|b l IH]; intros [|n]; cbn; try tauto.
  intros [H|H]; [left; exact H|right; apply (IH n), H].
Qed.

(** ** The search restores the board *)

Section Search.
Variable now : nat -> Z.

Lemma board_place s m v :
  AI.board (AI.place s m v) = Spec.after (AI.board s) m v.
Proof. reflexivity. Qed.

Lemma after_restore board m v :
  Spec.legal board m -> Spec.after (Spec.after board m v) m AI.EMPTY = board.
Proof. intros [_ Hc]. apply setCell_restore. exact Hc. Qed.

Lemma board_timeCheck s : AI.board (snd (AI.timeCheck now s)) = AI.board s.
Proof.
  unfold AI.timeCheck. destruct (_ && _); [|reflexivity].
  cbn. destruct (_ >? _); reflexivity.
Qed.

(** The loops of [alphabeta], given that the recursive call restores every
    board with fewer than [bound] empty cells. *)
Lemma maxLoop_restores (recurse : AI.Recursion) bound depth mp cp moves :
  cp <> AI.EMPTY ->
  (forall d a b s', (Spec.emptyCount (AI.board s') < bound)%nat ->
                    Spec.restores (recurse d a b mp (AI.opponent cp) false s') s') ->
  forall value alpha beta s,
    (forall m, In m moves -> Spec.legal (AI.board s) (AI.move m)) ->
    (Spec.emptyCount (AI.board s) <= bound)%nat ->
    Spec.restores (AI.maxLoop recurse depth mp cp moves value alpha beta s) s.
Proof.
  intros Hcp Hrec. induction moves as [|m rest IH]; intros value alpha beta s Hlegal Hcount;
    cbn [AI.maxLoop].
  - eexists _, _. split; reflexivity.
  - assert (Hm : Spec.legal (AI.board s) (AI.move m)) by (apply Hlegal; left; reflexivity).
    destruct (Hrec (depth - 1) alpha beta (AI.place s (AI.move m) cp)) as (score & s2 & Hr & Hb).
    { rewrite board_place. pose proof (emptyCount_place _ _ cp Hm Hcp). 
      unfold Spec.after. lia. }
    rewrite Hr.
    assert (Hb3 : AI.board (AI.place s2 (AI.move m) AI.EMPTY) = AI.board s).
    { rewrite board_place, Hb, board_place. apply after_restore, Hm. }
    destruct (AI.timedOut (AI.this (AI.place s2 (AI.move m) AI.EMPTY))).
    { eexists _, _. split; [reflexivity|exact Hb3]. }
    destruct (_ <=? _)%float.
    { eexists _, _. split; [reflexivity|exact Hb3]. }
    destruct (IH (Math_max value score) (Math_max alpha (Math_max value score)) beta
                 (AI.place s2 (AI.move m) AI.EMPTY)) as (v & s4 & Hr4 & Hb4).
    + rewrite Hb3. intros m' Hm'. apply Hlegal. right. exact Hm'.
    + rewrite Hb3. exact Hcount.
    + eexists _, _. split; [exact Hr4|]. rewrite Hb4. exact Hb3.
Qed.

Lemma minLoop_restores (recurse : AI.Recursion) bound depth mp cp moves :
  cp <> AI.EMPTY ->
  (forall d a b s', (Spec.emptyCount (AI.board s') < bound)%nat ->
                    Spec.restores (recurse d a b mp (AI.opponent cp) true s') s') ->
  forall value alpha beta s,
    (forall m, In m moves -> Spec.legal (AI.board s) (AI.move m)) ->
    (Spec.emptyCount (AI.board s) <= bound)%nat ->
    Spec.restores (AI.minLoop recurse depth mp cp moves value alpha beta s) s.
Proof.
  intros Hcp Hrec. induction moves as [|m rest IH]; intros value alpha beta s Hlegal Hcount;
    cbn [AI.minLoop].
  - eexists _, _. split; reflexivity.
  - assert (Hm : Spec.legal (AI.board s) (AI.move m)) by (apply Hlegal; left; reflexivity).
    destruct (Hrec (depth - 1) alpha beta (AI.place s (AI.move m) cp)) as (score & s2 & Hr & Hb).
    { rewrite board_place. pose proof (emptyCount_place _ _ cp Hm Hcp).
      unfold Spec.after. lia. }
    rewrite Hr.
    assert (Hb3 : AI.board (AI.place s2 (AI.move m) AI.EMPTY) = AI.board s).
    { rewrite board_place, Hb, board_place. apply after_restore, Hm. }
    destruct (AI.timedOut (AI.this (AI.place s2 (AI.move m) AI.EMPTY))).
    { eexists _, _. split; [reflexivity|exact Hb3]. }
    destruct (_ <=? _)%float.
    { eexists _, _. split; [reflexivity|exact Hb3]. }
    destruct (IH (Math_min value score) alpha (Math_min beta (Math_min value score))
                 (AI.place s2 (AI.move m) AI.EMPTY)) as (v & s4 & Hr4 & Hb4).
    + rewrite Hb3. intros m' Hm'. apply Hlegal. right. exact Hm'.
    + rewrite Hb3. exact Hcount.
    + eexists _, _. split; [exact Hr4|]. rewrite Hb4. exact Hb3.
Qed.

Lemma opponent_not_empty p : AI.opponent p <> AI.EMPTY.
Proof. unfold AI.opponent. destruct (p =? AI.BLACK); discriminate. Qed.

(** [alphabeta] returns once its fuel exceeds the empty cells of the board,
    and the board it leaves is the board it was given. *)
Lemma alphabeta_restores fuel :
  forall depth alpha beta mp cp isMaximizing s,
    cp <> AI.EMPTY -> (Spec.emptyCount (AI.board s) < fuel)%nat ->
    Spec.restores (AI.alphabeta now fuel depth alpha beta mp cp isMaximizing s) s.
Proof.
  induction fuel as [|fuel IH]; intros depth alpha beta mp cp isMaximizing s Hcp Hcount;
    [lia|].
  cbn [AI.alphabeta].
  set (s1 := AI.setThis s _).
  assert (Hb1 : AI.board s1 = AI.board s) by reflexivity.
  pose proof (board_timeCheck s1) as Hb2.
  destruct (AI.timeCheck now s1) as [expired s2]. cbn [snd] in Hb2.
  rewrite Hb1 in Hb2.
  destruct expired; [eexists _, _; split; [reflexivity|exact Hb2]|].
  destruct (AI.timedOut (AI.this s2)); [eexists _, _; split; [reflexivity|exact Hb2]|].
  destruct (AI.checkWin (AI.board s2) mp);
    [eexists _, _; split; [reflexivity|exact Hb2]|].
  destruct (AI.checkWin (AI.board s2) (AI.opponent mp));
    [eexists _, _; split; [reflexivity|exact Hb2]|].
  destruct ((depth =? 0) || AI.isBoardFull (AI.board s2));
    [eexists _, _; split; [reflexivity|exact Hb2]|].
  cbv zeta.
  set (moves := slice0 _ (AI.getOrderedMoves (AI.board s2) cp 2)).
  assert (Hlegal : forall m, In m moves -> Spec.legal (AI.board s2) (AI.move m)).
  { intros m Hm. apply In_slice0 in Hm. eapply getOrderedMoves_legal, Hm. }
  destruct (length moves =? 0)%nat;
    [eexists _, _; split; [reflexivity|exact Hb2]|].
  destruct isMaximizing.
  - destruct (maxLoop_restores (AI.alphabeta now fuel) fuel depth mp cp moves Hcp
                (fun d a b s' H => IH d a b mp (AI.opponent cp) false s'
                                      (opponent_not_empty cp) H)
                (- AI.INF)%float alpha beta s2 Hlegal) as (v & s3 & Hr & Hb3).
    { rewrite Hb2. lia. }
    eexists _, _. split; [exact Hr|]. rewrite Hb3. exact Hb2.
  - destruct (minLoop_restores (AI.alphabeta now fuel) fuel depth mp cp moves Hcp
                (fun d a b s' H => IH d a b mp (AI.opponent cp) true s'
                                      (opponent_not_empty cp) H)
                AI.INF alpha beta s2 Hlegal) as (v & s3 & Hr & Hb3).
    { rewrite Hb2. lia. }
    eexists _, _. split; [exact Hr|]. rewrite Hb3. exact Hb2.
Qed.

(** The shortcut scans leave the store as they found it; they return the
    first move after which [who] has five, if there is one. *)
Lemma probeMoves_spec who moves :
  forall s, (forall m, In m moves -> Spec.legal (AI.board s) m) ->
    snd (AI.probeMoves who moves s) = s
    /\ match fst (AI.probeMoves who moves s) with
       | Some m => In m moves
                   /\ AI.checkWin (Spec.after (AI.board s) m who) who = true
       | None => forall m, In m moves ->
                           AI.checkWin (Spec.after (AI.board s) m who) who = false
       end.
Proof.
  induction moves as [|m rest IH]; intros s Hlegal; cbn [AI.probeMoves].
  - split; [reflexivity|]. cbn. intros m [].
  - assert (Hm : Spec.legal (AI.board s) m) by (apply Hlegal; left; reflexivity).
    rewrite board_place, place_restore by exact Hm.
    destruct (AI.checkWin (Spec.after (AI.board s) m who) who) eqn:Hwin; cbn [fst snd].
    + split; [reflexivity|]. split; [left; reflexivity|exact Hwin].
    + destruct (IH s (fun m' Hm' => Hlegal m' (or_intror Hm'))) as [Hs Hr].
      split; [exact Hs|].
      destruct (fst (AI.probeMoves who rest s)) as [m'|].
      * destruct Hr as [Hin Hw]. split; [right; exact Hin|exact Hw].
      * intros m' [<-|Hm']; [exact Hwin|apply Hr, Hm'].
Qed.

(** The loop over the root candidates returns, restores the board, and its
    best move is one of the candidates (or the one it started with). *)
Lemma rootLoop_restores fuel player depth topMoves :
  forall bestMove bestScore s,
    (forall m, In m topMoves -> Spec.legal (AI.board s) (AI.move m)) ->
    (Spec.emptyCount (AI.board s) < fuel)%nat ->
    exists best score s',
      AI.rootLoop now fuel player depth topMoves bestMove bestScore s
      = Some (best, score, s')
      /\ AI.board s' = AI.board s
      /\ (best = bestMove \/ In best topMoves).
Proof.
  induction topMoves as [|m rest IH]; intros bestMove bestScore s Hlegal Hcount;
    cbn [AI.rootLoop].
  - eexists _, _, _. split; [reflexivity|]. split; [reflexivity|left; reflexivity].
  - assert (Hm : Spec.legal (AI.board s) (AI.move m)) by (apply Hlegal; left; reflexivity).
    destruct (alphabeta_restores fuel (depth - 1) (- AI.INF)%float AI.INF player
                (AI.opponent player) false (AI.place s (AI.move m) player)
                (opponent_not_empty player)) as (score & s2 & Hr & Hb).
    { rewrite board_place. pose proof (emptyCount_place_le _ _ player Hm).
      unfold Spec.after. lia. }
    rewrite Hr.
    assert (Hb3 : AI.board (AI.place s2 (AI.move m) AI.EMPTY) = AI.board s).
    { rewrite board_place, Hb, board_place. apply after_restore, Hm. }
    destruct (AI.timedOut (AI.this (AI.place s2 (AI.move m) AI.EMPTY))).
    { eexists _, _, _. split; [reflexivity|]. split; [exact Hb3|left; reflexivity]. }
    destruct (bestScore <? score)%float.
    + destruct (IH m score (AI.place s2 (AI.move m) AI.EMPTY))
        as (best & sc & s4 & Hr4 & Hb4 & Hin).
      * rewrite Hb3. intros m' Hm'. apply Hlegal. right. exact Hm'.
      * rewrite Hb3. exact Hcount.
      * eexists _, _, _. split; [exact Hr4|]. split; [rewrite Hb4; exact Hb3|].
        right. destruct Hin as [->|Hin]; [left; reflexivity|right; exact Hin].
    + destruct (IH bestMove bestScore (AI.place s2 (AI.move m) AI.EMPTY))
        as (best & sc & s4 & Hr4 & Hb4 & Hin).
      * rewrite Hb3. intros m' Hm'. apply Hlegal. right. exact Hm'.
      * rewrite Hb3. exact Hcount.
      * eexists _, _, _. split; [exact Hr4|]. split; [rewrite Hb4; exact Hb3|].
        destruct Hin as [->|Hin]; [left; reflexivity|right; right; exact Hin].
Qed.

Lemma ordered_nil board player :
  AI.getOrderedMoves board player 2 = [] -> AI.generateCandidates board 2 = [].
Proof.
  intros H. apply length_zero_iff_nil.
  rewrite <- (getOrderedMoves_length board player 2), H. reflexivity.
Qed.

Lemma findBestMove_spec fuel player depth timeLimitMs advancedEval s :
  (Spec.emptyCount (AI.board s) < fuel)%nat ->
  exists m s',
    AI.findBestMove now fuel player depth timeLimitMs advancedEval s = Some (m, s')
    /\ AI.board s' = AI.board s /\ Spec.answers (AI.board s) player m.
Proof.
  intros Hcount. unfold AI.findBestMove, AI.DateNow.
  set (s1 := AI.setThis _ _).
  assert (Hb1 : AI.board s1 = AI.board s) by reflexivity. rewrite Hb1.
  pose proof (getOrderedMoves_candidates (AI.board s) player 2) as Hcand.
  pose proof (fun sm => getOrderedMoves_legal (AI.board s) player 2 sm) as Hlegal.
  pose proof (ordered_nil (AI.board s) player) as Hnil.
  destruct (AI.getOrderedMoves (AI.board s) player 2) as [|first [|second rest]] eqn:Hmoves.
  - eexists _, _. split; [reflexivity|]. split; [exact Hb1|]. split.
    + right. split; [apply Hnil; reflexivity|reflexivity].
    + intros (c & Hc & _). rewrite Hnil in Hc by reflexivity. contradiction.
  - eexists _, _. split; [reflexivity|]. split; [exact Hb1|]. split.
    + left. apply Hcand. left. reflexivity.
    + intros (c & Hc & Hw). apply Hcand in Hc. destruct Hc as [<-|[]]. exact Hw.
  - set (moves := first :: second :: rest) in *.
    assert (Hl1 : forall m, In m (map AI.move moves) -> Spec.legal (AI.board s1) m).
    { intros m Hm. apply in_map_iff in Hm. destruct Hm as (sm & <- & Hsm).
      apply Hlegal, Hsm. }
    destruct (probeMoves_spec player (map AI.move moves) s1 Hl1) as [Hs2 Hr2].
    rewrite Hb1 in Hr2.
    destruct (AI.probeMoves player (map AI.move moves) s1) as [[m|] s2];
      cbn [fst snd] in Hs2, Hr2; subst s2.
    { destruct Hr2 as [Hin Hw]. eexists _, _. split; [reflexivity|].
      split; [exact Hb1|]. split; [left; apply Hcand, Hin|intros _; exact Hw]. }
    assert (Hnowin : ~ exists c, In c (AI.generateCandidates (AI.board s) 2)
                                 /\ AI.checkWin (Spec.after (AI.board s) c player) player
                                    = true).
    { intros (c & Hc & Hw). apply Hcand in Hc. rewrite (Hr2 c Hc) in Hw. discriminate. }
    destruct (probeMoves_spec (AI.opponent player) (map AI.move moves) s1 Hl1)
      as [Hs3 Hr3].
    rewrite Hb1 in Hr3.
    destruct (AI.probeMoves (AI.opponent player) (map AI.move moves) s1) as [[m|] s3];
      cbn [fst snd] in Hs3, Hr3; subst s3.
    { destruct Hr3 as [Hin Hw]. eexists _, _. split; [reflexivity|].
      split; [exact Hb1|]. split; [left; apply Hcand, Hin|].
      intros H. contradiction. }
    destruct (rootLoop_restores fuel player depth
                (slice0 (Nat.min (length moves) 20) moves) first (- AI.INF)%float s1)
      as (best & score & s4 & Hr4 & Hb4 & Hin4).
    { intros m Hm. apply In_slice0 in Hm. apply Hlegal, Hm. }
    { exact Hcount. }
    rewrite Hr4. eexists _, _. split; [reflexivity|]. split; [exact Hb4|]. split.
    + left. apply Hcand. apply in_map.
      destruct Hin4 as [->|Hin4]; [left; reflexivity|apply In_slice0 in Hin4; exact Hin4].
    + intros H. contradiction.
Qed.

Lemma board_afterDepth timeLimitMs bestMove depthBestMove depthBestScore s :
  AI.board (snd (AI.afterDepth now timeLimitMs bestMove depthBestMove depthBestScore s))
  = AI.board s.
Proof.
  unfold AI.afterDepth. destruct (_ <=? _)%float; [reflexivity|].
  cbn. destruct (_ <? _)%float; reflexivity.
Qed.

Lemma best_afterDepth timeLimitMs bestMove depthBestMove depthBestScore s :
  let r := fst (fst (AI.afterDepth now timeLimitMs bestMove depthBestMove
                                   depthBestScore s)) in
  r = bestMove \/ r = Some (AI.move depthBestMove).
Proof.
  unfold AI.afterDepth. destruct (negb _); destruct (_ <=? _)%float; cbn;
    try (destruct (_ <? _)%float; cbn); auto.
Qed.

(** The deepening loop returns, restores the board, and its answer is the
    answer it started with or one of the root candidates. *)
Lemma deepen_restores fuel player timeLimitMs moves first rounds :
  forall depth bestMove s,
    (forall m, In m moves -> Spec.legal (AI.board s) (AI.move m)) ->
    (Spec.emptyCount (AI.board s) < fuel)%nat ->
    exists r s',
      AI.deepen now fuel player timeLimitMs moves first rounds depth bestMove s
      = Some (r, s')
      /\ AI.board s' = AI.board s
      /\ (r = bestMove \/ r = Some (AI.move first)
          \/ exists sm, In sm moves /\ r = Some (AI.move sm)).
Proof.
  induction rounds as [|rounds IH]; intros depth bestMove s Hlegal Hcount;
    cbn [AI.deepen].
  - eexists _, _. split; [reflexivity|]. split; [reflexivity|left; reflexivity].
  - set (s1 := AI.setThis s _).
    destruct (rootLoop_restores fuel player depth (slice0 20 moves) first
                                (- AI.INF)%float s1)
      as (best & score & s2 & Hr2 & Hb2 & Hin2).
    { intros m Hm. apply In_slice0 in Hm. apply Hlegal, Hm. }
    { exact Hcount. }
    rewrite Hr2.
    pose proof (board_afterDepth timeLimitMs bestMove best score s2) as Hb3.
    pose proof (best_afterDepth timeLimitMs bestMove best score s2) as Hbest.
    cbv zeta in Hbest.
    destruct (AI.afterDepth now timeLimitMs bestMove best score s2) as [[bm go] s3].
    cbn [fst snd] in Hb3, Hbest.
    assert (Hbm : bm = bestMove \/ bm = Some (AI.move first)
                  \/ exists sm, In sm moves /\ bm = Some (AI.move sm)).
    { destruct Hbest as [->| ->]; [left; reflexivity|]. right.
      destruct Hin2 as [->|Hin2]; [left; reflexivity|].
      right. exists best. split; [apply In_slice0 in Hin2; exact Hin2|reflexivity]. }
    assert (Hb13 : AI.board s3 = AI.board s) by (rewrite Hb3, Hb2; reflexivity).
    destruct go.
    + destruct (IH (depth + 1) bm s3) as (r & s4 & Hr4 & Hb4 & Hin4).
      * rewrite Hb13. exact Hlegal.
      * rewrite Hb13. exact Hcount.
      * eexists _, _. split; [exact Hr4|]. split; [rewrite Hb4; exact Hb13|].
        destruct Hin4 as [->|Hin4]; [exact Hbm|right; exact Hin4].
    + eexists _, _. split; [reflexivity|]. split; [exact Hb13|exact Hbm].
Qed.

Lemma findBestMoveIterative_spec fuel player maxDepth timeLimitMs advancedEval s :
  (Spec.emptyCount (AI.board s) < fuel)%nat ->
  exists m s',
    AI.findBestMoveIterative now fuel player maxDepth timeLimitMs advancedEval s
    = Some (m, s')
    /\ AI.board s' = AI.board s /\ Spec.answers (AI.board s) player m.
Proof.
  intros Hcount. unfold AI.findBestMoveIterative, AI.DateNow.
  set (s1 := AI.setThis _ _).
  assert (Hb1 : AI.board s1 = AI.board s) by reflexivity. rewrite Hb1.
  pose proof (getOrderedMoves_candidates (AI.board s) player 2) as Hcand.
  pose proof (fun sm => getOrderedMoves_legal (AI.board s) player 2 sm) as Hlegal.
  pose proof (ordered_nil (AI.board s) player) as Hnil.
  destruct (AI.getOrderedMoves (AI.board s) player 2) as [|first rest] eqn:Hmoves.
  - eexists _, _. split; [reflexivity|]. split; [exact Hb1|]. split.
    + right. split; [apply Hnil; reflexivity|reflexivity].
    + intros (c & Hc & _). rewrite Hnil in Hc by reflexivity. contradiction.
  - set (moves := first :: rest) in *.
    assert (Hl1 : forall m, In m (map AI.move moves) -> Spec.legal (AI.board s1) m).
    { intros m Hm. apply in_map_iff in Hm. destruct Hm as (sm & <- & Hsm).
      apply Hlegal, Hsm. }
    destruct (probeMoves_spec player (map AI.move moves) s1 Hl1) as [Hs2 Hr2].
    rewrite Hb1 in Hr2.
    destruct (AI.probeMoves player (map AI.move moves) s1) as [[m|] s2];
      cbn [fst snd] in Hs2, Hr2; subst s2.
    { destruct Hr2 as [Hin Hw]. eexists _, _. split; [reflexivity|].
      split; [exact Hb1|]. split; [left; apply Hcand, Hin|intros _; exact Hw]. }
    assert (Hnowin : ~ exists c, In c (AI.generateCandidates (AI.board s) 2)
                                 /\ AI.checkWin (Spec.after (AI.board s) c player) player
                                    = true).
    { intros (c & Hc & Hw). apply Hcand in Hc. rewrite (Hr2 c Hc) in Hw. discriminate. }
    destruct (probeMoves_spec (AI.opponent player) (map AI.move moves) s1 Hl1)
      as [Hs3 Hr3].
    rewrite Hb1 in Hr3.
    destruct (AI.probeMoves (AI.opponent player) (map AI.move moves) s1) as [[m|] s3];
      cbn [fst snd] in Hs3, Hr3; subst s3.
    { destruct Hr3 as [Hin Hw]. eexists _, _. split; [reflexivity|].
      split; [exact Hb1|]. split; [left; apply Hcand, Hin|].
      intros H. contradiction. }
    destruct (deepen_restores fuel player timeLimitMs moves first (Z.to_nat maxDepth)
                              1 None s1)
      as (r & s4 & Hr4 & Hb4 & Hin4).
    { intros m Hm. apply Hlegal, Hm. }
    { exact Hcount. }
    rewrite Hr4.
    assert (Hfirst : In (AI.move first) (AI.generateCandidates (AI.board s) 2)).
    { apply Hcand. left. reflexivity. }
    destruct r as [m|].
    + eexists _, _. split; [reflexivity|]. split; [exact Hb4|]. split.
      * left. destruct Hin4 as [H|[H|(sm & Hsm & H)]]; [discriminate| |];
          inversion H; subst; [exact Hfirst|].
        apply Hcand. apply in_map. exact Hsm.
      * intros H. contradiction.
    + eexists _, _. split; [reflexivity|]. split; [exact Hb4|]. split.
      * left. exact Hfirst.
      * intros H. contradiction.
Qed.

End Search.

(** ** The search drivers *)

(** C2.  [findBestMove] and [findBestMoveIterative] return -- whatever the
    board, the player, the depth, the time limit and the clock, timed out or
    not -- and the board they leave is the board they were given: every
    stone put down by the shortcut probes and by the search is taken off. *)
Theorem search_restores_board now fuel player depth maxDepth timeLimitMs advancedEval s :
  (225 < fuel)%nat ->
  (exists m s',
      AI.findBestMove now fuel player depth timeLimitMs advancedEval s = Some (m, s')
      /\ AI.board s' = AI.board s)
  /\ (exists m s',
         AI.findBestMoveIterative now fuel player maxDepth timeLimitMs advancedEval s
         = Some (m, s')
         /\ AI.board s' = AI.board s).
Proof.
  intros Hfuel. pose proof (emptyCount_bound (AI.board s)) as Hbound.
  assert (Hcount : (Spec.emptyCount (AI.board s) < fuel)%nat) by lia.
  split.
  - destruct (findBestMove_spec now fuel player depth timeLimitMs advancedEval s Hcount)
      as (m & s' & Hr & Hb & _).
    exists m, s'. split; assumption.
  - destruct (findBestMoveIterative_spec now fuel player maxDepth timeLimitMs
                                         advancedEval s Hcount)
      as (m & s' & Hr & Hb & _).
    exists m, s'. split; assumption.
Qed.

Lemma search_restores_board_witness :
  (exists m s',
      AI.findBestMove Positions.frozen 226 AI.BLACK 2 1000 false
                      (Positions.start Positions.openThree) = Some (m, s')
      /\ AI.board s' = AI.board (Positions.start Positions.openThree))
  /\ (exists m s',
         AI.findBestMoveIterative Positions.frozen 226 AI.BLACK 6 1000 false
                                  (Positions.start Positions.openThree) = Some (m, s')
         /\ AI.board s' = AI.board (Positions.start Positions.openThree)).
Proof.
  apply (search_restores_board Positions.frozen 226 AI.BLACK 2 6 1000 false
                               (Positions.start Positions.openThree)).
  lia.
Defined.

(** ** The difficulty strategies *)

Section Strategies.
Variable now : nat -> Z.
Variable random : nat -> Q.


Lemma board_MathRandom s : AI.board (snd (AI.MathRandom random s)) = AI.board s.
Proof. reflexivity. Qed.






Lemma randomElement_In arr s m :
  fst (AI.randomElement random arr s) = Some m -> In m arr.
Proof.
  unfold AI.randomElement, AI.MathRandom. cbn [fst].
  destruct (_ <? 0); [discriminate|]. apply nth_error_In.
Qed.

Lemma sumZ_count {A} (P : A -> bool) l :
  Spec.sumZ (map (fun a => if P a then 1 else 0) l) = Z.of_nat (length (filter P l)).
Proof.
  unfold Spec.sumZ. induction l as [|a l IH]; cbn [map fold_right filter]; [reflexivity|].
  rewrite IH. destruct (P a); cbn [length]; lia.
Qed.

(** [countStones] counts the cells of the board that are not empty. *)
Lemma countStones_filter board :
  AI.countStones board
  = Z.of_nat (length (filter (fun '(i, j) => negb (AI.cell board i j =? AI.EMPTY))
                             AI.cells)).
Proof.
  unfold AI.countStones.
  rewrite (fold_left_acc _ (fun ij => if (let '(i, j) := ij in
                                          negb (AI.cell board i j =? AI.EMPTY))
                                      then 1 else 0)).
  - rewrite sumZ_count. cbn [Z.add]. reflexivity.
  - intros a [i j] _. destruct (negb _); lia.
Qed.


(** As many stones as there are distinct cells known to hold one. *)
Lemma countStones_ge board (l : list (Z * Z)) :
  NoDup l ->
  (forall i j, In (i, j) l -> AI.inBounds i j = true /\ AI.cell board i j <> AI.EMPTY) ->
  Z.of_nat (length l) <= AI.countStones board.
Proof.
  intros Hnd Hl. rewrite countStones_filter. apply Nat2Z.inj_le.
  apply NoDup_incl_length; [exact Hnd|].
  intros [i j] Hin. destruct (Hl i j Hin) as [Hb Hc].
  apply filter_In. split; [apply In_cells, Hb|].
  apply negb_true_iff, Z.eqb_neq. exact Hc.
Qed.

Lemma consultBook_cons entry rest player s :
  AI.consultBook random (entry :: rest) player s
  = if AI.condition entry (AI.board s) then
      match AI.outcome entry with
      | AI.FixedMove m => (Some (Some m), s)
      | AI.AnyOf ms =>
          let valid :=
            filter (fun m => AI.cell (AI.board s) (AI.x m) (AI.y m) =? AI.EMPTY) ms in
          if (0 <? length valid)%nat then
            let '(v, s) := AI.randomElement random valid s in (Some v, s)
          else AI.consultBook random rest player s
      | AI.Generator g =>
          match g player s with
          | (Some m, s) => (Some (Some m), s)
          | (None, s) => AI.consultBook random rest player s
          end
      end
    else AI.consultBook random rest player s.
Proof. reflexivity. Qed.



Lemma consultBook_late player s :
  3 <= AI.countStones (AI.board s) ->
  AI.consultBook random (AI.OPENING_BOOK random) player s = (None, s).
Proof.
  intros H. unfold AI.OPENING_BOOK.
  rewrite !consultBook_cons. cbn [AI.condition AI.outcome AI.consultBook].
  destruct (AI.countStones (AI.board s) =? 0) eqn:E0; [lia|].
  destruct (AI.countStones (AI.board s) =? 1) eqn:E1; [lia|].
  destruct (AI.countStones (AI.board s) =? 2) eqn:E2; [lia|].
  reflexivity.
Qed.

End Strategies.

(** ** One stone from five *)

Lemma completesFive_cells board player w i j dx dy kw k :
  In (dx, dy) AI.DIRECTIONS ->
  AI.x w = i + dx * kw -> AI.y w = j + dy * kw ->
  (AI.inBounds (i + dx * k) (j + dy * k) = true
   /\ ((i + dx * k = AI.x w /\ j + dy * k = AI.y w)
       \/ AI.cell board (i + dx * k) (j + dy * k) = player)) ->
  k <> kw ->
  Spec.owns board player (i + dx * k) (j + dy * k).
Proof.
  intros Hd Hx Hy [Hb [[Hkx Hky]|Hc]] Hne; [|split; assumption].
  exfalso. apply AI_DIRECTIONS_unit in Hd. unfold Spec.unitStep in Hd. nia.
Qed.

(** The stone that completes five gives five. *)
Lemma completesFive_wins board player w :
  Spec.legal board w -> Spec.completesFive board player w ->
  AI.checkWin (Spec.after board w player) player = true.
Proof.
  intros Hlegal (i & j & dx & dy & Hd & (kw & Hkw & Hx & Hy) & Hall).
  apply checkWin_iff. exists i, j, dx, dy. split; [exact Hd|].
  intros k Hk. destruct (Hall k Hk) as [Hb Hcase]. split; [exact Hb|].
  pose proof Hlegal as [Hwb Hwc]. apply inBounds_iff in Hwb. unfold Spec.after.
  destruct Hcase as [[Hkx Hky]|Hc].
  - rewrite Hkx, Hky. apply cell_setCell_same, legal_in_array, Hlegal.
  - destruct (Z.eq_dec (i + dx * k) (AI.x w)) as [Hex|Hex];
      [destruct (Z.eq_dec (j + dy * k) (AI.y w)) as [Hey|Hey]|].
    + rewrite Hex, Hey. apply cell_setCell_same, legal_in_array, Hlegal.
    + apply inBounds_iff in Hb. rewrite cell_setCell_other by (try lia; congruence).
      exact Hc.
    + apply inBounds_iff in Hb. rewrite cell_setCell_other by (try lia; congruence).
      exact Hc.
Qed.

(** The cell that completes five is beside a stone. *)
Lemma completesFive_near board player w :
  player <> AI.EMPTY -> Spec.completesFive board player w ->
  exists i j, Spec.near board 1 w i j.
Proof.
  intros Hp (i & j & dx & dy & Hd & (kw & Hkw & Hx & Hy) & Hall).
  set (k := if kw <? 4 then kw + 1 else kw - 1).
  assert (Hk : 0 <= k < 5 /\ k <> kw /\ Z.abs (kw - k) = 1)
    by (subst k; destruct (kw <? 4) eqn:E; lia).
  destruct Hk as (Hk & Hne & Habs).
  destruct (completesFive_cells board player w i j dx dy kw k Hd Hx Hy (Hall k Hk) Hne)
    as [Hb Hc].
  exists (i + dx * k), (j + dy * k). split; [exact Hb|]. split; [congruence|].
  apply AI_DIRECTIONS_unit in Hd. unfold Spec.unitStep in Hd. rewrite Hx, Hy.
  split; nia.
Qed.

(** A board one stone from five holds at least three stones. *)
Lemma completesFive_count board player w :
  player <> AI.EMPTY -> Spec.completesFive board player w ->
  3 <= AI.countStones board.
Proof.
  intros Hp (i & j & dx & dy & Hd & (kw & Hkw & Hx & Hy) & Hall).
  set (ks := filter (fun k => negb (k =? kw)) (range 0 5)).
  set (l := map (fun k => (i + dx * k, j + dy * k)) ks).
  assert (Hks : forall k, In k ks <-> 0 <= k < 5 /\ k <> kw).
  { intros k. subst ks. rewrite filter_In, In_range, negb_true_iff, Z.eqb_neq. lia. }
  assert (Hlen : (3 <= length l)%nat).
  { subst l ks. rewrite length_map.
    assert (Hcases : kw = 0 \/ kw = 1 \/ kw = 2 \/ kw = 3 \/ kw = 4) by lia.
    destruct Hcases as [->|[->|[->|[->| ->]]]]; cbn; lia. }
  assert (Hge : Z.of_nat (length l) <= AI.countStones board).
  { apply countStones_ge.
    - subst l. apply Finite.Injective_map_NoDup_in.
      + intros k k' Hin Hin' Heq. inversion Heq.
        apply AI_DIRECTIONS_unit in Hd. unfold Spec.unitStep in Hd. nia.
      + subst ks. apply NoDup_filter, NoDup_range.
    - intros a b Hin. subst l. apply in_map_iff in Hin.
      destruct Hin as (k & Heq & Hk). inversion Heq; subst a b.
      apply Hks in Hk. destruct Hk as [Hk Hne].
      destruct (completesFive_cells board player w i j dx dy kw k Hd Hx Hy (Hall k Hk) Hne)
        as [Hb Hc].
      split; [exact Hb|congruence]. }
  lia.
Qed.

(** ** What [getMove] returns *)

Section GetMove.
Variable now : nat -> Z.
Variable random : nat -> Q.



Lemma legal_board_length board e :
  Spec.legal board e -> (length board =? 0)%nat = false.
Proof.
  intros [_ Hc]. destruct board as [|row rows]; [|reflexivity].
  unfold AI.cell in Hc. destruct (Z.to_nat (AI.x e)), (Z.to_nat (AI.y e)); discriminate.
Qed.






End GetMove.

(** ** Iterative deepening *)

Section Deepening.
Variable now : nat -> Z.

Lemma deeper_next acc o depth :
  (forall a, acc = Some a -> Spec.searched a < depth) -> Spec.searched o = depth ->
  option_map Spec.found (Spec.deeper acc o)
  = (if Spec.completed o then Some (Spec.found o) else option_map Spec.found acc)
  /\ (forall a, Spec.deeper acc o = Some a -> Spec.searched a < depth + 1).
Proof.
  intros Hacc Ho. unfold Spec.deeper. destruct (Spec.completed o).
  - destruct acc as [a|].
    + specialize (Hacc a eq_refl).
      destruct (Spec.searched a <? Spec.searched o) eqn:E; [|lia].
      split; [reflexivity|]. intros a' [= <-]. lia.
    + split; [reflexivity|]. intros a' [= <-]. lia.
  - split; [reflexivity|]. intros a Ha. specialize (Hacc a Ha). lia.
Qed.

(** The answer the deepening loop carries is the best move of the deepest
    completed depth among those searched so far. *)
Lemma deepen_outcomes fuel player timeLimitMs moves first rounds :
  forall depth acc s,
    (forall a, acc = Some a -> Spec.searched a < depth) ->
    match AI.deepen now fuel player timeLimitMs moves first rounds depth
                    (option_map Spec.found acc) s with
    | Some (r, _) =>
        exists outcomes,
          Spec.depthsSearched now fuel player timeLimitMs moves first rounds depth s
          = Some outcomes
          /\ r = option_map Spec.found (fold_left Spec.deeper outcomes acc)
    | None =>
        Spec.depthsSearched now fuel player timeLimitMs moves first rounds depth s = None
    end.
Proof.
  induction rounds as [|rounds IH]; intros depth acc s Hacc;
    cbn [AI.deepen Spec.depthsSearched].
  - exists []. split; reflexivity.
  - set (s1 := AI.setThis s _).
    destruct (AI.rootLoop now fuel player depth (slice0 20 moves) first
                          (- AI.INF)%float s1) as [[[best score] s2]|]; [|reflexivity].
    unfold AI.afterDepth. cbv zeta.
    set (o := Spec.mkOutcome depth (AI.move best) score (negb (AI.timedOut (AI.this s2)))).
    destruct (deeper_next acc o depth Hacc eq_refl) as [Hfound Hnext].
    cbn [Spec.completed Spec.found o] in Hfound.
    destruct (AI.WIN_SCORE <=? score)%float.
    { exists [o]. split; [reflexivity|]. cbn [fold_left]. rewrite Hfound. reflexivity. }
    unfold AI.DateNow. cbn [AI.this AI.startTime].
    destruct (_ <? _)%float.
    { exists [o]. split; [reflexivity|]. cbn [fold_left]. rewrite Hfound. reflexivity. }
    rewrite <- Hfound.
    specialize (IH (depth + 1) (Spec.deeper acc o)
                   (AI.mkSt (AI.board s2) (AI.this s2) (S (AI.clock s2)) (AI.dice s2))
                   Hnext).
    destruct (AI.deepen now fuel player timeLimitMs moves first rounds (depth + 1)
                        (option_map Spec.found (Spec.deeper acc o)) _) as [[r s3]|].
    + destruct IH as (later & Hlater & Hr). rewrite Hlater.
      exists (o :: later). split; [reflexivity|]. exact Hr.
    + rewrite IH. reflexivity.
Qed.

(** What [findBestMoveIterative] returns, case by case: the first candidate
    that gives the mover five; else the first that would give the opponent
    five; else what the deepening found. *)
Lemma findBestMoveIterative_cases fuel player maxDepth timeLimitMs advancedEval s :
  (225 < fuel)%nat ->
  let wins who c := AI.checkWin (Spec.after (AI.board s) c who) who in
  let candidates := AI.generateCandidates (AI.board s) 2 in
  exists m s',
    AI.findBestMoveIterative now fuel player maxDepth timeLimitMs advancedEval s
    = Some (m, s')
    /\ ((In m candidates /\ wins player m = true)
        \/ ((forall c, In c candidates -> wins player c = false)
            /\ In m candidates /\ wins (AI.opponent player) m = true)
        \/ ((forall c, In c candidates ->
                       wins player c = false /\ wins (AI.opponent player) c = false)
            /\ Spec.iterativeAsClaimed now fuel player maxDepth timeLimitMs
                                       advancedEval s = Some m)).
Proof.
  intros Hfuel. cbv zeta.
  pose proof (emptyCount_bound (AI.board s)) as Hbound.
  unfold AI.findBestMoveIterative, Spec.iterativeAsClaimed, AI.DateNow.
  set (s1 := AI.setThis _ _).
  assert (Hb1 : AI.board s1 = AI.board s) by reflexivity. rewrite Hb1.
  pose proof (getOrderedMoves_candidates (AI.board s) player 2) as Hcand.
  pose proof (fun sm => getOrderedMoves_legal (AI.board s) player 2 sm) as Hlegal.
  pose proof (ordered_nil (AI.board s) player) as Hnil.
  destruct (AI.getOrderedMoves (AI.board s) player 2) as [|first rest] eqn:Hmoves.
  - eexists _, _. split; [reflexivity|]. right. right. split; [|reflexivity].
    intros c Hc. rewrite Hnil in Hc by reflexivity. contradiction.
  - set (moves := first :: rest) in *.
    assert (Hl1 : forall m, In m (map AI.move moves) -> Spec.legal (AI.board s1) m).
    { intros m Hm. apply in_map_iff in Hm. destruct Hm as (sm & <- & Hsm).
      apply Hlegal, Hsm. }
    destruct (probeMoves_spec player (map AI.move moves) s1 Hl1) as [Hs2 Hr2].
    rewrite Hb1 in Hr2.
    destruct (AI.probeMoves player (map AI.move moves) s1) as [[m|] s2];
      cbn [fst snd] in Hs2, Hr2; subst s2.
    { destruct Hr2 as [Hin Hw]. eexists _, _. split; [reflexivity|].
      left. split; [apply Hcand, Hin|exact Hw]. }
    destruct (probeMoves_spec (AI.opponent player) (map AI.move moves) s1 Hl1)
      as [Hs3 Hr3].
    rewrite Hb1 in Hr3.
    destruct (AI.probeMoves (AI.opponent player) (map AI.move moves) s1) as [[m|] s3];
      cbn [fst snd] in Hs3, Hr3; subst s3.
    { destruct Hr3 as [Hin Hw]. eexists _, _. split; [reflexivity|].
      right. left. split; [|split; [apply Hcand, Hin|exact Hw]].
      intros c Hc. apply Hr2, Hcand, Hc. }
    assert (Hnone : forall c, In c (AI.generateCandidates (AI.board s) 2) ->
              AI.checkWin (Spec.after (AI.board s) c player) player = false
              /\ AI.checkWin (Spec.after (AI.board s) c (AI.opponent player))
                             (AI.opponent player) = false).
    { intros c Hc. apply Hcand in Hc. split; [apply Hr2, Hc|apply Hr3, Hc]. }
    destruct (deepen_restores now fuel player timeLimitMs moves first
                              (Z.to_nat maxDepth) 1 None s1)
      as (r & s4 & Hr4 & _ & _).
    { intros m Hm. apply Hlegal, Hm. }
    { rewrite Hb1. lia. }
    pose proof (deepen_outcomes fuel player timeLimitMs moves first (Z.to_nat maxDepth)
                                1 None s1 ltac:(discriminate)) as Hout.
    cbn [option_map] in Hout. rewrite Hr4 in Hout |- *.
    destruct Hout as (outcomes & Hsearched & Hr). rewrite Hsearched.
    unfold Spec.deepestCompleted. subst r.
    destruct (fold_left Spec.deeper outcomes None) as [o|]; cbn [option_map].
    + eexists _, _. split; [reflexivity|]. right. right. split; [exact Hnone|reflexivity].
    + eexists _, _. split; [reflexivity|]. right. right. split; [exact Hnone|reflexivity].
Qed.

End Deepening.






(** * Further properties *)

(** ** The game engine: the board and the history *)

Lemma game_cell_AI board x y : GameEngine.cell board x y = AI.cell board y x.
Proof. reflexivity. Qed.

Lemma game_setCell_AI board x y v :
  GameEngine.setCell board x y v = AI.setCell board y x v.
Proof. reflexivity. Qed.

Lemma game_inBounds_iff g x y :
  GameEngine._inBounds g x y = true
  <-> 0 <= x < GameEngine.size g /\ 0 <= y < GameEngine.size g.
Proof.
  unfold GameEngine._inBounds.
  rewrite !andb_true_iff, !Z.geb_le, !Z.ltb_lt. lia.
Qed.

Lemma sound_in_array g x y :
  Spec.sound g -> GameEngine._inBounds g x y = true ->
  (Z.to_nat y < length (GameEngine.board g))%nat
  /\ (Z.to_nat x < length (nth (Z.to_nat y) (GameEngine.board g) []))%nat.
Proof.
  intros (Hsize & Hlen & Hrows & _) Hb. apply game_inBounds_iff in Hb.
  assert (Hy : (Z.to_nat y < length (GameEngine.board g))%nat) by lia.
  split; [exact Hy|].
  rewrite Forall_forall in Hrows.
  rewrite (Hrows (nth (Z.to_nat y) (GameEngine.board g) [])); [lia|].
  apply nth_In. exact Hy.
Qed.

Lemma game_cell_set_same g x y v :
  Spec.sound g -> GameEngine._inBounds g x y = true ->
  GameEngine.cell (GameEngine.setCell (GameEngine.board g) x y v) x y = v.
Proof.
  intros Hg Hb. destruct (sound_in_array g x y Hg Hb) as [Hy Hx].
  unfold GameEngine.cell, GameEngine.setCell.
  rewrite nth_update_eq by exact Hy. rewrite nth_update_eq by exact Hx. reflexivity.
Qed.

Lemma game_cell_set_other board x y v x' y' :
  0 <= x -> 0 <= y -> 0 <= x' -> 0 <= y' -> (x', y') <> (x, y) ->
  GameEngine.cell (GameEngine.setCell board x y v) x' y' = GameEngine.cell board x' y'.
Proof.
  intros Hx Hy Hx' Hy' Hne. rewrite game_setCell_AI, !game_cell_AI.
  apply cell_setCell_other; try assumption.
  intros Heq. apply Hne. inversion Heq; subst. reflexivity.
Qed.

Lemma In_gridCells g y x :
  In (y, x) (GameEngine.gridCells g) <-> GameEngine._inBounds g x y = true.
Proof.
  unfold GameEngine.gridCells. rewrite in_prod_iff, !In_range, game_inBounds_iff. lia.
Qed.

Lemma isBoardFull_false g :
  GameEngine.isBoardFull g = false <-> exists x y, GameEngine.isValidMove g x y = true.
Proof.
  unfold GameEngine.isBoardFull. rewrite negb_false_iff, existsb_exists. split.
  - intros ([y x] & Hin & Hc). exists x, y. unfold GameEngine.isValidMove.
    apply (In_gridCells g) in Hin. rewrite Hin, Hc. reflexivity.
  - intros (x & y & Hv). unfold GameEngine.isValidMove in Hv.
    apply andb_true_iff in Hv. destruct Hv as [Hb Hc].
    exists (y, x). split; [apply (In_gridCells g), Hb|exact Hc].
Qed.

Lemma NoDup_snoc {A} (l : list A) a : NoDup (l ++ [a]) <-> NoDup l /\ ~ In a l.
Proof.
  induction l as [|b l IH]; cbn.
  - split; [intros _; split; [constructor|tauto]|].
    intros _. constructor; [tauto|constructor].
  - rewrite !NoDup_cons_iff, IH, in_app_iff. cbn. intuition (subst; auto).
Qed.

Lemma nth_error_snoc {A} (l : list A) a k e :
  nth_error (l ++ [a]) k = Some e ->
  ((k < length l)%nat /\ nth_error l k = Some e) \/ (k = length l /\ e = a).
Proof.
  intros H. destruct (Nat.lt_ge_cases k (length l)) as [Hlt|Hge].
  - left. split; [exact Hlt|]. rewrite nth_error_app1 in H by exact Hlt. exact H.
  - right. rewrite nth_error_app2 in H by exact Hge.
    destruct (k - length l)%nat as [|n] eqn:Hk; cbn in H.
    + split; [lia|congruence].
    + destruct n; discriminate.
Qed.

(** [recorded] reads the side, the board and the history only. *)
Lemma recorded_ext g g' :
  GameEngine.size g' = GameEngine.size g ->
  GameEngine.board g' = GameEngine.board g ->
  GameEngine.moveHistory g' = GameEngine.moveHistory g ->
  Spec.recorded g -> Spec.recorded g'.
Proof.
  unfold Spec.recorded, Spec.holds, GameEngine._inBounds.
  intros -> -> ->. tauto.
Qed.

Lemma recorded_entry g e :
  Spec.recorded g -> In e (GameEngine.moveHistory g) ->
  Spec.holds g (GameEngine.player e) (GameEngine.x e) (GameEngine.y e)
  /\ (GameEngine.player e = 1 \/ GameEngine.player e = 2).
Proof.
  intros (_ & Hentries & _) Hin. apply In_nth_error in Hin. destruct Hin as [k Hk].
  destruct (Hentries k e Hk) as (_ & Hp & Hh). split; [exact Hh|].
  destruct (Nat.even k); [left|right]; exact Hp.
Qed.

Lemma game_inBounds_size g g' x y :
  GameEngine.size g' = GameEngine.size g ->
  GameEngine._inBounds g' x y = GameEngine._inBounds g x y.
Proof. unfold GameEngine._inBounds. intros ->. reflexivity. Qed.

(** A stone of the player to move on a free cell keeps history and board in
    agreement. *)
Lemma recorded_place g x y cp go win line :
  Spec.sound g -> Spec.recorded g ->
  GameEngine.isValidMove g x y = true ->
  GameEngine.currentPlayer g
  = (if Nat.even (length (GameEngine.moveHistory g)) then 1 else 2) ->
  Spec.recorded
    (GameEngine.mkState (GameEngine.size g)
       (GameEngine.setCell (GameEngine.board g) x y (GameEngine.currentPlayer g)) cp
       (GameEngine.moveHistory g
        ++ [GameEngine.mkEntry x y (GameEngine.currentPlayer g)
              (Z.of_nat (length (GameEngine.moveHistory g)) + 1)])
       go win line).
Proof.
  intros Hs Hrec Hv Hturn. pose proof Hrec as (Hsize & Hentries & Hnodup & Hstones).
  unfold GameEngine.isValidMove in Hv. apply andb_true_iff in Hv.
  destruct Hv as [Hb Hc]. apply Z.eqb_eq in Hc.
  pose proof Hb as Hb'. apply game_inBounds_iff in Hb'.
  assert (Hfree : forall e, In e (GameEngine.moveHistory g) ->
                            (GameEngine.x e, GameEngine.y e) <> (x, y)).
  { intros e He Heq. destruct (recorded_entry g e Hrec He) as [[_ Hh] Hp].
    inversion Heq; subst. rewrite Hc in Hh. lia. }
  set (g' := GameEngine.mkState _ _ _ _ _ _ _).
  assert (Hin' : forall a b, GameEngine._inBounds g' a b = GameEngine._inBounds g a b)
    by (intros; apply game_inBounds_size; reflexivity).
  split; [exact Hsize|]. split; [|split].
  - intros k e Hk. cbn [GameEngine.moveHistory g'] in Hk.
    apply nth_error_snoc in Hk. unfold Spec.holds. rewrite Hin'.
    cbn [GameEngine.board g'].
    destruct Hk as [[Hlt Hk]|[-> ->]].
    + destruct (Hentries k e Hk) as (Hn & Hp & Hin & Hcell).
      split; [exact Hn|]. split; [exact Hp|]. split; [exact Hin|].
      pose proof Hin as Hin2. apply game_inBounds_iff in Hin2.
      rewrite game_cell_set_other; [exact Hcell|lia|lia|lia|lia|].
      apply Hfree. eapply nth_error_In; eassumption.
    + cbn [GameEngine.moveNumber GameEngine.player GameEngine.x GameEngine.y].
      split; [reflexivity|]. split; [exact Hturn|]. split; [exact Hb|].
      apply game_cell_set_same; assumption.
  - cbn [GameEngine.moveHistory g']. rewrite map_app. cbn [map]. apply NoDup_snoc.
    split; [exact Hnodup|]. intros Hin. apply in_map_iff in Hin.
    destruct Hin as (e & Heq & He). apply (Hfree e He). exact Heq.
  - intros x' y' Hb2 Hne. rewrite Hin' in Hb2.
    cbn [GameEngine.board GameEngine.moveHistory g'] in *.
    destruct (Z.eq_dec x' x) as [Hx|Hx]; [destruct (Z.eq_dec y' y) as [Hy|Hy]|].
    + subst. eexists. split; [apply in_app_iff; right; left; reflexivity|].
      split; reflexivity.
    + apply game_inBounds_iff in Hb2.
      rewrite game_cell_set_other in Hne by (try lia; congruence).
      destruct (Hstones x' y') as (e & He & Hex & Hey);
        [apply game_inBounds_iff; lia|exact Hne|].
      exists e. split; [apply in_app_iff; left; exact He|]. split; assumption.
    + apply game_inBounds_iff in Hb2.
      rewrite game_cell_set_other in Hne by (try lia; congruence).
      destruct (Hstones x' y') as (e & He & Hex & Hey);
        [apply game_inBounds_iff; lia|exact Hne|].
      exists e. split; [apply in_app_iff; left; exact He|]. split; assumption.
Qed.

Lemma even_snoc {A} (l : list A) a :
  Nat.even (length (l ++ [a])) = negb (Nat.even (length l)).
Proof.
  rewrite length_app. cbn [length]. rewrite Nat.add_1_r, Nat.even_succ, <- Nat.negb_even.
  reflexivity.
Qed.

Lemma placeStone_played allow fuel g x y r g' :
  Spec.sound g -> Spec.played g ->
  GameEngine.placeStone allow fuel g x y = Some (r, g') -> Spec.played g'.
Proof.
  intros Hs Hp H. pose proof Hp as [Hrec Hturn]. unfold GameEngine.placeStone in H.
  destruct (GameEngine.gameOver g) eqn:Hgo.
  { inversion H; subst. exact Hp. }
  destruct (GameEngine.isValidMove g x y) eqn:Hv; cbn [negb] in H.
  2:{ destruct (negb (GameEngine._inBounds g x y)); inversion H; subst; exact Hp. }
  destruct Hturn as [Hturn _]. cbv zeta in H.
  match type of H with
  | match ?c with _ => _ end = _ => destruct c as [w|]; [|discriminate]
  end.
  cbn [GameEngine.size GameEngine.board GameEngine.currentPlayer GameEngine.moveHistory
       GameEngine.gameOver GameEngine.winner GameEngine._winLine] in H.
  pose proof (fun cp go win line => recorded_place g x y cp go win line Hs Hrec Hv Hturn)
    as Hrec'.
  destruct (GameEngine.won w).
  { inversion H; subst. split; [apply Hrec'|]. cbn [GameEngine.gameOver].
    eexists _, _. split; [reflexivity|]. left. reflexivity. }
  destruct (GameEngine.isBoardFull _) eqn:Hfull.
  { inversion H; subst. split; [apply Hrec'|]. cbn [GameEngine.gameOver].
    eexists _, _. split; [reflexivity|]. right. reflexivity. }
  inversion H; subst. split; [apply Hrec'|].
  cbn [GameEngine.gameOver GameEngine.currentPlayer GameEngine.moveHistory].
  split.
  - rewrite even_snoc, Hturn. destruct (Nat.even _); reflexivity.
  - apply isBoardFull_false in Hfull. destruct Hfull as (x' & y' & Hv').
    exists x', y'. exact Hv'.
Qed.

Lemma undoMove_played g m g' :
  Spec.sound g -> Spec.played g -> GameEngine.undoMove g = (m, g') -> Spec.played g'.
Proof.
  intros Hs [Hrec Hturn] H. unfold GameEngine.undoMove in H.
  destruct (rev (GameEngine.moveHistory g)) as [|e earlier] eqn:Hrev.
  { inversion H; subst. split; assumption. }
  inversion H; subst. clear H.
  assert (Hh : GameEngine.moveHistory g = rev earlier ++ [e]).
  { rewrite <- (rev_involutive (GameEngine.moveHistory g)), Hrev. reflexivity. }
  destruct Hrec as (Hsize & Hentries & Hnodup & Hstones).
  rewrite Hh in Hentries, Hnodup, Hstones.
  rewrite map_app in Hnodup. cbn [map] in Hnodup. apply NoDup_snoc in Hnodup.
  destruct Hnodup as [Hnd Hnotin].
  assert (Hlast : nth_error (rev earlier ++ [e]) (length (rev earlier)) = Some e).
  { rewrite nth_error_app2 by apply Nat.le_refl. rewrite Nat.sub_diag. reflexivity. }
  destruct (Hentries _ _ Hlast) as (Hn & Hpl & Hin & Hcell).
  pose proof Hin as Hxy. apply game_inBounds_iff in Hxy.
  set (g' := GameEngine.mkState _ _ _ _ _ _ _).
  assert (Hin' : forall a b, GameEngine._inBounds g' a b = GameEngine._inBounds g a b)
    by (intros; apply game_inBounds_size; reflexivity).
  split.
  - split; [exact Hsize|]. split; [|split].
    + intros k e' Hk. cbn [GameEngine.moveHistory g'] in Hk.
      assert (Hk' : nth_error (rev earlier ++ [e]) k = Some e').
      { rewrite nth_error_app1; [exact Hk|]. apply nth_error_Some. congruence. }
      destruct (Hentries k e' Hk') as (Hn' & Hp' & Hin2 & Hcell').
      split; [exact Hn'|]. split; [exact Hp'|].
      unfold Spec.holds. rewrite Hin'. split; [exact Hin2|].
      cbn [GameEngine.board g'].
      pose proof Hin2 as Hxy'. apply game_inBounds_iff in Hxy'.
      rewrite game_cell_set_other; [exact Hcell'|lia|lia|lia|lia|].
      intros Heq. apply Hnotin. rewrite <- Heq.
      apply (in_map (fun e => (GameEngine.x e, GameEngine.y e))).
      eapply nth_error_In; eassumption.
    + exact Hnd.
    + intros x' y' Hb Hne. rewrite Hin' in Hb.
      cbn [GameEngine.board GameEngine.moveHistory g'] in *.
      pose proof Hb as Hb'. apply game_inBounds_iff in Hb'.
      destruct (Z.eq_dec x' (GameEngine.x e)) as [Hx|Hx];
        [destruct (Z.eq_dec y' (GameEngine.y e)) as [Hy|Hy]|].
      * subst. rewrite game_cell_set_same in Hne by assumption. contradiction.
      * rewrite game_cell_set_other in Hne by (try lia; congruence).
        destruct (Hstones x' y' Hb Hne) as (e0 & He0 & Hex & Hey).
        apply in_app_iff in He0. destruct He0 as [He0|[<-|[]]]; [|congruence].
        exists e0. split; [exact He0|]. split; assumption.
      * rewrite game_cell_set_other in Hne by (try lia; congruence).
        destruct (Hstones x' y' Hb Hne) as (e0 & He0 & Hex & Hey).
        apply in_app_iff in He0. destruct He0 as [He0|[<-|[]]]; [|congruence].
        exists e0. split; [exact He0|]. split; assumption.
  - cbn [GameEngine.gameOver GameEngine.currentPlayer GameEngine.moveHistory g'].
    split; [exact Hpl|]. exists (GameEngine.x e), (GameEngine.y e).
    unfold GameEngine.isValidMove. rewrite Hin', Hin. cbn [GameEngine.board g' andb].
    rewrite game_cell_set_same by assumption. reflexivity.
Qed.

Lemma nth_repeat_lt {A} (a d : A) (n k : nat) : (k < n)%nat -> nth k (repeat a n) d = a.
Proof.
  intros Hk. apply (repeat_spec n a). apply nth_In. rewrite repeat_length. exact Hk.
Qed.

Lemma createEmptyBoard_cell size x y :
  0 <= x < size -> 0 <= y < size ->
  GameEngine.cell (GameEngine._createEmptyBoard size) x y = 0.
Proof.
  intros Hx Hy. unfold GameEngine.cell, GameEngine._createEmptyBoard.
  rewrite (nth_repeat_lt _ [] _ (Z.to_nat y)) by lia.
  apply nth_repeat_lt. lia.
Qed.

Lemma reset_played g : 5 <= GameEngine.size g -> Spec.played (GameEngine.reset g).
Proof.
  intros Hsize. unfold GameEngine.reset. split.
  - split; [exact Hsize|]. cbn [GameEngine.moveHistory]. split; [|split].
    + intros [|k] e Hk; discriminate.
    + constructor.
    + intros x y Hb Hne. apply game_inBounds_iff in Hb.
      cbn [GameEngine.size GameEngine.board] in *.
      rewrite createEmptyBoard_cell in Hne by lia. contradiction.
  - cbn [GameEngine.gameOver GameEngine.currentPlayer GameEngine.moveHistory length].
    split; [reflexivity|]. exists 0, 0. unfold GameEngine.isValidMove.
    apply andb_true_iff. split.
    + apply game_inBounds_iff. cbn [GameEngine.size]. lia.
    + cbn [GameEngine.board]. rewrite createEmptyBoard_cell by lia. reflexivity.
Qed.

Lemma played_size g : Spec.played g -> 5 <= GameEngine.size g.
Proof. intros [[H _] _]. exact H. Qed.

(** Every engine a program reaches keeps its history and its board in
    agreement. *)
Lemma reachable_played g : Spec.reachable g -> Spec.played g.
Proof.
  induction 1 as [size g Hnew | g Hr IH | allow g x y r g' Hr IH Hp | g m g' Hr IH Hu].
  - unfold GameEngine.constructor in Hnew.
    destruct (size <? 5) eqn:Hs; [discriminate|]. inversion Hnew; subst.
    apply reset_played. cbn. lia.
  - apply reset_played, played_size, IH.
  - eapply placeStone_played; [apply reachable_sound, Hr|exact IH|exact Hp].
  - eapply undoMove_played; [apply reachable_sound, Hr|exact IH|exact Hu].
Qed.





(** A board of side [n] whose cells are all empty is the empty board. *)
Lemma all_empty_board (n : nat) board :
  length board = n -> Forall (fun row => length row = n) board ->
  (forall x y, (x < n)%nat -> (y < n)%nat -> nth x (nth y board []) (-1) = 0) ->
  board = repeat (repeat 0 n) n.
Proof.
  intros Hlen Hrows Hcells.
  apply (nth_ext _ _ [] []); [rewrite repeat_length; exact Hlen|].
  intros y Hy. rewrite Hlen in Hy. rewrite nth_repeat_lt by exact Hy.
  assert (Hrow : length (nth y board []) = n).
  { rewrite Forall_forall in Hrows. apply Hrows, nth_In. rewrite Hlen. exact Hy. }
  apply (nth_ext _ _ (-1) (-1)); [rewrite repeat_length; exact Hrow|].
  intros x Hx. rewrite Hrow in Hx. rewrite nth_repeat_lt by exact Hx.
  apply Hcells; assumption.
Qed.

Lemma undoTimes_reset (n : nat) :
  forall g, Spec.reachable g -> length (GameEngine.moveHistory g) = n ->
            Spec.undoTimes n g = GameEngine.reset g.
Proof.
  induction n as [|n IH]; intros g Hr Hn; cbn [Spec.undoTimes].
  - pose proof (reachable_sound g Hr) as (Hsize & Hlen & Hrows & Hover).
    pose proof (reachable_played g Hr) as [(_ & _ & _ & Hstones) Hturn].
    apply length_zero_iff_nil in Hn.
    destruct (GameEngine.gameOver g) eqn:Hgo.
    { destruct Hturn as (earlier & e & Hh & _). rewrite Hn in Hh.
      destruct earlier; discriminate. }
    destruct Hturn as [Hcp _]. rewrite Hn in Hcp. cbn in Hcp.
    destruct (Hover eq_refl) as [Hw Hl].
    assert (Hb : GameEngine.board g = GameEngine._createEmptyBoard (GameEngine.size g)).
    { apply all_empty_board; [exact Hlen|exact Hrows|].
      intros x y Hx Hy.
      destruct (Z.eq_dec (GameEngine.cell (GameEngine.board g) (Z.of_nat x) (Z.of_nat y)) 0)
        as [H0|H0].
      - unfold GameEngine.cell in H0. rewrite !Nat2Z.id in H0. exact H0.
      - destruct (Hstones (Z.of_nat x) (Z.of_nat y)) as (e & He & _);
          [apply game_inBounds_iff; lia|exact H0|].
        rewrite Hn in He. contradiction. }
    unfold GameEngine.reset. rewrite <- Hb.
    destruct g; cbn in *; subst; reflexivity.
  - destruct (GameEngine.undoMove g) as [m g1] eqn:Hu. cbn [snd].
    assert (Hr1 : Spec.reachable g1) by (eapply Spec.reach_undo; eassumption).
    rewrite (IH g1 Hr1).
    + unfold GameEngine.undoMove in Hu.
      destruct (rev (GameEngine.moveHistory g)); inversion Hu; subst; reflexivity.
    + unfold GameEngine.undoMove in Hu.
      destruct (rev (GameEngine.moveHistory g)) as [|e earlier] eqn:Hrev.
      * apply (f_equal (@length _)) in Hrev. rewrite length_rev in Hrev.
        cbn in Hrev. lia.
      * inversion Hu; subst. cbn [GameEngine.moveHistory].
        apply (f_equal (@length _)) in Hrev. rewrite length_rev in Hrev |- *.
        cbn in Hrev. lia.
Qed.

(** Undoing every move of a reachable engine, one [undoMove] per move of its
    history, gives the engine [reset] gives: the empty board, black to move,
    no history, no winner. *)
Theorem undo_all_is_reset g :
  Spec.reachable g ->
  Spec.undoTimes (length (GameEngine.moveHistory g)) g = GameEngine.reset g.
Proof. intros Hr. apply undoTimes_reset; [exact Hr|reflexivity]. Qed.

Lemma afterMoves_reachable l : Spec.reachable (Positions.afterMoves l).
Proof.
  unfold Positions.afterMoves.
  assert (H : forall g, Spec.reachable g ->
                        Spec.reachable
                          (fold_left
                             (fun g '(x, y) =>
                                match GameEngine.placeStone false (GameEngine.rounds g) g x y
                                with
                                | Some (_, g') => g'
                                | None => g
                                end) l g)).
  { induction l as [|[x y] l IH]; intros g Hg; cbn [fold_left]; [exact Hg|].
    apply IH.
    destruct (GameEngine.placeStone false (GameEngine.rounds g) g x y) as [[r g']|] eqn:Hp;
      [|exact Hg].
    eapply Spec.reach_place; eassumption. }
  apply H. apply (Spec.reach_new 15). reflexivity.
Qed.

Lemma undo_all_is_reset_witness :
  Spec.undoTimes (length (GameEngine.moveHistory Positions.twoMoves)) Positions.twoMoves
  = GameEngine.reset Positions.twoMoves.
Proof. apply (undo_all_is_reset Positions.twoMoves), afterMoves_reachable. Defined.

(** ** Placing a stone *)

Lemma runThrough_ext g g' player x y dx dy n :
  GameEngine.size g' = GameEngine.size g -> GameEngine.board g' = GameEngine.board g ->
  Spec.runThrough g' player x y dx dy n <-> Spec.runThrough g player x y dx dy n.
Proof.
  unfold Spec.runThrough, Spec.extends, Spec.holds, GameEngine._inBounds.
  intros -> ->. reflexivity.
Qed.

Lemma isValidMove_ext g g' x y :
  GameEngine.size g' = GameEngine.size g -> GameEngine.board g' = GameEngine.board g ->
  GameEngine.isValidMove g' x y = GameEngine.isValidMove g x y.
Proof.
  unfold GameEngine.isValidMove, GameEngine._inBounds. intros -> ->. reflexivity.
Qed.

Lemma isBoardFull_true g :
  GameEngine.isBoardFull g = true <-> forall x y, GameEngine.isValidMove g x y = false.
Proof.
  split.
  - intros Hfull x y. destruct (GameEngine.isValidMove g x y) eqn:Hv; [|reflexivity].
    assert (Hf : GameEngine.isBoardFull g = false)
      by (apply isBoardFull_false; exists x, y; exact Hv).
    congruence.
  - intros Hall. destruct (GameEngine.isBoardFull g) eqn:Hfull; [reflexivity|].
    apply isBoardFull_false in Hfull. destruct Hfull as (x & y & Hv).
    rewrite Hall in Hv. discriminate.
Qed.

(** A stone the engine accepts is one stone more: the cell played holds the
    stone of the player to move, no other cell changes, and the history
    grows by the entry of the move, numbered one more than the last. *)
Theorem placeStone_puts_one_stone allow g x y :
  Spec.reachable g -> GameEngine.gameOver g = false ->
  GameEngine.isValidMove g x y = true ->
  exists r g',
    GameEngine.placeStone allow (GameEngine.rounds g) g x y = Some (r, g')
    /\ GameEngine.valid r = true
    /\ GameEngine.size g' = GameEngine.size g
    /\ GameEngine.cell (GameEngine.board g') x y = GameEngine.currentPlayer g
    /\ (forall x' y', 0 <= x' -> 0 <= y' -> (x', y') <> (x, y) ->
                      GameEngine.cell (GameEngine.board g') x' y'
                      = GameEngine.cell (GameEngine.board g) x' y')
    /\ GameEngine.moveHistory g'
       = GameEngine.moveHistory g
         ++ [GameEngine.mkEntry x y (GameEngine.currentPlayer g)
               (Z.of_nat (length (GameEngine.moveHistory g)) + 1)].
Proof.
  intros Hreach Hgo Hv. pose proof (reachable_sound g Hreach) as Hs.
  unfold GameEngine.placeStone. rewrite Hgo, Hv. cbn [negb]. cbv zeta.
  unfold GameEngine.isValidMove in Hv. apply andb_true_iff in Hv.
  destruct Hv as [Hb Hc]. pose proof Hb as Hxy. apply game_inBounds_iff in Hxy.
  set (g1 := GameEngine.mkState _ _ _ _ _ _ _).
  destruct (game_checkWin_spec allow g1 x y (GameEngine.currentPlayer g)
              (GameEngine.rounds g)) as (w & Hw & _);
    [exact Hb | apply Nat.le_refl |].
  rewrite Hw.
  assert (Hsame : GameEngine.cell (GameEngine.board g1) x y = GameEngine.currentPlayer g)
    by (apply game_cell_set_same; assumption).
  assert (Hother : forall x' y', 0 <= x' -> 0 <= y' -> (x', y') <> (x, y) ->
                                 GameEngine.cell (GameEngine.board g1) x' y'
                                 = GameEngine.cell (GameEngine.board g) x' y').
  { intros x' y' Hx' Hy' Hne. apply game_cell_set_other; try assumption; lia. }
  destruct (GameEngine.won w); [|destruct (GameEngine.isBoardFull g1)];
    (eexists _, _; split; [reflexivity|]; split; [reflexivity|];
     split; [reflexivity|]; split; [exact Hsame|]; split; [exact Hother|reflexivity]).
Qed.

Lemma placeStone_puts_one_stone_witness :
  exists r g',
    GameEngine.placeStone false (GameEngine.rounds Positions.twoMoves)
                          Positions.twoMoves 6 8 = Some (r, g')
    /\ GameEngine.valid r = true
    /\ GameEngine.size g' = GameEngine.size Positions.twoMoves
    /\ GameEngine.cell (GameEngine.board g') 6 8
       = GameEngine.currentPlayer Positions.twoMoves
    /\ (forall x' y', 0 <= x' -> 0 <= y' -> (x', y') <> (6, 8) ->
                      GameEngine.cell (GameEngine.board g') x' y'
                      = GameEngine.cell (GameEngine.board Positions.twoMoves) x' y')
    /\ GameEngine.moveHistory g'
       = GameEngine.moveHistory Positions.twoMoves
         ++ [GameEngine.mkEntry 6 8 (GameEngine.currentPlayer Positions.twoMoves)
               (Z.of_nat (length (GameEngine.moveHistory Positions.twoMoves)) + 1)].
Proof.
  apply (placeStone_puts_one_stone false Positions.twoMoves 6 8).
  - apply afterMoves_reachable.
  - reflexivity.
  - reflexivity.
Defined.

(** The verdict of an accepted stone.  The result reports the winner the
    engine stores, and the game is over exactly when that is not 0.  The
    mover wins exactly when on some axis the run of the mover's stones
    through the cell played has a winning length (exactly five, or five or
    more under ALLOW_OVERLINE); the game is drawn (3) exactly when there is
    no such run and no cell is free; otherwise it goes on, and the turn
    passes to the other player. *)
Theorem placeStone_verdict allow g x y :
  Spec.reachable g -> GameEngine.gameOver g = false ->
  GameEngine.isValidMove g x y = true ->
  exists r g',
    GameEngine.placeStone allow (GameEngine.rounds g) g x y = Some (r, g')
    /\ GameEngine.result_winner r = Some (GameEngine.winner g')
    /\ GameEngine.gameOver g' = negb (GameEngine.winner g' =? 0)
    /\ (GameEngine.winner g' = GameEngine.currentPlayer g
        \/ GameEngine.winner g' = 3 \/ GameEngine.winner g' = 0)
    /\ let five :=
         exists dx dy n, In (dx, dy) GameEngine.DIRECTIONS
                         /\ Spec.runThrough g' (GameEngine.currentPlayer g) x y dx dy n
                         /\ Spec.winningLength allow n in
       (GameEngine.winner g' = GameEngine.currentPlayer g <-> five)
       /\ (GameEngine.winner g' = 3
           <-> ~ five /\ forall x' y', GameEngine.isValidMove g' x' y' = false)
       /\ (GameEngine.winner g' = 0 ->
           GameEngine.currentPlayer g' = 3 - GameEngine.currentPlayer g).
Proof.
  intros Hreach Hgo Hv. pose proof (reachable_sound g Hreach) as Hs.
  pose proof Hs as (_ & _ & _ & Hover). destruct (Hover Hgo) as [Hw0 _].
  pose proof (reachable_played g Hreach) as [_ Hturn]. rewrite Hgo in Hturn.
  destruct Hturn as [Hcp _].
  assert (Hplayer : GameEngine.currentPlayer g = 1 \/ GameEngine.currentPlayer g = 2)
    by (rewrite Hcp; destruct (Nat.even _); [left|right]; reflexivity).
  unfold GameEngine.placeStone. rewrite Hgo, Hv. cbn [negb]. cbv zeta.
  unfold GameEngine.isValidMove in Hv. apply andb_true_iff in Hv.
  destruct Hv as [Hb Hc].
  set (g1 := GameEngine.mkState _ _ _ _ _ _ _).
  destruct (game_checkWin_spec allow g1 x y (GameEngine.currentPlayer g)
              (GameEngine.rounds g)) as (w & Hw & Hiff);
    [exact Hb | apply Nat.le_refl |].
  rewrite Hw.
  assert (Hrun : forall cp go win l dx dy n,
             Spec.runThrough
               (GameEngine.mkState (GameEngine.size g1) (GameEngine.board g1) cp
                                   (GameEngine.moveHistory g1) go win l)
               (GameEngine.currentPlayer g) x y dx dy n
             <-> Spec.runThrough g1 (GameEngine.currentPlayer g) x y dx dy n)
    by (intros; apply runThrough_ext; reflexivity).
  assert (Hvalid : forall cp go win l x' y',
             GameEngine.isValidMove
               (GameEngine.mkState (GameEngine.size g1) (GameEngine.board g1) cp
                                   (GameEngine.moveHistory g1) go win l) x' y'
             = GameEngine.isValidMove g1 x' y')
    by (intros; apply isValidMove_ext; reflexivity).
  destruct (GameEngine.won w) eqn:Hwon.
  { eexists _, _. split; [reflexivity|].
    cbn [GameEngine.result_winner GameEngine.winner GameEngine.gameOver
         GameEngine.currentPlayer].
    split; [reflexivity|]. split; [destruct Hplayer as [-> | ->]; reflexivity|].
    split; [left; reflexivity|]. cbv zeta.
    assert (Hfive : exists dx dy n,
               In (dx, dy) GameEngine.DIRECTIONS
               /\ Spec.runThrough
                    (GameEngine.mkState (GameEngine.size g1) (GameEngine.board g1)
                       (GameEngine.currentPlayer g1) (GameEngine.moveHistory g1)
                       true (GameEngine.currentPlayer g) (GameEngine.line w))
                    (GameEngine.currentPlayer g) x y dx dy n
               /\ Spec.winningLength allow n).
    { destruct (proj1 Hiff eq_refl) as (dx & dy & n & Hd & Hn & Hlen).
      exists dx, dy, n. split; [exact Hd|]. split; [apply Hrun, Hn|exact Hlen]. }
    split; [split; [intros _; exact Hfive|reflexivity]|].
    split; [|intros H0; lia].
    split; [intros H3; lia|]. intros [Hno _]. contradiction. }
  assert (Hnofive : ~ exists dx dy n,
             In (dx, dy) GameEngine.DIRECTIONS
             /\ Spec.runThrough g1 (GameEngine.currentPlayer g) x y dx dy n
             /\ Spec.winningLength allow n).
  { intros H. apply Hiff in H. congruence. }
  destruct (GameEngine.isBoardFull g1) eqn:Hfull.
  { eexists _, _. split; [reflexivity|].
    cbn [GameEngine.result_winner GameEngine.winner GameEngine.gameOver
         GameEngine.currentPlayer].
    split; [reflexivity|]. split; [reflexivity|].
    split; [right; left; reflexivity|]. cbv zeta.
    split; [split; [intros H3; lia|]|].
    { intros (dx & dy & n & Hd & Hn & Hlen). exfalso. apply Hnofive.
      exists dx, dy, n. split; [exact Hd|]. split; [apply Hrun in Hn; exact Hn|exact Hlen]. }
    split; [|intros H0; discriminate].
    split; [|reflexivity]. intros _. split.
    - intros (dx & dy & n & Hd & Hn & Hlen). apply Hnofive.
      exists dx, dy, n. split; [exact Hd|]. split; [apply Hrun in Hn; exact Hn|exact Hlen].
    - intros x' y'. rewrite Hvalid. apply isBoardFull_true. exact Hfull. }
  eexists _, _. split; [reflexivity|].
  cbn [GameEngine.result_winner GameEngine.winner GameEngine.gameOver
       GameEngine.currentPlayer g1].
  rewrite Hw0. split; [reflexivity|]. split; [reflexivity|].
  split; [right; right; reflexivity|]. cbv zeta.
  split; [split; [intros H0; lia|]|].
  { intros (dx & dy & n & Hd & Hn & Hlen). exfalso. apply Hnofive.
    exists dx, dy, n. split; [exact Hd|]. split; [apply Hrun in Hn; exact Hn|exact Hlen]. }
  split.
  - split; [intros H3; discriminate|]. intros [_ Hall].
    apply isBoardFull_false in Hfull. destruct Hfull as (x' & y' & Hv').
    rewrite <- (Hvalid (if GameEngine.currentPlayer g =? 1 then 2 else 1)
                       false 0 (GameEngine._winLine g) x' y') in Hv'.
    rewrite Hall in Hv'. discriminate.
  - intros _. destruct Hplayer as [-> | ->]; reflexivity.
Qed.

Lemma placeStone_verdict_witness :
  exists r g',
    GameEngine.placeStone false (GameEngine.rounds Positions.blackToWin)
                          Positions.blackToWin 7 7 = Some (r, g')
    /\ GameEngine.result_winner r = Some (GameEngine.winner g')
    /\ GameEngine.gameOver g' = negb (GameEngine.winner g' =? 0)
    /\ (GameEngine.winner g' = GameEngine.currentPlayer Positions.blackToWin
        \/ GameEngine.winner g' = 3 \/ GameEngine.winner g' = 0)
    /\ let five :=
         exists dx dy n, In (dx, dy) GameEngine.DIRECTIONS
                         /\ Spec.runThrough g'
                              (GameEngine.currentPlayer Positions.blackToWin) 7 7 dx dy n
                         /\ Spec.winningLength false n in
       (GameEngine.winner g' = GameEngine.currentPlayer Positions.blackToWin <-> five)
       /\ (GameEngine.winner g' = 3
           <-> ~ five /\ forall x' y', GameEngine.isValidMove g' x' y' = false)
       /\ (GameEngine.winner g' = 0 ->
           GameEngine.currentPlayer g'
           = 3 - GameEngine.currentPlayer Positions.blackToWin).
Proof.
  apply (placeStone_verdict false Positions.blackToWin 7 7).
  - apply afterMoves_reachable.
  - reflexivity.
  - reflexivity.
Defined.

(** ** The winning line *)














(** ** The lists of moves the engine offers *)

Lemma fold_left_push {A B} (P : A -> bool) (f : A -> B) l acc :
  fold_left (fun moves a => if P a then moves ++ [f a] else moves) l acc
  = acc ++ map f (filter P l).
Proof.
  revert acc. induction l as [|a l IH]; intros acc; cbn [fold_left filter].
  - rewrite app_nil_r. reflexivity.
  - rewrite IH. destruct (P a); [|reflexivity].
    cbn [map]. rewrite <- app_assoc. reflexivity.
Qed.

Lemma fold_left_ext {A B} (f f' : A -> B -> A) l a :
  (forall a b, f a b = f' a b) -> fold_left f l a = fold_left f' l a.
Proof.
  intros H. revert a. induction l as [|b l IH]; intros a; cbn [fold_left]; [reflexivity|].
  rewrite H. apply IH.
Qed.

Lemma getValidMoves_filter g :
  GameEngine.getValidMoves g
  = map (fun yx => (snd yx, fst yx))
        (filter (fun yx => GameEngine.cell (GameEngine.board g) (snd yx) (fst yx) =? 0)
                (GameEngine.gridCells g)).
Proof.
  unfold GameEngine.getValidMoves.
  rewrite <- (app_nil_l (map _ _)), <- fold_left_push.
  apply fold_left_ext. intros moves [y x]. reflexivity.
Qed.

Lemma NoDup_gridCells g : NoDup (GameEngine.gridCells g).
Proof. apply NoDup_list_prod; apply NoDup_range. Qed.

(** On an engine whose board is a square array of its side,
    [getValidMoves] returns the free cells of the board, each once, and none
    exactly when [isBoardFull] holds. *)
Theorem getValidMoves_are_the_free_cells g :
  Spec.sound g ->
  (forall x y, In (x, y) (GameEngine.getValidMoves g)
               <-> GameEngine.isValidMove g x y = true)
  /\ NoDup (GameEngine.getValidMoves g)
  /\ (GameEngine.getValidMoves g = [] <-> GameEngine.isBoardFull g = true).
Proof.
  intros _.
  assert (Hin : forall x y, In (x, y) (GameEngine.getValidMoves g)
                            <-> GameEngine.isValidMove g x y = true).
  { intros x y. rewrite getValidMoves_filter, in_map_iff. unfold GameEngine.isValidMove.
    rewrite andb_true_iff. split.
    - intros ([y' x'] & Heq & Hf). cbn [fst snd] in Heq. inversion Heq; subst.
      apply filter_In in Hf. cbn [fst snd] in Hf. destruct Hf as [Hg Hc].
      split; [apply In_gridCells, Hg|exact Hc].
    - intros [Hb Hc]. exists (y, x). split; [reflexivity|].
      apply filter_In. split; [apply In_gridCells, Hb|exact Hc]. }
  split; [exact Hin|]. split.
  - rewrite getValidMoves_filter. apply Finite.Injective_map_NoDup.
    + intros [a b] [c d] Heq. cbn [fst snd] in Heq. congruence.
    + apply NoDup_filter, NoDup_gridCells.
  - rewrite isBoardFull_true. split.
    + intros Hnil x y. destruct (GameEngine.isValidMove g x y) eqn:Hv; [|reflexivity].
      apply Hin in Hv. rewrite Hnil in Hv. contradiction.
    + intros Hall. destruct (GameEngine.getValidMoves g) as [|[x y] l] eqn:Hm;
        [reflexivity|].
      assert (Hv : GameEngine.isValidMove g x y = true)
        by (apply Hin; left; reflexivity).
      rewrite Hall in Hv. discriminate.
Qed.

Lemma getValidMoves_are_the_free_cells_witness :
  (forall x y, In (x, y) (GameEngine.getValidMoves Positions.twoMoves)
               <-> GameEngine.isValidMove Positions.twoMoves x y = true)
  /\ NoDup (GameEngine.getValidMoves Positions.twoMoves)
  /\ (GameEngine.getValidMoves Positions.twoMoves = []
      <-> GameEngine.isBoardFull Positions.twoMoves = true).
Proof.
  apply (getValidMoves_are_the_free_cells Positions.twoMoves).
  apply reachable_sound, afterMoves_reachable.
Defined.

Lemma fold_left_keeps_in {A B} (f : A -> B -> A) (I : A -> Prop) l a :
  (forall a x, In x l -> I a -> I (f a x)) -> I a -> I (fold_left f l a).
Proof.
  revert a. induction l as [|x l IH]; intros a Hf Ha; cbn [fold_left]; [exact Ha|].
  apply IH.
  - intros a' x' Hx'. apply Hf. right. exact Hx'.
  - apply Hf; [left; reflexivity|exact Ha].
Qed.

Lemma fold_left_reaches_in {A B} (f : A -> B -> A) (I P : A -> Prop) l e a :
  In e l ->
  (forall a x, In x l -> I a -> I (f a x)) ->
  (forall a, I a -> P (f a e)) ->
  (forall a x, In x l -> I a -> P a -> P (f a x)) ->
  I a -> P (fold_left f l a).
Proof.
  intros Hin HI He HP. revert a.
  induction l as [|x l IH]; intros a Ha; [contradiction|]. cbn [fold_left].
  assert (HIl : forall a x, In x l -> I a -> I (f a x))
    by (intros; apply HI; [right|]; assumption).
  assert (HPl : forall a x, In x l -> I a -> P a -> P (f a x))
    by (intros; apply HP; [right| |]; assumption).
  assert (Hax : I (f a x)) by (apply HI; [left; reflexivity|exact Ha]).
  destruct Hin as [->|Hin].
  - apply (fold_left_keeps_in f (fun a => I a /\ P a)).
    + intros a' x' Hx' [Ha' Hp']. split; [apply HIl|apply HPl]; assumption.
    + split; [exact Hax|apply He, Ha].
  - apply IH; assumption.
Qed.

Lemma In_neighbourhood radius dy dx :
  In (dy, dx) (GameEngine.neighbourhood radius)
  <-> - radius <= dy <= radius /\ - radius <= dx <= radius.
Proof.
  unfold GameEngine.neighbourhood. rewrite in_prod_iff, !In_range. lia.
Qed.

Lemma seen_iff (s : list Z) key : existsb (Z.eqb key) s = true <-> In key s.
Proof. apply has_iff. Qed.

(** One step of the inner loops keeps the state of [getSmartMoves] as it
    should be. *)
Lemma consider_kept g radius x y acc dy dx :
  GameEngine._inBounds g x y = true ->
  GameEngine.cell (GameEngine.board g) x y <> 0 ->
  In (dy, dx) (GameEngine.neighbourhood radius) ->
  Spec.smartKept g radius acc ->
  Spec.smartKept g radius (GameEngine.consider g x y acc (dy, dx)).
Proof.
  intros Hb Hstone Hd Hkept. pose proof Hkept as (Hmoves & Hnodup & Hseen).
  unfold GameEngine.consider.
  destruct (GameEngine._inBounds g (x + dx) (y + dy)) eqn:Hn; cbn [negb]; [|exact Hkept].
  destruct (GameEngine.cell (GameEngine.board g) (x + dx) (y + dy) =? 0) eqn:Hc;
    cbn [negb]; [|exact Hkept].
  destruct (existsb _ _) eqn:Hhas; [exact Hkept|].
  assert (Hnew : ~ In (x + dx, y + dy) (GameEngine.moves acc)).
  { intros Hin. assert (Hk : In ((y + dy) * GameEngine.size g + (x + dx))
                                (GameEngine.seen acc)).
    { apply Hseen. exists (x + dx), (y + dy). split; [exact Hin|reflexivity]. }
    apply seen_iff in Hk. congruence. }
  apply In_neighbourhood in Hd.
  split; [|split]; cbn [GameEngine.moves GameEngine.seen].
  - intros mx my Hm. apply in_app_iff in Hm. destruct Hm as [Hm|[Heq|[]]].
    + apply Hmoves, Hm.
    + inversion Heq; subst. split.
      * unfold GameEngine.isValidMove. rewrite Hn, Hc. reflexivity.
      * exists x, y. split; [exact Hb|]. split; [exact Hstone|]. lia.
  - apply NoDup_snoc. split; assumption.
  - intros key. split.
    + intros [<-|Hk].
      * exists (x + dx), (y + dy). split; [|reflexivity].
        apply in_app_iff. right. left. reflexivity.
      * apply Hseen in Hk. destruct Hk as (mx & my & Hm & Hkey).
        exists mx, my. split; [|exact Hkey]. apply in_app_iff. left. exact Hm.
    + intros (mx & my & Hm & Hkey). apply in_app_iff in Hm.
      destruct Hm as [Hm|[Heq|[]]].
      * right. apply Hseen. exists mx, my. split; assumption.
      * left. inversion Heq; subst. reflexivity.
Qed.

Lemma consider_grows g x y acc d m :
  In m (GameEngine.moves acc) -> In m (GameEngine.moves (GameEngine.consider g x y acc d)).
Proof.
  intros H. unfold GameEngine.consider. destruct d as [dy dx].
  destruct (negb _); [exact H|]. destruct (negb _); [exact H|].
  destruct (existsb _ _); [exact H|]. cbn. apply in_app_iff. left. exact H.
Qed.

Lemma consider_hasStones g x y acc d :
  GameEngine.hasStones (GameEngine.consider g x y acc d) = GameEngine.hasStones acc.
Proof.
  unfold GameEngine.consider. destruct d as [dy dx].
  destruct (negb _); [reflexivity|]. destruct (negb _); [reflexivity|].
  destruct (existsb _ _); reflexivity.
Qed.

(** The visit of a free cell leaves it among the moves. *)
Lemma consider_takes g radius x y acc dy dx :
  Spec.smartKept g radius acc ->
  GameEngine.isValidMove g (x + dx) (y + dy) = true ->
  In (x + dx, y + dy) (GameEngine.moves (GameEngine.consider g x y acc (dy, dx))).
Proof.
  intros (Hmoves & _ & Hseen) Hv. unfold GameEngine.isValidMove in Hv.
  apply andb_true_iff in Hv. destruct Hv as [Hn Hc].
  unfold GameEngine.consider. rewrite Hn, Hc. cbn [negb].
  destruct (existsb _ _) eqn:Hhas.
  - apply seen_iff, Hseen in Hhas. destruct Hhas as (mx & my & Hm & Hkey).
    destruct (Hmoves mx my Hm) as [Hv' _]. unfold GameEngine.isValidMove in Hv'.
    apply andb_true_iff in Hv'. destruct Hv' as [Hn' _].
    apply game_inBounds_iff in Hn, Hn'.
    assert (my = y + dy) by nia. assert (mx = x + dx) by nia. subst. exact Hm.
  - cbn. apply in_app_iff. right. left. reflexivity.
Qed.

Lemma smartKept_flag g radius acc flag :
  Spec.smartKept g radius acc ->
  Spec.smartKept g radius
    (GameEngine.mkSmart (GameEngine.seen acc) (GameEngine.moves acc) flag).
Proof. intros H. exact H. Qed.

Lemma smartCell_kept g radius acc y x :
  In (y, x) (GameEngine.gridCells g) -> Spec.smartKept g radius acc ->
  Spec.smartKept g radius (GameEngine.smartCell g radius acc (y, x)).
Proof.
  intros Hin Hkept. unfold GameEngine.smartCell.
  destruct (GameEngine.cell (GameEngine.board g) x y =? 0) eqn:Hc; cbn [negb];
    [exact Hkept|].
  apply In_gridCells in Hin. apply Z.eqb_neq in Hc.
  apply fold_left_keeps_in.
  - intros a [dy dx] Hd Ha. apply consider_kept; assumption.
  - apply smartKept_flag, Hkept.
Qed.

Lemma smartCell_grows g radius acc yx m :
  In m (GameEngine.moves acc) ->
  In m (GameEngine.moves (GameEngine.smartCell g radius acc yx)).
Proof.
  intros H. unfold GameEngine.smartCell. destruct yx as [y x].
  destruct (negb _); [|exact H].
  apply (fold_left_keeps _ (fun a => In m (GameEngine.moves a)));
    [intros a d; apply consider_grows|exact H].
Qed.

Lemma smartCell_hasStones g radius acc y x :
  GameEngine.hasStones (GameEngine.smartCell g radius acc (y, x))
  = GameEngine.hasStones acc || negb (GameEngine.cell (GameEngine.board g) x y =? 0).
Proof.
  unfold GameEngine.smartCell.
  destruct (negb (GameEngine.cell (GameEngine.board g) x y =? 0)).
  - rewrite orb_true_r.
    apply (fold_left_keeps _ (fun a => GameEngine.hasStones a = true));
      [intros a d; rewrite consider_hasStones; auto|reflexivity].
  - rewrite orb_false_r. reflexivity.
Qed.

(** The scan of a stone leaves every free cell beside it among the moves. *)
Lemma smartCell_takes g radius acc x y sx sy :
  Spec.smartKept g radius acc -> GameEngine.isValidMove g x y = true ->
  Spec.beside g radius x y sx sy ->
  In (x, y) (GameEngine.moves (GameEngine.smartCell g radius acc (sy, sx))).
Proof.
  intros Hkept Hv (Hb & Hstone & Hx & Hy). unfold GameEngine.smartCell.
  apply Z.eqb_neq in Hstone. rewrite Hstone. cbn [negb]. apply Z.eqb_neq in Hstone.
  apply (fold_left_reaches_in _ (Spec.smartKept g radius)
                              (fun a => In (x, y) (GameEngine.moves a))
                              _ (y - sy, x - sx)).
  - apply In_neighbourhood. lia.
  - intros a [dy dx] Hd Ha. apply consider_kept; assumption.
  - intros a Ha.
    replace (x, y) with (sx + (x - sx), sy + (y - sy)) by (f_equal; lia).
    apply (consider_takes g radius); [exact Ha|].
    replace (sx + (x - sx)) with x by lia. replace (sy + (y - sy)) with y by lia.
    exact Hv.
  - intros a d _ _. apply consider_grows.
  - apply smartKept_flag, Hkept.
Qed.

Lemma smartKept_start g radius :
  Spec.smartKept g radius (GameEngine.mkSmart [] [] false).
Proof.
  split; [|split]; cbn.
  - intros x y [].
  - constructor.
  - intros key. split; [intros []|intros (x & y & [] & _)].
Qed.

Lemma smart_all_kept g radius :
  Spec.smartKept g radius
    (fold_left (GameEngine.smartCell g radius) (GameEngine.gridCells g)
               (GameEngine.mkSmart [] [] false)).
Proof.
  apply fold_left_keeps_in; [|apply smartKept_start].
  intros a [y x] Hin Ha. apply smartCell_kept; assumption.
Qed.

Lemma smart_all_hasStones g radius sx sy :
  GameEngine._inBounds g sx sy = true ->
  GameEngine.cell (GameEngine.board g) sx sy <> 0 ->
  GameEngine.hasStones
    (fold_left (GameEngine.smartCell g radius) (GameEngine.gridCells g)
               (GameEngine.mkSmart [] [] false)) = true.
Proof.
  intros Hb Hstone.
  apply (fold_left_reaches _ (fun _ => True) (fun a => GameEngine.hasStones a = true)
                           _ (sy, sx)).
  - apply In_gridCells, Hb.
  - auto.
  - intros a _. rewrite smartCell_hasStones. apply Z.eqb_neq in Hstone.
    rewrite Hstone. apply orb_true_r.
  - intros a [y x] _ Ha. rewrite smartCell_hasStones, Ha. reflexivity.
  - exact I.
Qed.

Lemma fold_left_fixed {A B} (f : A -> B -> A) l a :
  (forall x, In x l -> f a x = a) -> fold_left f l a = a.
Proof.
  induction l as [|x l IH]; intros H; cbn [fold_left]; [reflexivity|].
  rewrite H by (left; reflexivity). apply IH. intros x' Hx'. apply H. right. exact Hx'.
Qed.

(** With no stone on the board the loops of [getSmartMoves] change nothing. *)
Lemma smart_all_empty g radius :
  (forall x y, GameEngine._inBounds g x y = true ->
               GameEngine.cell (GameEngine.board g) x y = 0) ->
  fold_left (GameEngine.smartCell g radius) (GameEngine.gridCells g)
            (GameEngine.mkSmart [] [] false)
  = GameEngine.mkSmart [] [] false.
Proof.
  intros Hempty. apply fold_left_fixed. intros [y x] Hin.
  apply In_gridCells in Hin. unfold GameEngine.smartCell.
  rewrite (Hempty x y Hin). reflexivity.
Qed.

Lemma getSmartMoves_eq g radius :
  GameEngine.getSmartMoves g radius
  = if negb (GameEngine.hasStones
               (fold_left (GameEngine.smartCell g radius) (GameEngine.gridCells g)
                          (GameEngine.mkSmart [] [] false)))
    then GameEngine.moves
           (fold_left (GameEngine.smartCell g radius) (GameEngine.gridCells g)
                      (GameEngine.mkSmart [] [] false))
         ++ [(GameEngine.size g / 2, GameEngine.size g / 2)]
    else GameEngine.moves
           (fold_left (GameEngine.smartCell g radius) (GameEngine.gridCells g)
                      (GameEngine.mkSmart [] [] false)).
Proof. reflexivity. Qed.

(** [getSmartMoves], on an engine with a square board of side at least 1.
    With no stone on the board it returns the center cell alone.  With a
    stone on the board it returns exactly the free cells within [radius] of
    some stone on both axes.  In both cases every cell returned is a valid
    move and none is returned twice. *)
Theorem getSmartMoves_are_the_cells_beside_stones g radius :
  Spec.sound g -> 1 <= GameEngine.size g ->
  NoDup (GameEngine.getSmartMoves g radius)
  /\ (forall x y, In (x, y) (GameEngine.getSmartMoves g radius) ->
                  GameEngine.isValidMove g x y = true)
  /\ ((forall x y, GameEngine._inBounds g x y = true ->
                   GameEngine.cell (GameEngine.board g) x y = 0) ->
      GameEngine.getSmartMoves g radius
      = [(GameEngine.size g / 2, GameEngine.size g / 2)])
  /\ ((exists sx sy, GameEngine._inBounds g sx sy = true
                     /\ GameEngine.cell (GameEngine.board g) sx sy <> 0) ->
      forall x y,
        In (x, y) (GameEngine.getSmartMoves g radius)
        <-> GameEngine.isValidMove g x y = true
            /\ exists sx sy, Spec.beside g radius x y sx sy).
Proof.
  intros Hs Hsize. rewrite getSmartMoves_eq.
  pose proof (smart_all_kept g radius) as (Hmoves & Hnodup & _).
  assert (Hempty : GameEngine.hasStones
                     (fold_left (GameEngine.smartCell g radius) (GameEngine.gridCells g)
                                (GameEngine.mkSmart [] [] false)) = false ->
                   forall x y, GameEngine._inBounds g x y = true ->
                               GameEngine.cell (GameEngine.board g) x y = 0).
  { intros Hno x y Hb.
    destruct (Z.eq_dec (GameEngine.cell (GameEngine.board g) x y) 0) as [H0|H0];
      [exact H0|].
    rewrite (smart_all_hasStones g radius x y Hb H0) in Hno. discriminate. }
  assert (Hcenter : GameEngine._inBounds g (GameEngine.size g / 2) (GameEngine.size g / 2)
                    = true).
  { apply game_inBounds_iff.
    pose proof (Z.div_pos (GameEngine.size g) 2). 
    pose proof (Z.div_lt (GameEngine.size g) 2). lia. }
  destruct (GameEngine.hasStones _) eqn:Hstones; cbn [negb].
  - split; [exact Hnodup|]. split; [intros x y Hin; apply Hmoves, Hin|]. split.
    + intros Hnone. rewrite (smart_all_empty g radius Hnone) in Hstones. discriminate.
    + intros _ x y. split; [apply Hmoves|].
      intros [Hv (sx & sy & Hbeside)].
      pose proof Hbeside as (Hb & Hstone & _).
      apply (fold_left_reaches_in _ (Spec.smartKept g radius)
                                  (fun a => In (x, y) (GameEngine.moves a))
                                  _ (sy, sx)).
      * apply In_gridCells, Hb.
      * intros a [y' x'] Hin Ha. apply smartCell_kept; assumption.
      * intros a Ha. apply smartCell_takes; assumption.
      * intros a yx _ _. apply smartCell_grows.
      * apply smartKept_start.
  - specialize (Hempty eq_refl).
    rewrite (smart_all_empty g radius Hempty). cbn [GameEngine.moves app].
    split; [constructor; [intros []|constructor]|]. split.
    + intros x y [Heq|[]]. inversion Heq; subst. unfold GameEngine.isValidMove.
      rewrite Hcenter, (Hempty _ _ Hcenter). reflexivity.
    + split; [reflexivity|]. intros (sx & sy & Hb & Hstone).
      rewrite (Hempty sx sy Hb) in Hstone. contradiction.
Qed.

Lemma getSmartMoves_are_the_cells_beside_stones_witness :
  NoDup (GameEngine.getSmartMoves Positions.twoMoves 2)
  /\ (forall x y, In (x, y) (GameEngine.getSmartMoves Positions.twoMoves 2) ->
                  GameEngine.isValidMove Positions.twoMoves x y = true)
  /\ ((forall x y, GameEngine._inBounds Positions.twoMoves x y = true ->
                   GameEngine.cell (GameEngine.board Positions.twoMoves) x y = 0) ->
      GameEngine.getSmartMoves Positions.twoMoves 2
      = [(GameEngine.size Positions.twoMoves / 2, GameEngine.size Positions.twoMoves / 2)])
  /\ ((exists sx sy, GameEngine._inBounds Positions.twoMoves sx sy = true
                     /\ GameEngine.cell (GameEngine.board Positions.twoMoves) sx sy <> 0) ->
      forall x y,
        In (x, y) (GameEngine.getSmartMoves Positions.twoMoves 2)
        <-> GameEngine.isValidMove Positions.twoMoves x y = true
            /\ exists sx sy, Spec.beside Positions.twoMoves 2 x y sx sy).
Proof.
  apply (getSmartMoves_are_the_cells_beside_stones Positions.twoMoves 2).
  - apply reachable_sound, afterMoves_reachable.
  - vm_compute. discriminate.
Defined.

(** ** Saving and restoring *)

Lemma map_copy {A} (l : list A) : map (fun c => c) l = l.
Proof. apply map_id. Qed.

Lemma map_copy_rows (board : list (list Z)) :
  map (fun row => map (fun c => c) row) board = board.
Proof.
  rewrite (map_ext _ (fun row => row)) by (intros row; apply map_id). apply map_id.
Qed.

Lemma map_copyEntry l : map GameEngine.copyEntry l = l.
Proof.
  rewrite (map_ext _ (fun m => m)) by (intros [x y p n]; reflexivity). apply map_id.
Qed.

Lemma map_copyCell l : map GameEngine.copyCell l = l.
Proof.
  rewrite (map_ext _ (fun c => c)) by (intros [x y]; reflexivity). apply map_id.
Qed.

(** [loadState] of the snapshot [getState] took of an engine gives that
    engine back, field by field, whatever the engine that loads it held. *)
Theorem loadState_getState e g :
  GameEngine.loadState e (GameEngine.getState g) = g.
Proof.
  destruct g as [size board cp history over win line].
  unfold GameEngine.loadState, GameEngine.getState, GameEngine.cloneBoard.
  cbn [GameEngine.Snapshot.size GameEngine.Snapshot.board
       GameEngine.Snapshot.currentPlayer GameEngine.Snapshot.moveHistory
       GameEngine.Snapshot.gameOver GameEngine.Snapshot.winner
       GameEngine.Snapshot.winLine
       GameEngine.size GameEngine.board GameEngine.currentPlayer
       GameEngine.moveHistory GameEngine.gameOver GameEngine.winner
       GameEngine._winLine].
  rewrite !map_copy_rows, !map_copyEntry.
  destruct line as [l|]; [rewrite !map_copyCell|]; reflexivity.
Qed.

(** ** The wrapper class *)

(** [makeMove] of the wrapper, on a reachable engine whose game goes on.  On
    a cell that is no valid move it returns null and changes nothing; on a
    valid one it returns the colour that moved -- black for the first,
    third, ... move and white for the others, the colour [currentPlayer]
    showed --, stores the result of the engine, and the history is one move
    longer. *)
Theorem makeMove_colour allow game x y :
  Spec.reachable (Game._engine game) -> Game.isOver game = false ->
  exists r game',
    Game.makeMove allow (GameEngine.rounds (Game._engine game)) game x y
    = Some (r, game')
    /\ (Game.isValidMove game x y = false -> r = None /\ game' = game)
    /\ (Game.isValidMove game x y = true ->
        r = Some (Game.currentPlayer game)
        /\ Game.currentPlayer game
           = (if Nat.even (length (Game.moveHistory game))
              then "black"%string else "white"%string)
        /\ (exists result, Game._lastResult game' = Some result
                           /\ GameEngine.valid result = true)
        /\ length (Game.moveHistory game') = S (length (Game.moveHistory game))).
Proof.
  destruct game as [g last]. unfold Game.isOver, Game.isValidMove, Game.makeMove,
    Game.currentPlayer, Game.moveHistory. cbn [Game._engine Game._lastResult].
  intros Hreach Hgo.
  pose proof (reachable_played g Hreach) as [_ Hturn]. rewrite Hgo in Hturn.
  destruct Hturn as [Hcp _].
  unfold GameEngine.placeStone. rewrite Hgo.
  destruct (GameEngine.isValidMove g x y) eqn:Hv; cbn [negb].
  - cbv zeta. unfold GameEngine.isValidMove in Hv. apply andb_true_iff in Hv.
    destruct Hv as [Hb Hc].
    set (g1 := GameEngine.mkState _ _ _ _ _ _ _).
    destruct (game_checkWin_spec allow g1 x y (GameEngine.currentPlayer g)
                (GameEngine.rounds g)) as (w & Hw & _);
      [exact Hb | apply Nat.le_refl |].
    rewrite Hw.
    assert (Hcolour : Game.colour (GameEngine.currentPlayer g)
                      = (if Nat.even (length (map (fun m =>
                                 Game.mkStone (GameEngine.x m) (GameEngine.y m)
                                              (Game.colour (GameEngine.player m))
                                              (GameEngine.moveNumber m))
                                              (GameEngine.moveHistory g)))
                         then "black"%string else "white"%string)).
    { rewrite length_map, Hcp. destruct (Nat.even _); reflexivity. }
    destruct (GameEngine.won w); [|destruct (GameEngine.isBoardFull g1)];
      (eexists _, _; split; [reflexivity|]; split; [discriminate|]; intros _;
       split; [reflexivity|]; split; [exact Hcolour|];
       split; [eexists; split; reflexivity|];
       cbn [Game._engine GameEngine.moveHistory g1];
       rewrite !length_map, length_app; cbn [length]; lia).
  - destruct (negb (GameEngine._inBounds g x y));
      (eexists _, _; split; [reflexivity|]; split; [|discriminate]; intros _;
       split; reflexivity).
Qed.

Lemma makeMove_colour_witness :
  exists r game',
    Game.makeMove false (GameEngine.rounds Positions.twoMoves)
                  (Game.mk Positions.twoMoves None) 6 8 = Some (r, game')
    /\ (Game.isValidMove (Game.mk Positions.twoMoves None) 6 8 = false ->
        r = None /\ game' = Game.mk Positions.twoMoves None)
    /\ (Game.isValidMove (Game.mk Positions.twoMoves None) 6 8 = true ->
        r = Some (Game.currentPlayer (Game.mk Positions.twoMoves None))
        /\ Game.currentPlayer (Game.mk Positions.twoMoves None)
           = (if Nat.even (length (Game.moveHistory (Game.mk Positions.twoMoves None)))
              then "black"%string else "white"%string)
        /\ (exists result, Game._lastResult game' = Some result
                           /\ GameEngine.valid result = true)
        /\ length (Game.moveHistory game')
           = S (length (Game.moveHistory (Game.mk Positions.twoMoves None)))).
Proof.
  apply (makeMove_colour false (Game.mk Positions.twoMoves None) 6 8).
  - apply afterMoves_reachable.
  - reflexivity.
Defined.

(** * Further properties of the move search *)

(** ** The candidates *)

Lemma visit_near board radius i j acc di dj :
  AI.inBounds i j = true -> AI.cell board i j <> AI.EMPTY ->
  In (di, dj) (list_prod (AI.offsets radius) (AI.offsets radius)) ->
  Spec.candidatesNear board radius acc ->
  Spec.candidatesNear board radius (AI.visit board i j acc (di, dj)).
Proof.
  intros Hb Hstone Hd [Hnodup Hcands]. unfold AI.visit.
  destruct (AI.inBounds (i + di) (j + dj) && (AI.cell board (i + di) (j + dj) =? AI.EMPTY));
    [|split; assumption].
  destruct (AI.has (AI.visited acc) ((i + di) * AI.BOARD_SIZE + (j + dj))) eqn:Hhas;
    cbn [negb]; [split; assumption|].
  apply in_prod_iff in Hd. rewrite !In_offsets in Hd.
  split; cbn [AI.candidates AI.visited].
  - apply NoDup_snoc. split; [exact Hnodup|]. intros Hin.
    destruct (Hcands _ Hin) as [Hkey _]. cbn [AI.x AI.y] in Hkey.
    apply has_iff in Hkey. congruence.
  - intros m Hm. apply in_app_iff in Hm. destruct Hm as [Hm|[<-|[]]].
    + destruct (Hcands m Hm) as [Hkey Hnear]. split; [right; exact Hkey|exact Hnear].
    + cbn [AI.x AI.y]. split; [left; reflexivity|].
      exists i, j. split; [exact Hb|]. split; [exact Hstone|]. cbn [AI.x AI.y]. lia.
Qed.

Lemma scanCell_near board radius acc i j :
  In (i, j) AI.cells -> Spec.candidatesNear board radius acc ->
  Spec.candidatesNear board radius (AI.scanCell board radius acc (i, j)).
Proof.
  intros Hin Hnear. unfold AI.scanCell.
  destruct (AI.cell board i j =? AI.EMPTY) eqn:Hc; cbn [negb]; [exact Hnear|].
  apply In_cells in Hin. apply Z.eqb_neq in Hc.
  apply fold_left_keeps_in.
  - intros a [di dj] Hd Ha. apply visit_near; assumption.
  - exact Hnear.
Qed.

Lemma scan_all_near board radius :
  Spec.candidatesNear board radius
    (fold_left (AI.scanCell board radius) AI.cells (AI.mkCandidates [] [] false)).
Proof.
  apply fold_left_keeps_in.
  - intros a [i j] Hin Ha. apply scanCell_near; assumption.
  - split; [constructor|]. intros m [].
Qed.

Lemma scan_all_empty board radius :
  (forall i j, AI.inBounds i j = true -> AI.cell board i j = AI.EMPTY) ->
  fold_left (AI.scanCell board radius) AI.cells (AI.mkCandidates [] [] false)
  = AI.mkCandidates [] [] false.
Proof.
  intros Hempty. apply fold_left_fixed. intros [i j] Hin.
  apply In_cells in Hin. unfold AI.scanCell. rewrite (Hempty i j Hin). reflexivity.
Qed.

Lemma if_negb_true {A} (b : bool) (u v : A) :
  b = true -> (if negb b then u else v) = v.
Proof. intros ->. reflexivity. Qed.

(** [generateCandidates] on a 15 x 15 board.  With no stone on the board it
    returns the center alone; with a stone on the board it returns exactly
    the empty cells within [radius] of some stone on both axes.  In both
    cases no cell is returned twice. *)
Theorem generateCandidates_are_the_cells_near_stones board radius :
  AI.shapedb board = true ->
  NoDup (AI.generateCandidates board radius)
  /\ ((forall i j, AI.inBounds i j = true -> AI.cell board i j = AI.EMPTY) ->
      AI.generateCandidates board radius = [AI.mkMove AI.CENTER AI.CENTER])
  /\ ((exists i j, AI.inBounds i j = true /\ AI.cell board i j <> AI.EMPTY) ->
      forall m, In m (AI.generateCandidates board radius)
                <-> Spec.legal board m /\ exists i j, Spec.near board radius m i j).
Proof.
  intros _. pose proof (scan_all_near board radius) as [Hnodup Hnear].
  split; [|split].
  - rewrite generateCandidates_eq. destruct (AI.hasStone _); cbn [negb]; [exact Hnodup|].
    constructor; [intros []|constructor].
  - intros Hempty. rewrite generateCandidates_eq, (scan_all_empty board radius Hempty).
    reflexivity.
  - intros (i & j & Hb & Hstone) m. split.
    + intros Hin. split; [apply (generateCandidates_legal board radius), Hin|].
      rewrite generateCandidates_eq in Hin.
      rewrite (if_negb_true _ _ _ (scan_all_hasStone board radius i j Hb Hstone)) in Hin.
      apply Hnear, Hin.
    + intros [Hlegal (i' & j' & Hn)].
      apply (generateCandidates_near board radius m i' j'); assumption.
Qed.

Lemma generateCandidates_are_the_cells_near_stones_witness :
  NoDup (AI.generateCandidates Positions.openThree 2)
  /\ ((forall i j, AI.inBounds i j = true -> AI.cell Positions.openThree i j = AI.EMPTY) ->
      AI.generateCandidates Positions.openThree 2 = [AI.mkMove AI.CENTER AI.CENTER])
  /\ ((exists i j, AI.inBounds i j = true /\ AI.cell Positions.openThree i j <> AI.EMPTY) ->
      forall m, In m (AI.generateCandidates Positions.openThree 2)
                <-> Spec.legal Positions.openThree m
                    /\ exists i j, Spec.near Positions.openThree 2 m i j).
Proof.
  apply (generateCandidates_are_the_cells_near_stones Positions.openThree 2).
  vm_compute. reflexivity.
Defined.

(** ** The ordering of the candidates *)

Lemma insert_perm {A} (cmp : A -> A -> float) a l :
  Permutation.Permutation (insert cmp a l) (a :: l).
Proof.
  induction l as [|b l IH]; cbn [insert]; [apply Permutation.Permutation_refl|].
  destruct (0 <? cmp a b)%float; [|apply Permutation.Permutation_refl].
  eapply Permutation.perm_trans; [apply Permutation.perm_skip, IH|].
  apply Permutation.perm_swap.
Qed.

Lemma sort_perm {A} (cmp : A -> A -> float) l :
  Permutation.Permutation (sort cmp l) l.
Proof.
  unfold sort. induction l as [|a l IH]; cbn [fold_right];
    [apply Permutation.Permutation_refl|].
  eapply Permutation.perm_trans; [apply insert_perm|].
  apply Permutation.perm_skip, IH.
Qed.

(** [getOrderedMoves] on a 15 x 15 board returns the candidates of
    [generateCandidates] in another order -- none dropped, none added, none
    repeated --, each with the score [scoreMoveQuick] gives its cell. *)
Theorem getOrderedMoves_reorders_the_candidates board player radius :
  AI.shapedb board = true ->
  Permutation.Permutation (map AI.move (AI.getOrderedMoves board player radius))
                          (AI.generateCandidates board radius)
  /\ forall sm, In sm (AI.getOrderedMoves board player radius) ->
                AI.score sm
                = AI.scoreMoveQuick board (AI.x (AI.move sm)) (AI.y (AI.move sm)) player.
Proof.
  intros _. unfold AI.getOrderedMoves. split.
  - eapply Permutation.perm_trans;
      [apply Permutation.Permutation_map, sort_perm|].
    rewrite map_map. cbn [AI.move]. rewrite map_id. apply Permutation.Permutation_refl.
  - intros sm Hin. apply In_sort, in_map_iff in Hin.
    destruct Hin as (m & <- & _). reflexivity.
Qed.

Lemma getOrderedMoves_reorders_the_candidates_witness :
  Permutation.Permutation
    (map AI.move (AI.getOrderedMoves Positions.openThree AI.BLACK 2))
    (AI.generateCandidates Positions.openThree 2)
  /\ forall sm, In sm (AI.getOrderedMoves Positions.openThree AI.BLACK 2) ->
                AI.score sm
                = AI.scoreMoveQuick Positions.openThree (AI.x (AI.move sm))
                                    (AI.y (AI.move sm)) AI.BLACK.
Proof.
  apply (getOrderedMoves_reorders_the_candidates Positions.openThree AI.BLACK 2).
  vm_compute. reflexivity.
Defined.

(** ** Winning cells *)

Lemma countRun_ge board player p n k c m :
  0 <= m <= Z.of_nat n ->
  (forall t, k <= t < k + m ->
             Spec.ownsb board player (fst (p t)) (snd (p t)) = true) ->
  c + m <= AI.countRun board player p n k c.
Proof.
  intros Hm Hown.
  pose proof (countRun_le board player p n k c) as Hle.
  pose proof (countRun_spec board player p n k c) as Hspec. cbv zeta in Hspec.
  destruct Hspec as [_ Hend].
  destruct (Z_lt_le_dec (AI.countRun board player p n k c - c) m) as [Hlt|Hge]; [|lia].
  rewrite Hown in Hend by lia. specialize (Hend ltac:(lia)). discriminate.
Qed.

(** [isWinningMove] at a cell of a 15 x 15 board answers whether a stone of
    [player] there completes five in a row: whether some five cells in a row
    contain the cell and otherwise only stones of [player]. *)
Theorem isWinningMove_completes_five board x y player :
  AI.shapedb board = true -> AI.inBounds x y = true ->
  (AI.isWinningMove board x y player = true
   <-> Spec.completesFive board player (AI.mkMove x y)).
Proof.
  intros _ Hxy. unfold AI.isWinningMove. rewrite existsb_exists. split.
  - intros ([dx dy] & Hd & Hcount). cbv zeta in Hcount. apply Z.geb_le in Hcount.
    pose proof (countRun_le board player (fun k => (x + dx * k, y + dy * k)) 4 1 1) as Hle1.
    pose proof (countRun_spec board player (fun k => (x + dx * k, y + dy * k)) 4 1 1)
      as Hfwd.
    cbv zeta in Hfwd. cbn [fst snd] in Hfwd. destruct Hfwd as [Hfwd _].
    set (r1 := AI.countRun board player (fun k => (x + dx * k, y + dy * k)) 4 1 1) in *.
    pose proof (countRun_le board player (fun k => (x - dx * k, y - dy * k)) 4 1 r1) as Hle2.
    pose proof (countRun_spec board player (fun k => (x - dx * k, y - dy * k)) 4 1 r1)
      as Hbwd.
    cbv zeta in Hbwd. cbn [fst snd] in Hbwd. destruct Hbwd as [Hbwd _].
    set (r2 := AI.countRun board player (fun k => (x - dx * k, y - dy * k)) 4 1 r1) in *.
    set (b := r2 - r1).
    exists (x - dx * b), (y - dy * b), dx, dy. split; [exact Hd|]. split.
    + exists b. cbn [AI.x AI.y]. split; [subst b; lia|]. split; ring.
    + intros k Hk. cbn [AI.x AI.y].
      destruct (Z.lt_trichotomy k b) as [Hlt|[->|Hgt]].
      * specialize (Hbwd (b - k) ltac:(subst b; lia)). apply ownsb_iff in Hbwd.
        replace (x - dx * b + dx * k) with (x - dx * (b - k)) by ring.
        replace (y - dy * b + dy * k) with (y - dy * (b - k)) by ring.
        destruct Hbwd as [Hin Hc]. split; [exact Hin|right; exact Hc].
      * replace (x - dx * b + dx * b) with x by ring.
        replace (y - dy * b + dy * b) with y by ring.
        split; [exact Hxy|left; split; reflexivity].
      * specialize (Hfwd (k - b) ltac:(subst b; lia)). apply ownsb_iff in Hfwd.
        replace (x - dx * b + dx * k) with (x + dx * (k - b)) by ring.
        replace (y - dy * b + dy * k) with (y + dy * (k - b)) by ring.
        destruct Hfwd as [Hin Hc]. split; [exact Hin|right; exact Hc].
  - intros (i & j & dx & dy & Hd & (kw & Hkw & Hx & Hy) & Hall).
    cbn [AI.x AI.y] in Hx, Hy. exists (dx, dy). split; [exact Hd|]. cbv zeta.
    apply Z.geb_le.
    assert (Hcell : forall k, 0 <= k < 5 -> k <> kw ->
                              Spec.ownsb board player (i + dx * k) (j + dy * k) = true).
    { intros k Hk Hne. apply ownsb_iff.
      apply (completesFive_cells board player (AI.mkMove x y) i j dx dy kw k Hd Hx Hy);
        [apply Hall, Hk|exact Hne]. }
    pose proof (countRun_ge board player (fun k => (x + dx * k, y + dy * k)) 4 1 1 (4 - kw))
      as Hfwd.
    cbn [fst snd] in Hfwd.
    assert (H1 : 1 + (4 - kw)
                 <= AI.countRun board player (fun k => (x + dx * k, y + dy * k)) 4 1 1).
    { apply Hfwd; [lia|]. intros t Ht.
      replace (x + dx * t) with (i + dx * (kw + t)) by (rewrite Hx; ring).
      replace (y + dy * t) with (j + dy * (kw + t)) by (rewrite Hy; ring).
      apply Hcell; lia. }
    set (r1 := AI.countRun board player (fun k => (x + dx * k, y + dy * k)) 4 1 1) in *.
    pose proof (countRun_ge board player (fun k => (x - dx * k, y - dy * k)) 4 1 r1 kw)
      as Hbwd.
    cbn [fst snd] in Hbwd.
    assert (H2 : r1 + kw
                 <= AI.countRun board player (fun k => (x - dx * k, y - dy * k)) 4 1 r1).
    { apply Hbwd; [lia|]. intros t Ht.
      replace (x - dx * t) with (i + dx * (kw - t)) by (rewrite Hx; ring).
      replace (y - dy * t) with (j + dy * (kw - t)) by (rewrite Hy; ring).
      apply Hcell; lia. }
    lia.
Qed.

Lemma isWinningMove_completes_five_witness :
  AI.isWinningMove Positions.blackFour 7 4 AI.BLACK = true
  <-> Spec.completesFive Positions.blackFour AI.BLACK (AI.mkMove 7 4).
Proof.
  apply (isWinningMove_completes_five Positions.blackFour 7 4 AI.BLACK).
  - vm_compute. reflexivity.
  - reflexivity.
Defined.

(** ** Counting the stones *)

Lemma length_cells : length AI.cells = 225%nat.
Proof. vm_compute. reflexivity. Qed.

Lemma filter_split_length {A} (P : A -> bool) l :
  (length (filter P l) + length (filter (fun a => negb (P a)) l) = length l)%nat.
Proof.
  induction l as [|a l IH]; cbn [filter length]; [reflexivity|].
  destruct (P a); cbn [negb length]; lia.
Qed.

Lemma emptyCount_zero board :
  Spec.emptyCount board = 0%nat <-> forall m, ~ Spec.legal board m.
Proof.
  unfold Spec.emptyCount. rewrite length_zero_iff_nil. split.
  - intros Hnil m [Hb Hc].
    assert (Hin : In (AI.x m, AI.y m)
                     (filter (fun '(i, j) => AI.cell board i j =? AI.EMPTY) AI.cells)).
    { apply filter_In. split; [apply In_cells, Hb|]. rewrite Hc. reflexivity. }
    rewrite Hnil in Hin. contradiction.
  - intros Hnone.
    destruct (filter (fun '(i, j) => AI.cell board i j =? AI.EMPTY) AI.cells)
      as [|[i j] l] eqn:Hf; [reflexivity|].
    exfalso. assert (Hin : In (i, j) ((i, j) :: l)) by (left; reflexivity).
    rewrite <- Hf in Hin. apply filter_In in Hin. destruct Hin as [Hin Hc].
    apply (Hnone (AI.mkMove i j)). split; [apply In_cells, Hin|apply Z.eqb_eq, Hc].
Qed.

(** On a 15 x 15 board [countStones] and the number of empty cells add up to
    225, and [isBoardFull] answers whether no cell is empty, that is whether
    [countStones] is 225. *)
Theorem countStones_and_isBoardFull board :
  AI.shapedb board = true ->
  AI.countStones board + Z.of_nat (Spec.emptyCount board) = 225
  /\ (AI.isBoardFull board = true <-> AI.countStones board = 225)
  /\ (AI.isBoardFull board = false <-> exists m, Spec.legal board m).
Proof.
  intros _.
  assert (Hsum : AI.countStones board + Z.of_nat (Spec.emptyCount board) = 225).
  { rewrite countStones_filter. unfold Spec.emptyCount.
    pose proof (filter_split_length (fun '(i, j) => AI.cell board i j =? AI.EMPTY)
                                    AI.cells) as Hsplit.
    rewrite length_cells in Hsplit.
    rewrite (filter_ext (fun '(i, j) => negb (AI.cell board i j =? AI.EMPTY))
                        (fun a => negb ((fun '(i, j) => AI.cell board i j =? AI.EMPTY) a)))
      by (intros [i j]; reflexivity).
    lia. }
  assert (Hfull : AI.isBoardFull board = false <-> exists m, Spec.legal board m).
  { unfold AI.isBoardFull. rewrite negb_false_iff, existsb_exists. split.
    - intros ([i j] & Hin & Hc). exists (AI.mkMove i j).
      split; [apply In_cells, Hin|apply Z.eqb_eq, Hc].
    - intros (m & Hb & Hc). exists (AI.x m, AI.y m).
      split; [apply In_cells, Hb|apply Z.eqb_eq, Hc]. }
  split; [exact Hsum|]. split; [|exact Hfull].
  pose proof (emptyCount_zero board) as Hzero. split.
  - intros Ht. assert (Hnone : forall m, ~ Spec.legal board m).
    { intros m Hm. assert (Hf : AI.isBoardFull board = false)
        by (apply Hfull; exists m; exact Hm). congruence. }
    apply Hzero in Hnone. lia.
  - intros Hc. apply not_false_iff_true. intros Hb.
    apply Hfull in Hb. destruct Hb as (m & Hm).
    assert (Hz : Spec.emptyCount board = 0%nat) by lia.
    exfalso. exact (proj1 Hzero Hz m Hm).
Qed.

Lemma countStones_and_isBoardFull_witness :
  AI.countStones Positions.mustBlock + Z.of_nat (Spec.emptyCount Positions.mustBlock) = 225
  /\ (AI.isBoardFull Positions.mustBlock = true <-> AI.countStones Positions.mustBlock = 225)
  /\ (AI.isBoardFull Positions.mustBlock = false
      <-> exists m, Spec.legal Positions.mustBlock m).
Proof.
  apply (countStones_and_isBoardFull Positions.mustBlock).
  vm_compute. reflexivity.
Defined.

(** ** Blocking the opponent's five *)

(** Five in a row after a stone on an empty cell were there before, or the
    stone completed them. *)
Lemma hasFive_after board player c :
  Spec.legal board c -> Spec.hasFive (Spec.after board c player) player ->
  Spec.hasFive board player \/ Spec.completesFive board player c.
Proof.
  intros [Hcb Hcc] (i & j & dx & dy & Hd & Hall). apply inBounds_iff in Hcb.
  assert (Hother : forall k, 0 <= k < 5 ->
             (i + dx * k, j + dy * k) <> (AI.x c, AI.y c) ->
             Spec.owns board player (i + dx * k) (j + dy * k)).
  { intros k Hk Hne. destruct (Hall k Hk) as [Hb Hc]. split; [exact Hb|].
    apply inBounds_iff in Hb. unfold Spec.after in Hc.
    rewrite cell_setCell_other in Hc by (try lia; exact Hne). exact Hc. }
  destruct (existsb (fun k => (i + dx * k =? AI.x c) && (j + dy * k =? AI.y c))
                    (range 0 5)) eqn:Hex.
  - right. apply existsb_exists in Hex. destruct Hex as (kw & Hkw & Heq).
    apply In_range in Hkw. apply andb_true_iff in Heq. destruct Heq as [Hx Hy].
    apply Z.eqb_eq in Hx, Hy.
    exists i, j, dx, dy. split; [exact Hd|]. split; [exists kw; split; [lia|]; split; lia|].
    intros k Hk. split; [apply (Hall k Hk)|].
    destruct (Z.eq_dec (i + dx * k) (AI.x c)) as [Hex|Hex];
      [destruct (Z.eq_dec (j + dy * k) (AI.y c)) as [Hey|Hey]|].
    + left. split; assumption.
    + right. apply Hother; [exact Hk|congruence].
    + right. apply Hother; [exact Hk|congruence].
  - left. exists i, j, dx, dy. split; [exact Hd|]. intros k Hk.
    apply Hother; [exact Hk|]. intros Heq. inversion Heq as [[Hx Hy]].
    assert (Htrue : existsb (fun k => (i + dx * k =? AI.x c) && (j + dy * k =? AI.y c))
                            (range 0 5) = true).
    { apply existsb_exists. exists k. split; [apply In_range; lia|].
      rewrite Hx, Hy, !Z.eqb_refl. reflexivity. }
    congruence.
Qed.

Section Blocking.
Variable now : nat -> Z.
Variable random : nat -> Q.

(** [findBestMove] when no candidate wins at once and one stops a five. *)
Lemma findBestMove_blocks fuel player depth timeLimitMs advancedEval s :
  (Spec.emptyCount (AI.board s) < fuel)%nat ->
  (forall c, In c (AI.generateCandidates (AI.board s) 2) ->
             AI.checkWin (Spec.after (AI.board s) c player) player = false) ->
  (exists c, In c (AI.generateCandidates (AI.board s) 2)
             /\ AI.checkWin (Spec.after (AI.board s) c (AI.opponent player))
                            (AI.opponent player) = true) ->
  exists m s',
    AI.findBestMove now fuel player depth timeLimitMs advancedEval s = Some (m, s')
    /\ AI.board s' = AI.board s
    /\ In m (AI.generateCandidates (AI.board s) 2)
    /\ AI.checkWin (Spec.after (AI.board s) m (AI.opponent player)) (AI.opponent player)
       = true.
Proof.
  intros Hcount Hnowin (c & Hc & Hblock). unfold AI.findBestMove, AI.DateNow.
  set (s1 := AI.setThis _ _).
  assert (Hb1 : AI.board s1 = AI.board s) by reflexivity. rewrite Hb1.
  pose proof (getOrderedMoves_candidates (AI.board s) player 2) as Hcand.
  pose proof (fun sm => getOrderedMoves_legal (AI.board s) player 2 sm) as Hlegal.
  apply Hcand in Hc.
  destruct (AI.getOrderedMoves (AI.board s) player 2) as [|first [|second rest]] eqn:Hmoves.
  - contradiction.
  - destruct Hc as [<-|[]]. eexists _, _. split; [reflexivity|]. split; [exact Hb1|].
    split; [apply Hcand; left; reflexivity|exact Hblock].
  - set (moves := first :: second :: rest) in *.
    assert (Hl1 : forall m, In m (map AI.move moves) -> Spec.legal (AI.board s1) m).
    { intros m Hm. apply in_map_iff in Hm. destruct Hm as (sm & <- & Hsm).
      apply Hlegal, Hsm. }
    destruct (probeMoves_spec player (map AI.move moves) s1 Hl1) as [Hs2 Hr2].
    rewrite Hb1 in Hr2.
    destruct (AI.probeMoves player (map AI.move moves) s1) as [[m|] s2];
      cbn [fst snd] in Hs2, Hr2; subst s2.
    { destruct Hr2 as [Hin Hw]. apply Hcand in Hin. rewrite (Hnowin m Hin) in Hw.
      discriminate. }
    destruct (probeMoves_spec (AI.opponent player) (map AI.move moves) s1 Hl1)
      as [Hs3 Hr3].
    rewrite Hb1 in Hr3.
    destruct (AI.probeMoves (AI.opponent player) (map AI.move moves) s1) as [[m|] s3];
      cbn [fst snd] in Hs3, Hr3; subst s3.
    { destruct Hr3 as [Hin Hw]. eexists _, _. split; [reflexivity|].
      split; [exact Hb1|]. split; [apply Hcand, Hin|exact Hw]. }
    rewrite (Hr3 c Hc) in Hblock. discriminate.
Qed.

(** The same for [findBestMoveIterative]. *)
Lemma findBestMoveIterative_blocks fuel player maxDepth timeLimitMs advancedEval s :
  (225 < fuel)%nat ->
  (forall c, In c (AI.generateCandidates (AI.board s) 2) ->
             AI.checkWin (Spec.after (AI.board s) c player) player = false) ->
  (exists c, In c (AI.generateCandidates (AI.board s) 2)
             /\ AI.checkWin (Spec.after (AI.board s) c (AI.opponent player))
                            (AI.opponent player) = true) ->
  exists m s',
    AI.findBestMoveIterative now fuel player maxDepth timeLimitMs advancedEval s
    = Some (m, s')
    /\ AI.board s' = AI.board s
    /\ In m (AI.generateCandidates (AI.board s) 2)
    /\ AI.checkWin (Spec.after (AI.board s) m (AI.opponent player)) (AI.opponent player)
       = true.
Proof.
  intros Hfuel Hnowin (c & Hc & Hblock).
  pose proof (emptyCount_bound (AI.board s)) as Hbound.
  destruct (findBestMoveIterative_spec now fuel player maxDepth timeLimitMs advancedEval s)
    as (m0 & s0 & Hr0 & Hb0 & _); [lia|].
  destruct (findBestMoveIterative_cases now fuel player maxDepth timeLimitMs
                                        advancedEval s Hfuel)
    as (m & s' & Hr & Hcase).
  rewrite Hr in Hr0. inversion Hr0; subst m0 s0.
  exists m, s'. split; [exact Hr|]. split; [exact Hb0|].
  destruct Hcase as [[Hin Hw]|[(_ & Hin & Hw)|[Hnone _]]].
  - rewrite (Hnowin m Hin) in Hw. discriminate.
  - split; assumption.
  - rewrite (proj2 (Hnone c Hc)) in Hblock. discriminate.
Qed.

(** At every difficulty but Easy, when the mover has no five and no cell
    that completes one, and a stone of the opponent on some empty cell would
    complete five, [getMove] returns an empty cell on which a stone of the
    opponent would give the opponent five: it stops a five, whatever the
    search depth, the clock and the random draws.  The board is left as it
    was. *)
Theorem getMove_blocks_five fuel ai player s w :
  (225 < fuel)%nat -> player = AI.BLACK \/ player = AI.WHITE ->
  AI.difficulty ai <> "easy"%string ->
  AI.shapedb (AI.board s) = true ->
  ~ Spec.hasFive (AI.board s) player ->
  (forall c, Spec.legal (AI.board s) c -> ~ Spec.completesFive (AI.board s) player c) ->
  Spec.legal (AI.board s) w ->
  Spec.completesFive (AI.board s) (AI.opponent player) w ->
  exists m s',
    AI.getMove now random fuel ai player s = Some (Some m, s')
    /\ Spec.legal (AI.board s) m
    /\ Spec.hasFive (Spec.after (AI.board s) m (AI.opponent player)) (AI.opponent player)
    /\ AI.board s' = AI.board s.
Proof.
  intros Hfuel Hplayer Hdiff _ Hnofive Hnone Hw Hfive. unfold AI.getMove.
  rewrite (legal_board_length _ _ Hw).
  apply String.eqb_neq in Hdiff. rewrite Hdiff.
  pose proof (opponent_not_empty player) as Hopp.
  pose proof (emptyCount_bound (AI.board s)) as Hbound.
  assert (Hnowin : forall c, In c (AI.generateCandidates (AI.board s) 2) ->
                             AI.checkWin (Spec.after (AI.board s) c player) player = false).
  { intros c Hc. apply not_true_iff_false. intros Hwin. apply checkWin_iff in Hwin.
    pose proof (generateCandidates_legal _ _ _ Hc) as Hlegal.
    destruct (hasFive_after _ _ _ Hlegal Hwin) as [H|H];
      [exact (Hnofive H)|exact (Hnone c Hlegal H)]. }
  assert (Hblock : exists c, In c (AI.generateCandidates (AI.board s) 2)
                             /\ AI.checkWin (Spec.after (AI.board s) c (AI.opponent player))
                                            (AI.opponent player) = true).
  { exists w. split; [|apply completesFive_wins; assumption].
    destruct (completesFive_near _ _ _ Hopp Hfive) as (i & j & Hb & Hc & Hx & Hy).
    apply (generateCandidates_near _ 2 w i j Hw).
    split; [exact Hb|]. split; [exact Hc|]. lia. }
  assert (Hsearch : forall depth limit adv,
             exists m s',
               AI.returned (AI.findBestMove now fuel player depth limit adv
                                            (AI.setThis s AI.newEngine))
               = Some (Some m, s')
               /\ Spec.legal (AI.board s) m
               /\ Spec.hasFive (Spec.after (AI.board s) m (AI.opponent player))
                               (AI.opponent player)
               /\ AI.board s' = AI.board s).
  { intros depth limit adv.
    destruct (findBestMove_blocks fuel player depth limit adv (AI.setThis s AI.newEngine))
      as (m & s' & Hr & Hb & Hin & Hwin);
      [cbn [AI.board AI.setThis]; lia|exact Hnowin|exact Hblock|].
    rewrite Hr. exists m, s'. split; [reflexivity|].
    split; [apply (generateCandidates_legal _ 2), Hin|].
    split; [apply checkWin_iff, Hwin|exact Hb]. }
  destruct (String.eqb (AI.difficulty ai) "medium"); [apply Hsearch|].
  destruct (String.eqb (AI.difficulty ai) "hard"); [apply Hsearch|].
  destruct (String.eqb (AI.difficulty ai) "master"); [|apply Hsearch].
  unfold AI.masterMove.
  rewrite (consultBook_late random player s (completesFive_count _ _ _ Hopp Hfive)).
  destruct (findBestMoveIterative_blocks fuel player 6 2000 true (AI.setThis s AI.newEngine))
    as (m & s' & Hr & Hb & Hin & Hwin); [exact Hfuel|exact Hnowin|exact Hblock|].
  rewrite Hr. exists m, s'. split; [reflexivity|].
  split; [apply (generateCandidates_legal _ 2), Hin|].
  split; [apply checkWin_iff, Hwin|exact Hb].
Qed.

End Blocking.

Lemma getMove_blocks_five_witness :
  exists m s',
    AI.getMove Positions.frozen Positions.half 226 (AI.mkAI "hard"%string) AI.BLACK
               (Positions.start Positions.mustBlock) = Some (Some m, s')
    /\ Spec.legal Positions.mustBlock m
    /\ Spec.hasFive (Spec.after Positions.mustBlock m (AI.opponent AI.BLACK))
                    (AI.opponent AI.BLACK)
    /\ AI.board s' = Positions.mustBlock.
Proof.
  apply (getMove_blocks_five Positions.frozen Positions.half 226 (AI.mkAI "hard"%string)
                             AI.BLACK (Positions.start Positions.mustBlock)
                             (AI.mkMove 5 9)).
  - lia.
  - left. reflexivity.
  - discriminate.
  - vm_compute. reflexivity.
  - intros H. apply checkWin_iff in H. vm_compute in H. discriminate.
  - intros [cx cy] [Hb Hc] Hfive.
    pose proof (completesFive_wins _ _ _ (conj Hb Hc) Hfive) as Hwin.
    assert (Hall : forallb (fun '(i, j) =>
                              negb (AI.checkWin (Spec.after Positions.mustBlock
                                                            (AI.mkMove i j) AI.BLACK)
                                                AI.BLACK))
                           AI.cells = true) by (vm_compute; reflexivity).
    pose proof (proj1 (forallb_forall _ _) Hall (cx, cy) (proj2 (In_cells cx cy) Hb))
      as Hcell.
    cbn beta iota in Hcell. apply negb_true_iff in Hcell.
    change (AI.board (Positions.start Positions.mustBlock)) with Positions.mustBlock
      in Hwin.
    congruence.
  - split; reflexivity.
  - exists 5, 5, 0, 1. split; [left; reflexivity|].
    split; [exists 4; repeat split; lia|].
    intros k Hk.
    assert (Hcases : k = 0 \/ k = 1 \/ k = 2 \/ k = 3 \/ k = 4) by lia.
    destruct Hcases as [-> | [-> | [-> | [-> | ->]]]];
      (split; [reflexivity|]);
      [right; reflexivity | right; reflexivity | right; reflexivity
       | right; reflexivity | left; split; reflexivity].
Defined.

(** ** The Easy policy *)

Section EasyPolicy.
Variable now : nat -> Z.
Variable random : nat -> Q.

(** The blocking scan of [easyMove] when its first draw is below 0.7: it
    returns the first candidate that stops a five, one draw made. *)
Lemma easyBlock_first opp candidates :
  forall s, (forall c, In c candidates -> Spec.legal (AI.board s) c) ->
    (exists c, In c candidates
               /\ AI.checkWin (Spec.after (AI.board s) c opp) opp = true) ->
    (random (AI.dice s) < AI.point7)%Q ->
    exists m,
      AI.easyBlock random opp candidates s
      = (Some m, AI.mkSt (AI.board s) (AI.this s) (AI.clock s) (S (AI.dice s)))
      /\ In m candidates
      /\ AI.checkWin (Spec.after (AI.board s) m opp) opp = true.
Proof.
  induction candidates as [|c rest IH]; intros s Hlegal (b & Hb & Hblock) Hdraw.
  - contradiction.
  - cbn [AI.easyBlock].
    assert (Hc : Spec.legal (AI.board s) c) by (apply Hlegal; left; reflexivity).
    rewrite board_place, place_restore by exact Hc.
    destruct (AI.checkWin (Spec.after (AI.board s) c opp) opp) eqn:Hwin.
    + unfold AI.MathRandom.
      destruct (Qle_bool AI.point7 (random (AI.dice s))) eqn:Hle.
      * apply Qle_bool_iff in Hle. exfalso. exact (Qlt_not_le _ _ Hdraw Hle).
      * cbn [negb]. exists c. split; [reflexivity|]. split; [left; reflexivity|exact Hwin].
    + destruct (IH s) as (m & Hr & Hin & Hw).
      * intros c' Hc'. apply Hlegal. right. exact Hc'.
      * destruct Hb as [<-|Hb]; [congruence|]. exists b. split; assumption.
      * exact Hdraw.
      * exists m. split; [exact Hr|]. split; [right; exact Hin|exact Hw].
Qed.

(** Easy stops a five when its draw is below 0.7: when the mover has no five
    and no cell that completes one, a stone of the opponent on some empty
    cell would complete five, and the next value of [Math.random()] is below
    0.7, [getMove] at difficulty Easy returns an empty cell on which a stone
    of the opponent would give the opponent five, having made that one draw
    and left the board as it was. *)
Theorem easy_blocks_when_the_draw_is_low fuel player s w :
  player = AI.BLACK \/ player = AI.WHITE ->
  AI.shapedb (AI.board s) = true ->
  ~ Spec.hasFive (AI.board s) player ->
  (forall c, Spec.legal (AI.board s) c -> ~ Spec.completesFive (AI.board s) player c) ->
  Spec.legal (AI.board s) w ->
  Spec.completesFive (AI.board s) (AI.opponent player) w ->
  (random (AI.dice s) < AI.point7)%Q ->
  exists m,
    AI.getMove now random fuel (AI.mkAI "easy"%string) player s
    = Some (Some m, AI.mkSt (AI.board s) (AI.this s) (AI.clock s) (S (AI.dice s)))
    /\ Spec.legal (AI.board s) m
    /\ Spec.hasFive (Spec.after (AI.board s) m (AI.opponent player)) (AI.opponent player).
Proof.
  intros Hplayer _ Hnofive Hnone Hw Hfive Hdraw. unfold AI.getMove.
  rewrite (legal_board_length _ _ Hw). cbn [AI.difficulty]. 
  change (String.eqb "easy" "easy") with true. cbv iota.
  pose proof (opponent_not_empty player) as Hopp.
  pose proof (generateCandidates_legal (AI.board s) 1) as Hlegal.
  assert (Hwin1 : In w (AI.generateCandidates (AI.board s) 1)).
  { destruct (completesFive_near _ _ _ Hopp Hfive) as (i & j & Hn).
    apply (generateCandidates_near _ 1 w i j Hw Hn). }
  unfold AI.easyMove.
  destruct (AI.generateCandidates (AI.board s) 1) as [|first rest] eqn:Hcand;
    [contradiction|].
  set (candidates := first :: rest) in *.
  destruct (probeMoves_spec player candidates s Hlegal) as [Hs2 Hr2].
  destruct (AI.probeMoves player candidates s) as [[m|] s2];
    cbn [fst snd] in Hs2, Hr2; subst s2.
  { destruct Hr2 as [Hin Hwin]. exfalso. apply checkWin_iff in Hwin.
    destruct (hasFive_after _ _ _ (Hlegal m Hin) Hwin) as [H|H];
      [exact (Hnofive H)|exact (Hnone m (Hlegal m Hin) H)]. }
  destruct (easyBlock_first (AI.opponent player) candidates s Hlegal) as (m & Hr & Hin & Hwin).
  - exists w. split; [exact Hwin1|apply completesFive_wins; assumption].
  - exact Hdraw.
  - rewrite Hr. exists m. split; [reflexivity|].
    split; [apply Hlegal, Hin|apply checkWin_iff, Hwin].
Qed.

End EasyPolicy.
